(** * TeleBox AI gateway (src/ai/ai.ts): a shallow embedding and its properties

    The development follows the TypeScript source function by function.
    JavaScript strings are sequences of UTF-16 code units, plain objects
    used as dictionaries are ordered association lists that follow the
    own-property order of the language, the JS [Map] of in-flight
    resolutions is a finite map, and every network call, clock reading
    and random draw is an explicit input of the function that performs
    it. A lookup is that of the properties of the object itself; where
    a key comes from outside, the names inherited from
    [Object.prototype] are taken into account where the source only
    tests what it finds for truth or for [undefined], and are excluded
    by hypothesis elsewhere. Lower-casing is that of the language on
    ASCII and keeps the ASCII letters of the language's result on every
    string; what is stated of a lower-cased key is stated for ASCII. *)

From Stdlib Require Import ZArith NArith Lia Bool String Ascii.
From stdpp Require Import base option list sorting gmap.

Local Open Scope Z_scope.

(** ** JavaScript strings *)

Module Js.

(** A string is its sequence of UTF-16 code units; [length] is the
    [.length] of the source. *)
Abbreviation str := (list N).

(** An ASCII literal of the source. *)
Definition lit (s : string) : str :=
  map N_of_ascii (list_ascii_of_string s).

Definition eqb (a b : str) : bool := bool_decide (a = b).

(** Truthiness of a string: the empty string is falsy. *)
Definition truthy (s : str) : bool :=
  match s with [] => false | _ :: _ => true end.

(** [a || b] on strings. *)
Definition or_else (a b : str) : str := if truthy a then a else b.

(** The lower-case form of an ASCII letter: A to Z are shifted, every
    other code unit is kept. This is also how a regular expression
    under the [i] flag compares a code unit with an ASCII letter of the
    pattern. *)
Definition lowerUnit (c : N) : N :=
  if ((65 <=? c) && (c <=? 90))%N then (c + 32)%N else c.

(** [String.prototype.toLowerCase]. Two letters outside ASCII have a
    lower-case form with an ASCII letter in it: the Kelvin sign U+212A
    becomes [k], and the dotted capital I, U+0130, becomes [i] followed
    by the combining dot U+0307. Every other code unit outside ASCII is
    kept here as it is, where the language maps some of them to other
    code units outside ASCII. So the result has the ASCII letters of
    the language's result, at the same places, and is the language's
    result for every string in ASCII. *)
Definition lowerOf (c : N) : str :=
  if (c =? 304)%N then [105; 775]%N
  else if (c =? 8490)%N then [107]%N
  else [lowerUnit c].
Definition toLowerCase (s : str) : str := flat_map lowerOf s.

(** A string in ASCII. *)
Definition ascii (s : str) : Prop := Forall (fun c => (c < 128)%N) s.

Fixpoint startsWith (s pre : str) : bool :=
  match pre, s with
  | [], _ => true
  | p :: pre', c :: s' => (c =? p)%N && startsWith s' pre'
  | _ :: _, [] => false
  end.

(** [s.includes(sub)] *)
Fixpoint includes (s sub : str) : bool :=
  startsWith s sub ||
  match s with
  | [] => false
  | _ :: s' => includes s' sub
  end.

(** [s.replace(/\/$/, "")]: one trailing slash is removed. *)
Fixpoint trimBase (u : str) : str :=
  match u with
  | [] => []
  | [c] => if (c =? 47)%N then [] else [c]
  | c :: u' => c :: trimBase u'
  end.

(** The regular-expression class [\w]. *)
Definition isWordUnit (c : N) : bool :=
  (((48 <=? c) && (c <=? 57)) || ((65 <=? c) && (c <=? 90)) ||
   ((97 <=? c) && (c <=? 122)) || (c =? 95))%N.

(** What follows position [length w] of [s] is not a word unit. *)
Definition boundaryAfter (s w : str) : bool :=
  match drop (length w) s with
  | [] => true
  | c :: _ => negb (isWordUnit c)
  end.

(** [/\bw\b/.test(s)] for a word [w] made of word units: [prev] is the
    code unit before [s], if any. *)
Fixpoint testWord (prev : option N) (s w : str) : bool :=
  (match prev with None => true | Some c => negb (isWordUnit c) end
   && startsWith s w && boundaryAfter s w) ||
  match s with
  | [] => false
  | c :: s' => testWord (Some c) s' w
  end.

(** Decimal digits of a number, most significant first. *)
Fixpoint digitsFuel (fuel : nat) (n : N) (acc : str) : str :=
  match fuel with
  | O => acc
  | S f =>
      let acc' := (48 + n mod 10)%N :: acc in
      if (n <? 10)%N then acc' else digitsFuel f (n / 10)%N acc'
  end.
Definition ofNat (n : nat) : str :=
  digitsFuel (S n) (N.of_nat n) [].

(** [text.split("\n")] for a one-unit separator. *)
Fixpoint split (sep : N) (s : str) : list str :=
  match s with
  | [] => [[]]
  | c :: s' =>
      if (c =? sep)%N then [] :: split sep s'
      else match split sep s' with
           | l :: ls => (c :: l) :: ls
           | [] => [[c]]
           end
  end.

(** [s.slice(i, j)] for [0 <= i <= j]. *)
Definition slice (i j : nat) (s : str) : str := take (j - i) (drop i s).

Definition isHighSurrogate (c : N) : bool := ((55296 <=? c) && (c <=? 56319))%N.
Definition isLowSurrogate (c : N) : bool := ((56320 <=? c) && (c <=? 57343))%N.

(** The UTF-8 bytes of a string, as [Buffer.from(s)] produces them: a
    surrogate pair is one four-byte sequence, a lone surrogate becomes
    U+FFFD. *)
Definition utf8OfCodePoint (cp : N) : list N :=
  if (cp <? 128)%N then [cp]
  else if (cp <? 2048)%N then [192 + cp / 64; 128 + cp mod 64]%N
  else if (cp <? 65536)%N then
    [224 + cp / 4096; 128 + (cp / 64) mod 64; 128 + cp mod 64]%N
  else
    [240 + cp / 262144; 128 + (cp / 4096) mod 64;
     128 + (cp / 64) mod 64; 128 + cp mod 64]%N.

Fixpoint utf8Encode (s : str) : list N :=
  match s with
  | [] => []
  | c :: s' =>
      if isHighSurrogate c then
        match s' with
        | d :: s'' =>
            if isLowSurrogate d then
              utf8OfCodePoint (65536 + (c - 55296) * 1024 + (d - 56320))%N
              ++ utf8Encode s''
            else [239; 191; 189]%N ++ utf8Encode s'
        | [] => [239; 191; 189]%N
        end
      else if isLowSurrogate c then [239; 191; 189]%N ++ utf8Encode s'
      else utf8OfCodePoint c ++ utf8Encode s'
  end.

(** [Buffer.byteLength(s)]: the number of UTF-8 bytes, counted without
    building them. *)
Fixpoint byteLength (s : str) : Z :=
  match s with
  | [] => 0
  | c :: s' =>
      if (c <? 128)%N then 1 + byteLength s'
      else if (c <? 2048)%N then 2 + byteLength s'
      else if isHighSurrogate c then
        match s' with
        | d :: s'' =>
            if isLowSurrogate d then 4 + byteLength s'' else 3 + byteLength s'
        | [] => 3
        end
      else 3 + byteLength s'
  end.

Definition b64char (i : N) : N :=
  if (i <? 26)%N then (65 + i)%N
  else if (i <? 52)%N then (97 + (i - 26))%N
  else if (i <? 62)%N then (48 + (i - 52))%N
  else if (i =? 62)%N then 43%N else 47%N.

(** [buf.toString('base64')] *)
Fixpoint base64 (bs : list N) : str :=
  match bs with
  | [] => []
  | [a] => [b64char (a / 4); b64char ((a mod 4) * 16); 61; 61]%N
  | [a; b] =>
      [b64char (a / 4); b64char ((a mod 4) * 16 + b / 16);
       b64char ((b mod 16) * 4); 61]%N
  | a :: b :: c :: rest =>
      [b64char (a / 4); b64char ((a mod 4) * 16 + b / 16);
       b64char ((b mod 16) * 4 + c / 64); b64char (c mod 64)]%N
      ++ base64 rest
  end.

(** White space and line terminators: the class [\s] of regular
    expressions, which is also what [trim] strips. *)
Definition isSpaceUnit (c : N) : bool :=
  (((9 <=? c) && (c <=? 13)) || (c =? 32) || (c =? 160) || (c =? 5760) ||
   ((8192 <=? c) && (c <=? 8202)) || (c =? 8232) || (c =? 8233) ||
   (c =? 8239) || (c =? 8287) || (c =? 12288) || (c =? 65279))%N.

Fixpoint trimStart (s : str) : str :=
  match s with
  | c :: s' => if isSpaceUnit c then trimStart s' else s
  | [] => []
  end.

(** [s.trim()] *)
Definition trim (s : str) : str := rev (trimStart (rev (trimStart s))).

(** [s.indexOf(c)] for a one-unit needle: [-1] when it does not occur. *)
Fixpoint indexOf (c : N) (s : str) : Z :=
  match s with
  | [] => -1
  | x :: s' =>
      if (x =? c)%N then 0
      else let i := indexOf c s' in if i <? 0 then -1 else 1 + i
  end.

(** [s.slice(-n)] for [n > 0]: the last [n] code units. *)
Definition sliceLast (n : nat) (s : str) : str := drop (length s - n) s.

(** [s.replace(/c/g, by)] for a one-unit pattern and a replacement
    without [$]. *)
Definition replaceAll (c : N) (by_ : str) (s : str) : str :=
  flat_map (fun x => if (x =? c)%N then by_ else [x]) s.

(** [parts.join(sep)] *)
Fixpoint join (sep : str) (parts : list str) : str :=
  match parts with
  | [] => []
  | [p] => p
  | p :: rest => p ++ sep ++ join sep rest
  end.

(** [String.prototype.toUpperCase], on the ASCII range: the source
    tests the result for a leading [L] only, and no code unit outside
    ASCII has an upper-case form that begins with that letter. *)
Definition upperUnit (c : N) : N :=
  if ((97 <=? c) && (c <=? 122))%N then (c - 32)%N else c.
Definition toUpperCase (s : str) : str := map upperUnit s.

(** The order of [Array.prototype.sort] without a comparator: strings
    by their code units. *)
Fixpoint leb (a b : str) : bool :=
  match a, b with
  | [], _ => true
  | _ :: _, [] => false
  | x :: a', y :: b' => (x <? y)%N || ((x =? y)%N && leb a' b')
  end.

Fixpoint insertSorted (a : str) (l : list str) : list str :=
  match l with
  | [] => [a]
  | b :: l' => if leb a b then a :: l else b :: insertSorted a l'
  end.

(** [l.sort()] *)
Definition sort (l : list str) : list str := foldr insertSorted [] l.

End Js.

Arguments Js.lit s%_string.
Abbreviation js := Js.lit (only parsing).

(** ** Plain objects used as dictionaries *)

Module Obj.

(** An object is the list of its own properties in the order
    [Object.keys] and [Object.entries] enumerate them: array-index keys
    first, in ascending numeric order, then the other keys in insertion
    order. *)
Abbreviation t V := (list (Js.str * V)).

Definition isDigit (c : N) : bool := ((48 <=? c) && (c <=? 57))%N.
Definition decimalValue (k : Js.str) : N :=
  fold_left (fun acc c => (10 * acc + (c - 48))%N) k 0%N.

(** A key is an array index when it is the canonical decimal form of an
    integer below [2^32 - 1]. *)
Definition arrayIndex (k : Js.str) : option N :=
  match k with
  | [] => None
  | c :: rest =>
      if forallb isDigit k && (negb (c =? 48)%N || negb (Js.truthy rest)) then
        if (decimalValue k <? 4294967295)%N then Some (decimalValue k) else None
      else None
  end.

(** The names that every object inherits from [Object.prototype]. For
    one of them [o[k]] finds a value that is no property of [o] itself,
    and an assignment to [__proto__] stores no property. The operations
    below are those on the properties of the object itself: they are
    what [o[k]], [o[k] = v] and [delete o[k]] do for every other key. *)
Definition inherited : list Js.str :=
  [js "constructor"; js "__proto__"; js "hasOwnProperty"; js "isPrototypeOf";
   js "propertyIsEnumerable"; js "toLocaleString"; js "toString"; js "valueOf";
   js "__defineGetter__"; js "__defineSetter__"; js "__lookupGetter__";
   js "__lookupSetter__"].

(** A key that finds nothing but a property of the object itself. *)
Definition plain (k : Js.str) : Prop := k ∉ inherited.

Section Ops.
Context {V : Type}.

Fixpoint get (k : Js.str) (o : t V) : option V :=
  match o with
  | [] => None
  | (k', v) :: o' => if decide (k' = k) then Some v else get k o'
  end.

Definition has (k : Js.str) (o : t V) : bool :=
  match get k o with Some _ => true | None => false end.

Definition keys (o : t V) : list Js.str := map fst o.

Fixpoint update (k : Js.str) (v : V) (o : t V) : t V :=
  match o with
  | [] => []
  | (k', v') :: o' =>
      if decide (k' = k) then (k', v) :: o' else (k', v') :: update k v o'
  end.

Fixpoint insertIndex (i : N) (k : Js.str) (v : V) (o : t V) : t V :=
  match o with
  | [] => [(k, v)]
  | (k', v') :: o' =>
      match arrayIndex k' with
      | Some j =>
          if (i <? j)%N then (k, v) :: o else (k', v') :: insertIndex i k v o'
      | None => (k, v) :: o
      end
  end.

(** [o[k] = v] where the assignment stores a property of [o]: for
    every key but [__proto__], which [assign] below covers. *)
Definition set (k : Js.str) (v : V) (o : t V) : t V :=
  if has k o then update k v o
  else match arrayIndex k with
       | Some i => insertIndex i k v o
       | None => o ++ [(k, v)]
       end.

(** [delete o[k]] *)
Definition del (k : Js.str) (o : t V) : t V :=
  filter (fun kv => kv.1 ≠ k) o.

(** [!!o[k]] where the properties of [o] are objects or non-empty
    strings: a property of [o] itself or an inherited one. *)
Definition truthyAt (k : Js.str) (o : t V) : bool :=
  has k o || bool_decide (k ∈ inherited).

(** [o[k] = v] for any key and a value [v] that is no object: unless
    [o] has a property [__proto__] of its own, an assignment to that key
    goes to the inherited setter, which ignores such a value. *)
Definition assign (k : Js.str) (v : V) (o : t V) : t V :=
  if bool_decide (k = js "__proto__") && negb (has k o) then o else set k v o.

(** [{ ...a, ...b }] *)
Definition spread (a b : t V) : t V :=
  fold_left (fun o kv => set kv.1 kv.2 o) (a ++ b) [].
End Ops.

End Obj.

(** ** Retrying HTTP client *)

Module Http.

(** [err.response.data]: a string, a parsed JSON value, or nothing. *)
Inductive Body := BodyText (s : Js.str) | BodyObject | BodyNone.

Record Response := { status : Z; data : Body }.

(** The fields of a thrown error that the gateway reads. *)
Record Error := {
  response : option Response;
  code : option Js.str;
  isAxiosError : bool;
  message : Js.str
}.

Inductive Outcome := Ok (r : Response) | Fail (err : Error).

(** An axios request configuration. *)
Record Config := {
  url : option Js.str;
  method : option Js.str;
  headers : option (Obj.t Js.str);
  params : option (Obj.t Js.str);
  timeout : option Z;
  payload : Js.str
}.

(** The network: the outcome of the [n]-th call of [axios] with a given
    configuration. *)
Definition Net := Config -> nat -> Outcome.

(** [err?.response?.status] *)
Definition statusOf (err : Error) : option Z := status <$> response err.

Definition statusIs (err : Error) (n : Z) : bool :=
  bool_decide (statusOf err = Some n).
Definition codeIs (err : Error) (c : string) : bool :=
  bool_decide (code err = Some (js c)).

Definition shouldRetry (err : Error) : bool :=
  statusIs err 429 || statusIs err 500 || statusIs err 502 ||
  statusIs err 503 || statusIs err 504 ||
  codeIs err "ECONNRESET" || codeIs err "ETIMEDOUT" || codeIs err "ENOTFOUND" ||
  (isAxiosError err && negb (bool_decide (is_Some (response err)))).

Inductive Event := Request (attempt : nat) | Sleep (ms : Z).

Definition defaultTimeout (config : Config) : Z :=
  match url config with
  | Some u => if Js.includes u (js "/messages") then 90000 else 30000
  | None => 30000
  end.

(** [{ timeout: defaultTimeout, ...config }] *)
Definition baseConfig (config : Config) : Config :=
  {| url := url config; method := method config; headers := headers config;
     params := params config;
     timeout := Some (default (defaultTimeout config) (timeout config));
     payload := payload config |}.

(** The [while (attempt <= tries)] loop. [remaining] is [tries - attempt],
    so that [attempt >= tries] reads [remaining = 0]; [jitter n] is the
    value of [Math.floor(Math.random() * 200)] drawn after the [n]-th
    failure. The result carries the requests sent and the pauses taken. *)
Fixpoint retryLoop (axios : nat -> Outcome) (jitter : nat -> Z) (backoffMs : Z)
    (remaining attempt : nat) : Outcome * list Event :=
  match axios attempt with
  | Ok r => (Ok r, [Request attempt])
  | Fail err =>
      match remaining with
      | O => (Fail err, [Request attempt])
      | S remaining' =>
          if shouldRetry err then
            let '(out, evs) :=
              retryLoop axios jitter backoffMs remaining' (S attempt) in
            (out, Request attempt
                  :: Sleep (backoffMs * 2 ^ Z.of_nat attempt + jitter attempt)
                  :: evs)
          else (Fail err, [Request attempt])
      end
  end.

Definition axiosWithRetryN (net : Net) (jitter : nat -> Z) (config : Config)
    (tries : nat) (backoffMs : Z) : Outcome * list Event :=
  retryLoop (net (baseConfig config)) jitter backoffMs tries 0.

(** [axiosWithRetry(config)] with the default [tries = 2] and
    [backoffMs = 500]. *)
Definition axiosWithRetry (net : Net) (jitter : nat -> Z) (config : Config)
    : Outcome * list Event :=
  axiosWithRetryN net jitter config 2 500.

Definition isRequest (e : Event) : bool :=
  match e with Request _ => true | Sleep _ => false end.

(** The number of requests sent. *)
Definition requests (evs : list Event) : nat :=
  length (List.filter isRequest evs).

End Http.

(** ** The store *)

Inductive Compat := openai | gemini | claude.

#[global] Instance Compat_eq_dec : EqDecision Compat.
Proof. solve_decision. Defined.

Module Auth.

Inductive AuthMethod :=
  BEARER_TOKEN | API_KEY_HEADER | QUERY_PARAM | BASIC_AUTH | CUSTOM_HEADER.

#[global] Instance AuthMethod_eq_dec : EqDecision AuthMethod.
Proof. solve_decision. Defined.

Record AuthConfig := {
  method : AuthMethod;
  apiKey : Js.str;
  headerName : option Js.str;
  paramName : option Js.str;
  username : option Js.str;
  password : option Js.str
}.

(** [x || d] for an optional string [x]. *)
Definition orDefault (x : option Js.str) (d : Js.str) : Js.str :=
  match x with Some s => Js.or_else s d | None => d end.

Definition buildAuthHeaders (config : AuthConfig) : Obj.t Js.str :=
  match method config with
  | BEARER_TOKEN =>
      Obj.set (js "Authorization") (js "Bearer " ++ apiKey config) []
  | API_KEY_HEADER =>
      Obj.set (orDefault (headerName config) (js "X-API-Key")) (apiKey config) []
  | CUSTOM_HEADER =>
      match headerName config with
      | Some h => if Js.truthy h then Obj.set h (apiKey config) [] else []
      | None => []
      end
  | BASIC_AUTH =>
      let credentials :=
        Js.base64 (Js.utf8Encode
          (orDefault (username config) (apiKey config) ++ js ":" ++
           orDefault (password config) [])) in
      Obj.set (js "Authorization") (js "Basic " ++ credentials) []
  | QUERY_PARAM => []
  end.

Definition buildAuthParams (config : AuthConfig) : Obj.t Js.str :=
  if decide (method config = QUERY_PARAM) then
    Obj.set (orDefault (paramName config) (js "key")) (apiKey config) []
  else [].

Definition detectAuthMethod (baseUrl _apiKey : Js.str) : AuthMethod :=
  let url := Js.toLowerCase baseUrl in
  if Js.includes url (js "generativelanguage.googleapis.com") ||
     Js.includes url (js "aiplatform.googleapis.com") then QUERY_PARAM
  else if Js.includes url (js "anthropic.com") then API_KEY_HEADER
  else if Js.includes url (js "aip.baidubce.com") then QUERY_PARAM
  else BEARER_TOKEN.

End Auth.

Record Provider := {
  apiKey : Js.str;
  baseUrl : Js.str;
  compatauth : option Compat;
  authMethod : option Auth.AuthMethod;
  authConfig : option Auth.AuthConfig
}.

(** One authentication attempt: the headers and query parameters merged
    into a request. *)
Record Attempt := { headers : Obj.t Js.str; params : Obj.t Js.str }.

Definition buildAuthAttempts (p : Provider) (extraHeaders : Obj.t Js.str)
    : list Attempt :=
  match authConfig p with
  | Some cfg =>
      let authHeaders := Auth.buildAuthHeaders cfg in
      let authParams := Auth.buildAuthParams cfg in
      [ {| headers := Obj.spread authHeaders extraHeaders; params := authParams |} ]
  | None =>
      let detectedMethod := Auth.detectAuthMethod (baseUrl p) (apiKey p) in
      let cfg :=
        {| Auth.method := detectedMethod;
           Auth.apiKey := apiKey p;
           Auth.headerName :=
             if decide (detectedMethod = Auth.API_KEY_HEADER)
             then Some (js "x-api-key") else None;
           Auth.paramName :=
             if decide (detectedMethod = Auth.QUERY_PARAM)
             then Some (js "key") else None;
           Auth.username := None;
           Auth.password := None |} in
      let smartAuthHeaders := Auth.buildAuthHeaders cfg in
      let smartAuthParams := Auth.buildAuthParams cfg in
      [ {| headers := Obj.spread smartAuthHeaders extraHeaders;
           params := smartAuthParams |} ]
  end.

(** ** Output chunking *)

Module Chunk.

Definition MAX_MSG : Z := 4096.
Definition PAGE_EXTRA : Z := 48.
Definition WRAP_EXTRA_COLLAPSED : Z := 64.

Definition newline : N := 10%N.

(** [Math.max(1, MAX_MSG - Math.max(0, reserve))] *)
Definition limitOf (reserve : Z) : nat :=
  Z.to_nat (Z.max 1 (MAX_MSG - Z.max 0 reserve)).

(** [for (let i = 0; i < line.length; i += limit)
       parts.push(line.slice(i, i + limit))];
    every turn of the loop moves [i] forward, so [length line] turns
    are enough. *)
Fixpoint sliceLoop (fuel limit i : nat) (line : Js.str) : list Js.str :=
  match fuel with
  | O => []
  | S fuel' =>
      if (i <? length line)%nat
      then Js.slice i (i + limit) line :: sliceLoop fuel' limit (i + limit) line
      else []
  end.

Definition sliceLine (limit : nat) (line : Js.str) : list Js.str :=
  sliceLoop (length line) limit 0 line.

(** [if (cur) parts.push(cur)] *)
Definition flush (parts : list Js.str) (cur : Js.str) : list Js.str :=
  if Js.truthy cur then parts ++ [cur] else parts.

(** One turn of the loop over the lines, on the pair [(parts, cur)]. *)
Definition addLine (limit : nat) (st : list Js.str * Js.str) (line : Js.str)
    : list Js.str * Js.str :=
  let '(parts, cur) := st in
  if (limit <? length line)%nat then
    (flush parts cur ++ sliceLine limit line, [])
  else
    let next := if Js.truthy cur then cur ++ [newline] ++ line else line in
    if (limit <? length next)%nat then (parts ++ [cur], line)
    else (parts, next).

Definition splitMessage (text : Js.str) (reserve : Z) : list Js.str :=
  let limit := limitOf reserve in
  if (length text <=? limit)%nat then [text]
  else
    let '(parts, cur) :=
      fold_left (addLine limit) (Js.split newline text) ([], []) in
    flush parts cur.

(** Matching a lower-case ASCII pattern under the [i] flag. *)
Fixpoint startsWithCI (s pre : Js.str) : bool :=
  match pre, s with
  | [], _ => true
  | p :: pre', c :: s' => (Js.lowerUnit c =? p)%N && startsWithCI s' pre'
  | _ :: _, [] => false
  end.

Definition tagEnd (c : N) : bool :=
  (Js.isSpaceUnit c || (c =? 62) || (c =? 47))%N.

(** [<blockquote(?:\s|>|\/)\/?>] matched at the head of [s]. *)
Definition blockquoteClosedAt (s : Js.str) : bool :=
  startsWithCI s (js "<blockquote") &&
  match drop 11 s with
  | c :: rest =>
      tagEnd c && (Js.startsWith rest (js ">") || Js.startsWith rest (js "/>"))
  | [] => false
  end.

(** [<blockquote(?:\s|>|\/)] matched at the head of [s]. *)
Definition blockquoteAt (s : Js.str) : bool :=
  startsWithCI s (js "<blockquote") &&
  match drop 11 s with
  | c :: _ => tagEnd c
  | [] => false
  end.

Fixpoint test (re : Js.str -> bool) (s : Js.str) : bool :=
  re s || match s with [] => false | _ :: s' => test re s' end.

Definition quote : Js.str := [34%N].

Definition applyWrap (s : Js.str) (collapse : bool) : Js.str :=
  if negb collapse then s
  else if test blockquoteClosedAt s || test blockquoteAt s then s
  else js "<span class=" ++ quote ++ js "tg-spoiler" ++ quote ++ js ">"
       ++ s ++ js "</span>".

(** The page header of segment [i] (counted from 0) out of [total]; the
    page emoji U+1F4C4 is a surrogate pair. *)
Definition header (i total : nat) : Js.str :=
  [55357; 56516]%N ++ js " (" ++ Js.ofNat (i + 1) ++ js "/" ++ Js.ofNat total
  ++ js ")" ++ [newline; newline].

Definition buildChunks (text : Js.str) (collapse : bool) (postfix : option Js.str)
    : list Js.str :=
  let WRAP_EXTRA := if collapse then WRAP_EXTRA_COLLAPSED else 0 in
  let parts := splitMessage text (PAGE_EXTRA + WRAP_EXTRA) in
  let post := default [] postfix in
  match parts with
  | [] => []
  | [part] => [applyWrap part collapse ++ post]
  | _ =>
      let total := length parts in
      imap (fun i part =>
              let isLast := bool_decide (i = (total - 1)%nat) in
              let body := header i total ++ part in
              applyWrap body collapse ++ (if isLast then post else []))
           parts
  end.

End Chunk.

(** ** Persistent data *)

Module Catalog.
Record t := { map : Obj.t Compat; updatedAt : option Z }.
End Catalog.

Record Models := { chat : Js.str; search : Js.str; image : Js.str; tts : Js.str }.

Record Turn := { role : Js.str; content : Js.str }.

(** The fields of [Store.data] that the modelled operations read or
    write. [lastAt] in [histMeta] is kept as the instant it denotes, in
    milliseconds since the epoch: it is written by [toISOString] and read
    back by [Date.parse]. *)
Record DB := {
  dataVersion : option Z;
  providers : Obj.t Provider;
  modelCompat : option (Obj.t (Obj.t Compat));
  modelCatalog : option Catalog.t;
  models : Models;
  histories : Obj.t (list Turn);
  histMeta : option (Obj.t Z)
}.

Definition with_dataVersion (v : option Z) (d : DB) : DB :=
  {| dataVersion := v; providers := providers d; modelCompat := modelCompat d;
     modelCatalog := modelCatalog d; models := models d;
     histories := histories d; histMeta := histMeta d |}.
Definition with_providers (v : Obj.t Provider) (d : DB) : DB :=
  {| dataVersion := dataVersion d; providers := v; modelCompat := modelCompat d;
     modelCatalog := modelCatalog d; models := models d;
     histories := histories d; histMeta := histMeta d |}.
Definition with_modelCompat (v : option (Obj.t (Obj.t Compat))) (d : DB) : DB :=
  {| dataVersion := dataVersion d; providers := providers d; modelCompat := v;
     modelCatalog := modelCatalog d; models := models d;
     histories := histories d; histMeta := histMeta d |}.
Definition with_modelCatalog (v : option Catalog.t) (d : DB) : DB :=
  {| dataVersion := dataVersion d; providers := providers d;
     modelCompat := modelCompat d; modelCatalog := v; models := models d;
     histories := histories d; histMeta := histMeta d |}.
Definition with_models (v : Models) (d : DB) : DB :=
  {| dataVersion := dataVersion d; providers := providers d;
     modelCompat := modelCompat d; modelCatalog := modelCatalog d; models := v;
     histories := histories d; histMeta := histMeta d |}.
Definition with_histories (v : Obj.t (list Turn)) (d : DB) : DB :=
  {| dataVersion := dataVersion d; providers := providers d;
     modelCompat := modelCompat d; modelCatalog := modelCatalog d;
     models := models d; histories := v; histMeta := histMeta d |}.
Definition with_histMeta (v : option (Obj.t Z)) (d : DB) : DB :=
  {| dataVersion := dataVersion d; providers := providers d;
     modelCompat := modelCompat d; modelCatalog := modelCatalog d;
     models := models d; histories := histories d; histMeta := v |}.

(** The store as [Store.init] leaves it on a fresh installation. *)
Definition emptyDB : DB :=
  {| dataVersion := Some 3; providers := []; modelCompat := Some [];
     modelCatalog := Some {| Catalog.map := []; Catalog.updatedAt := None |};
     models := {| chat := []; search := []; image := []; tts := [] |};
     histories := []; histMeta := Some [] |}.

(** ** Compatibility resolution *)

Definition detectCompat (_name model _baseUrl : Js.str) : Compat :=
  let m := Js.toLowerCase model in
  if Js.testWord None m (js "claude") || Js.includes m (js "anthropic") then claude
  else if Js.testWord None m (js "gemini") || Js.startsWith m (js "gemini-")
          || Js.includes m (js "image-generation") then gemini
  else if Js.startsWith m (js "gpt-") || Js.includes m (js "gpt-4o")
          || Js.includes m (js "gpt-image") || Js.includes m (js "dall-e")
          || (Js.startsWith m (js "tts-1") && Js.boundaryAfter m (js "tts-1"))
       then openai
  else openai.

Definition catalogMap (d : DB) : Obj.t Compat :=
  match modelCatalog d with Some c => Catalog.map c | None => [] end.

(** [getCompatFromCatalog(model)], for a lower-cased model that is no
    inherited property name: the entry of the catalog map, if any. *)
Definition getCompatFromCatalog (d : DB) (model : Js.str) : option Compat :=
  let ml := Js.toLowerCase model in
  Obj.get ml (catalogMap d).

(** The result of [listModelsByAnyCompat]. *)
Record Listing := {
  listed : list Js.str;
  primaryCompat : option Compat;
  compats : list Compat;
  modelMap : Obj.t Compat
}.

(** The model-listing endpoints of the providers: [listModels p c] is
    the list [listModels(p, c)] resolves to, or [None] when it throws. *)
Definition Lister := Provider -> Compat -> option (list Js.str).

Definition noteModel (c : Compat) (acc : list (Js.str * Js.str) * Obj.t Compat)
    (m : Js.str) : list (Js.str * Js.str) * Obj.t Compat :=
  let '(merged, mp) := acc in
  let k := Js.toLowerCase m in
  if Js.truthy k then
    (if Obj.has k merged then merged else merged ++ [(k, m)],
     (* modelMap[k] === undefined *)
     if Obj.has k mp || bool_decide (k ∈ Obj.inherited) then mp else Obj.set k c mp)
  else acc.

Definition tryCompat (listModels : Lister) (p : Provider)
    (acc : option Compat * list Compat * (list (Js.str * Js.str) * Obj.t Compat))
    (c : Compat) :=
  let '(primary, cs, names) := acc in
  match listModels p c with
  | Some (m :: ms) =>
      (Some (default c primary),
       if bool_decide (c ∈ cs) then cs else cs ++ [c],
       fold_left (noteModel c) (m :: ms) names)
  | Some [] | None => acc
  end.

(** The correction pass: a name that matches the Claude or Gemini
    pattern is filed under that family. *)
Definition correctFamily (mp : Obj.t Compat) (k : Js.str) : Obj.t Compat :=
  let g := detectCompat [] k [] in
  if bool_decide (g = gemini ∨ g = claude) && negb (bool_decide (Obj.get k mp = Some g))
  then Obj.set k g mp else mp.

Definition listModelsByAnyCompat (listModels : Lister) (p : Provider) : Listing :=
  let '(primary, cs, (merged, mp)) :=
    fold_left (tryCompat listModels p) [openai; gemini; claude] (None, [], ([], [])) in
  let mp' := fold_left correctFamily (Obj.keys mp) mp in
  {| listed := List.map snd merged; primaryCompat := primary; compats := cs;
     modelMap := mp' |}.

(** An in-flight resolution: what the pending task of [resolveCompat]
    has captured. *)
Record Task := {
  taskName : Js.str;
  taskModel : Js.str;
  taskGuess : Compat;
  taskProvider : Provider
}.

Inductive Effect :=
  | WriteSoon              (* Store.writeSoon() *)
  | RefreshScheduled       (* setTimeout(() => refreshModelCatalog(false), 0) *)
  | RefreshRun (force : bool).  (* a catalog refresh that did its work *)

(** The module-level state of the gateway. *)
Record World := {
  data : DB;
  refreshing : bool;
  compatResolving : gmap Js.str Task;
  effects : list Effect
}.

Definition with_data (d : DB) (w : World) : World :=
  {| data := d; refreshing := refreshing w;
     compatResolving := compatResolving w; effects := effects w |}.
Definition with_refreshing (b : bool) (w : World) : World :=
  {| data := data w; refreshing := b;
     compatResolving := compatResolving w; effects := effects w |}.
Definition with_compatResolving (m : gmap Js.str Task) (w : World) : World :=
  {| data := data w; refreshing := refreshing w;
     compatResolving := m; effects := effects w |}.
Definition emit (e : Effect) (w : World) : World :=
  {| data := data w; refreshing := refreshing w;
     compatResolving := compatResolving w; effects := effects w ++ [e] |}.

Definition mergeListing (merged : Obj.t Compat) (l : Listing) : Obj.t Compat :=
  fold_left (fun mg kv => Obj.set kv.1 kv.2 mg) (modelMap l) merged.

(** The first half of a refresh: the listings of all providers, merged. *)
Definition collectCatalog (listModels : Lister) (ps : Obj.t Provider) : Obj.t Compat :=
  fold_left (fun merged np => mergeListing merged (listModelsByAnyCompat listModels np.2))
            ps [].

(** The second half: the merged map replaces the catalog. *)
Definition commitCatalog (merged : Obj.t Compat) (now : Z) (w : World) : World :=
  let d := with_modelCatalog
             (Some {| Catalog.map := merged; Catalog.updatedAt := Some now |})
             (data w) in
  with_refreshing false (emit WriteSoon (with_data d w)).

Definition refreshModelCatalog (listModels : Lister) (now : Z) (force : bool)
    (w : World) : World :=
  if negb force && refreshing w then w
  else
    let w1 := emit (RefreshRun force) (with_refreshing true w) in
    commitCatalog (collectCatalog listModels (providers (data w1))) now w1.

(** [Store.data.modelCompat[name][ml]], when both levels exist. *)
Definition overrideOf (d : DB) (name ml : Js.str) : option Compat :=
  match modelCompat d with
  | Some mc =>
      match Obj.get name mc with
      | Some forName => Obj.get ml forName
      | None => None
      end
  | None => None
  end.

Definition sep : Js.str := js "::".

(** How a call of [resolveCompat] proceeds up to its first suspension. *)
Inductive Resolution :=
  | Resolved (c : Compat)   (* answered from the override or the catalog *)
  | Joined (t : Task)       (* awaits a resolution already in flight *)
  | Probing (t : Task).     (* started a probe of its own *)

Definition resolveCompat_begin (name model : Js.str) (p : Provider) (w : World)
    : Resolution * World :=
  let ml := Js.toLowerCase model in
  match overrideOf (data w) name ml with
  | Some mc => (Resolved mc, w)
  | None =>
      match getCompatFromCatalog (data w) ml with
      | Some cat => (Resolved cat, w)
      | None =>
          let byName := detectCompat name model (baseUrl p) in
          let w1 := emit RefreshScheduled w in
          match compatResolving w1 !! (name ++ sep ++ ml) with
          | Some pending => (Joined pending, w1)
          | None =>
              match compatResolving w1 !! name with
              | Some pending => (Joined pending, w1)
              | None =>
                  let task := {| taskName := name; taskModel := ml;
                                 taskGuess := byName; taskProvider := p |} in
                  (Probing task,
                   with_compatResolving
                     (<[name ++ sep ++ ml := task]> (compatResolving w1)) w1)
              end
          end
      end
  end.

(** [if (!cur) modelCompat[name][k] = v] *)
Definition setIfAbsent (forName : Obj.t Compat) (kv : Js.str * Compat) : Obj.t Compat :=
  if Obj.has kv.1 forName then forName else Obj.set kv.1 kv.2 forName.

(** [if (catMap[k] !== v) catMap[k] = v] *)
Definition setIfDiffers (catMap : Obj.t Compat) (kv : Js.str * Compat) : Obj.t Compat :=
  if bool_decide (Obj.get kv.1 catMap = Some kv.2) then catMap
  else Obj.set kv.1 kv.2 catMap.

Definition with_compatauth (c : option Compat) (p : Provider) : Provider :=
  {| apiKey := apiKey p; baseUrl := baseUrl p; compatauth := c;
     authMethod := authMethod p; authConfig := authConfig p |}.

#[global] Instance AuthConfig_eq_dec : EqDecision Auth.AuthConfig.
Proof. solve_decision. Defined.
#[global] Instance Provider_eq_dec : EqDecision Provider.
Proof. solve_decision. Defined.

(** [p.compatauth = primary]: [p] is the object that was held under
    [name] when the call was made, and the assignment is seen in the
    store while that object is still the entry. The object is
    recognised here by its fields: this is the source's behaviour as
    long as the entry was neither updated in place nor replaced by an
    equal one since the call. *)
Definition notePrimary (name : Js.str) (p : Provider) (primary : option Compat)
    (ps : Obj.t Provider) : Obj.t Provider :=
  match primary, Obj.get name ps with
  | Some c, Some q =>
      if bool_decide (q = p) then Obj.set name (with_compatauth (Some c) q) ps else ps
  | _, _ => ps
  end.

Definition forget (t : Task) (w : World) : World :=
  with_compatResolving
    (delete (taskName t)
       (delete (taskName t ++ sep ++ taskModel t) (compatResolving w))) w.

(** The rest of the task of [resolveCompat] once [listModelsByAnyCompat]
    has resolved to [res], on the store as it is at that moment. *)
Definition resolveCompat_listed (res : Listing) (now : Z) (t : Task) (w : World)
    : Compat * World :=
  let name := taskName t in
  let ml := taskModel t in
  let d := data w in
  let mc := default [] (modelCompat d) in
  let forName := fold_left setIfAbsent (modelMap res) (default [] (Obj.get name mc)) in
  let comp :=
    match Obj.get ml forName with
    | Some c => c
    | None => default (taskGuess t) (primaryCompat res)
    end in
  let forName' := setIfAbsent forName (ml, comp) in
  let catMap := fold_left setIfDiffers (modelMap res) (catalogMap d) in
  let catMap' := setIfDiffers catMap (ml, comp) in
  let d' :=
    with_providers (notePrimary name (taskProvider t) (primaryCompat res) (providers d))
      (with_modelCatalog
         (Some {| Catalog.map := catMap'; Catalog.updatedAt := Some now |})
         (with_modelCompat (Some (Obj.set name forName' mc)) d)) in
  (comp, forget t (emit WriteSoon (with_data d' w))).

(** The [catch] branch of the task. *)
Definition resolveCompat_failed (t : Task) (w : World) : Compat * World :=
  let name := taskName t in
  let ml := taskModel t in
  let comp := taskGuess t in
  let d := data w in
  let mc := default [] (modelCompat d) in
  let forName := default [] (Obj.get name mc) in
  let w' :=
    if Obj.has ml forName
    then with_data (with_modelCompat (Some (Obj.set name forName mc)) d) w
    else emit WriteSoon
           (with_data (with_modelCompat
                         (Some (Obj.set name (Obj.set ml comp forName) mc)) d) w) in
  (comp, forget t (emit RefreshScheduled w')).

(** A whole call with nothing interleaved: the probe, or the resolution
    this call joined, completes at once. *)
Definition resolveCompat (listModels : Lister) (now : Z) (name model : Js.str)
    (p : Provider) (w : World) : Compat * World :=
  match resolveCompat_begin name model p w with
  | (Resolved c, w') => (c, w')
  | (Joined t, w') | (Probing t, w') =>
      resolveCompat_listed (listModelsByAnyCompat listModels (taskProvider t)) now t w'
  end.

(** The version-3 migration of [Store.init]: after a forced refresh,
    every stored entry that disagrees with the catalog is rewritten, and
    an [openai] entry unknown to the catalog follows the name pattern. *)
Definition migrateEntry (catMap : Obj.t Compat) (prov base : Js.str)
    (dict : Obj.t Compat) (kv : Js.str * Compat) : Obj.t Compat :=
  let k := Js.toLowerCase kv.1 in
  let cur := kv.2 in
  match Obj.get k catMap with
  | Some cat => if bool_decide (cat = cur) then dict else Obj.set k cat dict
  | None =>
      if bool_decide (cur = openai) then
        let inf := detectCompat prov k base in
        if bool_decide (inf = gemini ∨ inf = claude) then Obj.set k inf dict else dict
      else dict
  end.

Definition migrateProvider (catMap : Obj.t Compat) (ps : Obj.t Provider)
    (entry : Js.str * Obj.t Compat) : Js.str * Obj.t Compat :=
  let prov := entry.1 in
  let base := match Obj.get prov ps with Some p => baseUrl p | None => [] end in
  (prov, fold_left (migrateEntry catMap prov base) entry.2 entry.2).

Definition Store_init (listModels : Lister) (now : Z) (loaded : DB) : World :=
  let version := default 1 (dataVersion loaded) in
  let d0 :=
    with_histMeta (Some (default [] (histMeta loaded)))
      (with_modelCatalog
         (Some (default {| Catalog.map := []; Catalog.updatedAt := None |}
                        (modelCatalog loaded)))
         (with_modelCompat (Some (default [] (modelCompat loaded)))
            (with_dataVersion (Some (Z.max 2 version)) loaded))) in
  let w0 := {| data := d0; refreshing := false; compatResolving := ∅; effects := [] |} in
  let w1 :=
    if Z.max 2 version <? 3 then
      let w := refreshModelCatalog listModels now true w0 in
      let d := data w in
      let mc := default [] (modelCompat d) in
      let mc' := List.map (migrateProvider (catalogMap d) (providers d)) mc in
      with_data (with_dataVersion (Some 3) (with_modelCompat (Some mc') d)) w
    else w0 in
  emit WriteSoon w1.

(** ** Conversation history *)

Module History.

Definition HISTORY_GLOBAL_MAX_SESSIONS : nat := 200.
Definition HISTORY_GLOBAL_MAX_BYTES : Z := 2 * 1024 * 1024.
Definition MAX_ITEMS : nat := 50.
Definition MAX_BYTES : Z := 64 * 1024.

(** [Buffer.byteLength(`${x.role}:${x.content}`)] *)
Definition sizeOfItem (x : Turn) : Z :=
  Js.byteLength (role x ++ js ":" ++ content x).

Definition sizeOfHist (arr : list Turn) : Z :=
  fold_left (fun t x => t + sizeOfItem x) arr 0.

Definition histFor (d : DB) (id : Js.str) : list Turn :=
  default [] (Obj.get id (histories d)).

(** [Date.parse(meta[id]?.lastAt || "1970-01-01T00:00:00.000Z")] *)
Definition lastAtOf (meta : Obj.t Z) (id : Js.str) : Z :=
  default 0 (Obj.get id meta).

(** [ids.sort((a, b) => ta - tb)]: the sort of the language is stable;
    so is this insertion sort. *)
Fixpoint insertByTime (time : Js.str -> Z) (a : Js.str) (l : list Js.str)
    : list Js.str :=
  match l with
  | [] => [a]
  | b :: l' => if time a <=? time b then a :: l else b :: insertByTime time a l'
  end.

Definition sortByTime (time : Js.str -> Z) (ids : list Js.str) : list Js.str :=
  foldr (insertByTime time) [] ids.

Definition evict (victim : Js.str) (d : DB) : DB :=
  with_histMeta (Obj.del victim <$> histMeta d)
    (with_histories (Obj.del victim (histories d)) d).

(** [while ((sorted.length > MAX_SESSIONS || totalBytes > MAX_BYTES)
           && sorted.length)] *)
Fixpoint evictLoop (sorted : list Js.str) (totalBytes : Z) (d : DB) : DB :=
  match sorted with
  | [] => d
  | victim :: rest =>
      if (HISTORY_GLOBAL_MAX_SESSIONS <? length sorted)%nat
         || (HISTORY_GLOBAL_MAX_BYTES <? totalBytes)
      then evictLoop rest (totalBytes - sizeOfHist (histFor d victim)) (evict victim d)
      else d
  end.

(** The bytes held by a list of sessions, summed as the source does. *)
Definition bytesOf (d : DB) (ids : list Js.str) : Z :=
  fold_left (fun total id => total + sizeOfHist (histFor d id)) ids 0.

Definition pruneGlobalHistories (d : DB) : DB :=
  let ids := Obj.keys (histories d) in
  match ids with
  | [] => d
  | _ :: _ =>
      let meta := default [] (histMeta d) in
      let totalBytes := bytesOf d ids in
      if (length ids <=? HISTORY_GLOBAL_MAX_SESSIONS)%nat
         && (totalBytes <=? HISTORY_GLOBAL_MAX_BYTES)
      then d
      else evictLoop (sortByTime (lastAtOf meta) ids) totalBytes d
  end.

(** [while (h.length > MAX_ITEMS) h.shift()] *)
Fixpoint trimItems (h : list Turn) : list Turn :=
  match h with
  | [] => []
  | _ :: h' => if (MAX_ITEMS <? length h)%nat then trimItems h' else h
  end.

(** [while (total > MAX_BYTES && h.length > 1)
       { const first = h.shift(); total -= sizeOf(first); }] *)
Fixpoint trimBytes (total : Z) (h : list Turn) : list Turn :=
  match h with
  | first :: (_ :: _) as h' =>
      if MAX_BYTES <? total then trimBytes (total - sizeOfItem first) h' else h
  | _ => h
  end.

(** The body of [pushHist] before its call of [pruneGlobalHistories];
    [now] is the reading of the clock. *)
Definition appendTurn (id role content : Js.str) (now : Z) (d : DB) : DB :=
  let h := trimItems (histFor d id ++ [ {| role := role; content := content |} ]) in
  let h' := trimBytes (sizeOfHist h) h in
  with_histMeta (Some (Obj.set id now (default [] (histMeta d))))
    (with_histories (Obj.set id h' (histories d)) d).

Definition pushHist (id role content : Js.str) (now : Z) (d : DB) : DB :=
  pruneGlobalHistories (appendTurn id role content now d).

(** A sequence of appends to one session, each with its clock reading. *)
Definition pushAll (id : Js.str) (turns : list (Turn * Z)) (d : DB) : DB :=
  fold_left (fun d tn => pushHist id (role tn.1) (content tn.1) tn.2 d) turns d.

(** The bytes held by the whole store. *)
Definition totalBytes (d : DB) : Z := bytesOf d (Obj.keys (histories d)).

End History.

(** ** The Gemini adapter: API versions and authentication *)

Module Gemini.

(** [String(err?.response?.data || err?.message || "").toLowerCase()] *)
Definition errorText (err : Http.Error) : Js.str :=
  Js.toLowerCase
    match Http.response err with
    | Some r =>
        match Http.data r with
        | Http.BodyText s => Js.or_else s (Http.message err)
        | Http.BodyObject => js "[object Object]"
        | Http.BodyNone => Http.message err
        end
    | None => Http.message err
    end.

Definition isRouteError (err : Http.Error) : bool :=
  let txt := errorText err in
  Http.statusIs err 404 || Http.statusIs err 405 ||
  (Http.statusIs err 400 &&
   (Js.includes txt (js "unknown") || Js.includes txt (js "not found") ||
    Js.includes txt (js "invalid path") || Js.includes txt (js "no route"))).

Definition withAuth (cfg : Http.Config) (h p : Obj.t Js.str) : Http.Config :=
  {| Http.url := Http.url cfg; Http.method := Http.method cfg;
     Http.headers := Some h; Http.params := Some p;
     Http.timeout := Http.timeout cfg; Http.payload := Http.payload cfg |}.

(** [JSON.stringify({ h: c.headers || {}, p: c.params || {} })]: two
    signatures are the same string when the headers and the parameters
    are the same, key by key in order. *)
Definition sig (c : Http.Config) : Obj.t Js.str * Obj.t Js.str :=
  (default [] (Http.headers c), default [] (Http.params c)).

Fixpoint dedup (seen : list (Obj.t Js.str * Obj.t Js.str)) (cs : list Http.Config)
    : list Http.Config :=
  match cs with
  | [] => []
  | c :: cs' =>
      if bool_decide (sig c ∈ seen) then dedup seen cs'
      else c :: dedup (sig c :: seen) cs'
  end.

Definition mkConfigs (p : Provider) (axiosConfig : Http.Config) : list Http.Config :=
  let headersBase := Obj.spread (default [] (Http.headers axiosConfig)) [] in
  let paramsBase := Obj.spread (default [] (Http.params axiosConfig)) [] in
  let cfgKey := withAuth axiosConfig (Obj.spread headersBase [])
                  (Obj.set (js "key") (apiKey p) (Obj.spread paramsBase [])) in
  let cfgXGoog := withAuth axiosConfig
                    (Obj.set (js "x-goog-api-key") (apiKey p) (Obj.spread headersBase []))
                    (Obj.spread paramsBase []) in
  let cfgAuth := withAuth axiosConfig
                   (Obj.set (js "Authorization") (js "Bearer " ++ apiKey p)
                      (Obj.spread headersBase []))
                   (Obj.spread paramsBase []) in
  let ordered :=
    match compatauth p with
    | Some openai | Some claude => [cfgAuth; cfgXGoog; cfgKey]
    | Some gemini | None => [cfgKey; cfgXGoog; cfgAuth]
    end in
  dedup [] ordered.

(** [{ url: base + suffix, ...cfg }] *)
Definition withUrl (u : Js.str) (cfg : Http.Config) : Http.Config :=
  {| Http.url := Some (default u (Http.url cfg)); Http.method := Http.method cfg;
     Http.headers := Http.headers cfg; Http.params := Http.params cfg;
     Http.timeout := Http.timeout cfg; Http.payload := Http.payload cfg |}.

(** What the inner loop leaves: a response to return, or the last error
    seen so far; with the requests that were sent. *)
Fixpoint tryConfigs (net : Http.Net) (jitter : nat -> Z) (u : Js.str)
    (cfgs : list Http.Config) (lastErr : option Http.Error)
    : option Http.Response * option Http.Error * list Http.Config :=
  match cfgs with
  | [] => (None, lastErr, [])
  | cfg :: rest =>
      let req := withUrl u cfg in
      match (Http.axiosWithRetry net jitter req).1 with
      | Http.Ok r => (Some r, lastErr, [req])
      | Http.Fail err =>
          if isRouteError err then (None, Some err, [req])
          else
            let '(r, e, sent) := tryConfigs net jitter u rest (Some err) in
            (r, e, req :: sent)
      end
  end.

Inductive Result := Returned (r : Http.Response) | Thrown (lastErr : option Http.Error).

Fixpoint tryPaths (net : Http.Net) (jitter : nat -> Z) (base : Js.str)
    (paths : list Js.str) (cfgs : list Http.Config) (lastErr : option Http.Error)
    : Result * list Http.Config :=
  match paths with
  | [] => (Thrown lastErr, [])
  | suffix :: paths' =>
      match tryConfigs net jitter (base ++ suffix) cfgs lastErr with
      | (Some r, _, sent) => (Returned r, sent)
      | (None, e, sent) =>
          let '(res, sent') := tryPaths net jitter base paths' cfgs e in
          (res, sent ++ sent')
      end
  end.

Definition geminiRequestWithFallback (net : Http.Net) (jitter : nat -> Z)
    (p : Provider) (path : Js.str) (axiosConfig : Http.Config)
    : Result * list Http.Config :=
  let base := Js.trimBase (baseUrl p) in
  let configs := mkConfigs p axiosConfig in
  let paths := [js "/v1beta" ++ path; js "/v1" ++ path] in
  tryPaths net jitter base paths configs None.

(** The request the Gemini callers hand to [geminiRequestWithFallback]:
    [{ method: "POST", data, params: { key: p.apiKey } }]. *)
Definition generateContent (p : Provider) (payload : Js.str) : Http.Config :=
  {| Http.url := None; Http.method := Some (js "POST"); Http.headers := None;
     Http.params := Some (Obj.set (js "key") (apiKey p) []);
     Http.timeout := None; Http.payload := payload |}.

End Gemini.

(** ** Provider configuration commands *)

Module Config.

Inductive Reply :=
  | Done
  | MissingArguments
  | InvalidUrl
  | InvalidProtocol
  | UnknownProvider
  | UnknownField.

Section Commands.
(** [new URL(u).protocol], or [None] when the constructor throws. *)
Variable urlProtocol : Js.str -> option Js.str.
Variable listModels : Lister.
(** The reading of the clock when the refresh commits. *)
Variable now : Z.

Definition checkUrl (u : Js.str) : option Reply :=
  match urlProtocol u with
  | None => Some InvalidUrl
  | Some proto =>
      if Js.eqb proto (js "http:") || Js.eqb proto (js "https:") then None
      else Some InvalidProtocol
  end.

(** [if (Store.data.modelCompat) delete Store.data.modelCompat[name];
    compatResolving.delete(name);
    await Store.writeSoon();
    await refreshModelCatalog(true).catch(() => { })] *)
Definition invalidate (name : Js.str) (w : World) : World :=
  let d := with_modelCompat (Obj.del name <$> modelCompat (data w)) (data w) in
  let w1 := with_compatResolving (delete name (compatResolving w)) (with_data d w) in
  refreshModelCatalog listModels now true (emit WriteSoon w1).

(** [ai config add <name> <key> <baseUrl>] *)
Definition add (name key url : Js.str) (w : World) : Reply * World :=
  if negb (Js.truthy name && Js.truthy key && Js.truthy url) then (MissingArguments, w)
  else
    match checkUrl url with
    | Some failure => (failure, w)
    | None =>
        let p := {| apiKey := key; baseUrl := Js.trimBase (Js.trim url);
                    compatauth := None; authMethod := None; authConfig := None |} in
        let d := with_providers (Obj.set name p (providers (data w))) (data w) in
        (Done, invalidate name (with_data d w))
    end.

Definition with_apiKey (v : Js.str) (p : Provider) : Provider :=
  {| apiKey := v; baseUrl := baseUrl p; compatauth := None;
     authMethod := authMethod p; authConfig := authConfig p |}.
Definition with_baseUrl (v : Js.str) (p : Provider) : Provider :=
  {| apiKey := apiKey p; baseUrl := v; compatauth := None;
     authMethod := authMethod p; authConfig := authConfig p |}.

(** [ai config update <name> <apikey|baseurl> <value>]; [value] is the
    rest of the line, trimmed. *)
Definition update (name field value : Js.str) (w : World) : Reply * World :=
  if negb (Js.truthy name && Js.truthy field && Js.truthy value) then (MissingArguments, w)
  else
    match Obj.get name (providers (data w)) with
    | None => (UnknownProvider, w)
    | Some p =>
        let store q :=
          with_data (with_providers (Obj.set name q (providers (data w))) (data w)) w in
        if Js.eqb (Js.toLowerCase field) (js "apikey") then
          (Done, invalidate name (store (with_apiKey value p)))
        else if Js.eqb (Js.toLowerCase field) (js "baseurl") then
          match checkUrl value with
          | Some failure => (failure, w)
          | None =>
              (Done, invalidate name
                       (store (with_baseUrl (Js.trimBase (Js.trim value)) p)))
          end
        else (UnknownField, w)
    end.

(** [if (v && v.startsWith(target + " ")) Store.data.models[k] = ""] *)
Definition unselect (target v : Js.str) : Js.str :=
  if Js.truthy v && Js.startsWith v (target ++ js " ") then [] else v.

(** [ai config remove <name|all>] *)
Definition remove (arg : Js.str) (w : World) : Reply * World :=
  let target := Js.toLowerCase arg in
  if negb (Js.truthy target) then (MissingArguments, w)
  else if Js.eqb target (js "all") then
    let d :=
      with_modelCatalog (Some {| Catalog.map := []; Catalog.updatedAt := None |})
        (with_modelCompat (Some []) (with_providers [] (data w))) in
    (Done, refreshModelCatalog listModels now true
             (emit WriteSoon (with_compatResolving ∅ (with_data d w))))
  else if negb (Obj.truthyAt target (providers (data w))) then (UnknownProvider, w)
  else
    let m := models (data w) in
    let d :=
      with_models {| chat := unselect target (chat m);
                     search := unselect target (search m);
                     image := unselect target (image m);
                     tts := unselect target (tts m) |}
        (with_modelCompat (Obj.del target <$> modelCompat (data w))
           (with_providers (Obj.del target (providers (data w))) (data w))) in
    (Done, refreshModelCatalog listModels now true (emit WriteSoon (with_data d w))).
End Commands.

End Config.

(** ** Debounced persistence *)

Module Persist.

Definition writeSoonDelay : Z := 300.

Section Machine.
(** The document: the value of [Store.data] as serialised. *)
Context {Doc : Type}.

(** Where a started [atomicWriteJSON] stands. *)
Inductive Stage := WritingTmp | Renaming.

Record State := {
  clock : Z;
  memory : Doc;                         (* Store.data *)
  writeTimer : option nat;              (* Store._writeTimer *)
  timers : list (nat * Z);              (* armed timers: handle, due time *)
  nextHandle : nat;
  inflight : list (nat * (Doc * Stage)); (* writes begun: json, stage *)
  tmpFile : option Doc;                 (* config.json.tmp *)
  disk : option Doc;                    (* config.json *)
  writes : nat                          (* calls of atomicWriteJSON *)
}.

Definition disarm (h : nat) (ts : list (nat * Z)) : list (nat * Z) :=
  List.filter (fun t => negb (t.1 =? h)%nat) ts.

Definition dueOf (h : nat) (ts : list (nat * Z)) : option Z :=
  snd <$> List.find (fun t => (t.1 =? h)%nat) ts.

Definition stageOf (h : nat) (ws : list (nat * (Doc * Stage))) : option (Doc * Stage) :=
  snd <$> List.find (fun t => (t.1 =? h)%nat) ws.

Definition dropWrite (h : nat) (ws : list (nat * (Doc * Stage))) :=
  List.filter (fun t => negb (t.1 =? h)%nat) ws.

(** [Store.writeSoon()]: [clearTimeout] of the remembered handle, then
    a new timer. *)
Definition writeSoon (s : State) : State :=
  let armed :=
    match writeTimer s with
    | Some h => disarm h (timers s)
    | None => timers s
    end in
  let h := nextHandle s in
  {| clock := clock s; memory := memory s; writeTimer := Some h;
     timers := armed ++ [(h, clock s + writeSoonDelay)];
     nextHandle := S h; inflight := inflight s; tmpFile := tmpFile s;
     disk := disk s; writes := writes s |}.

Inductive Event :=
  | Mutate (t : Z) (doc : Doc)  (* a mutation followed by writeSoon() *)
  | Fire (t : Z) (h : nat)      (* the timer callback starts *)
  | Written (t : Z) (h : nat)   (* writeFile(tmp, json) completes *)
  | Renamed (t : Z) (h : nat).  (* rename(tmp, file) completes *)

Definition timeOf (e : Event) : Z :=
  match e with Mutate t _ | Fire t _ | Written t _ | Renamed t _ => t end.

(** One event of the loop; [None] when the event cannot happen in the
    state: time does not go back, a timer fires once it is due and
    still armed, an I/O completion answers a started operation. *)
Definition step (e : Event) (s : State) : option State :=
  if timeOf e <? clock s then None
  else
    match e with
    | Mutate t doc =>
        Some (writeSoon
                {| clock := t; memory := doc; writeTimer := writeTimer s;
                   timers := timers s; nextHandle := nextHandle s;
                   inflight := inflight s; tmpFile := tmpFile s;
                   disk := disk s; writes := writes s |})
    | Fire t h =>
        match dueOf h (timers s) with
        | Some due =>
            if due <=? t then
              Some {| clock := t; memory := memory s; writeTimer := writeTimer s;
                      timers := disarm h (timers s); nextHandle := nextHandle s;
                      inflight := inflight s ++ [(h, (memory s, WritingTmp))];
                      tmpFile := tmpFile s; disk := disk s;
                      writes := S (writes s) |}
            else None
        | None => None
        end
    | Written t h =>
        match stageOf h (inflight s) with
        | Some (json, WritingTmp) =>
            Some {| clock := t; memory := memory s; writeTimer := writeTimer s;
                    timers := timers s; nextHandle := nextHandle s;
                    inflight := dropWrite h (inflight s) ++ [(h, (json, Renaming))];
                    tmpFile := Some json; disk := disk s; writes := writes s |}
        | _ => None
        end
    | Renamed t h =>
        match stageOf h (inflight s) with
        | Some (_, Renaming) =>
            Some {| clock := t; memory := memory s;
                    writeTimer := None;   (* finally { this._writeTimer = null } *)
                    timers := timers s; nextHandle := nextHandle s;
                    inflight := dropWrite h (inflight s);
                    tmpFile := None;
                    disk := match tmpFile s with Some j => Some j | None => disk s end;
                    writes := writes s |}
        | _ => None
        end
    end.

Fixpoint run (evs : list Event) (s : State) : option State :=
  match evs with
  | [] => Some s
  | e :: evs' =>
      match step e s with
      | Some s' => run evs' s'
      | None => None
      end
  end.

(** Nothing pending: no timer armed, no write begun. *)
Definition idle (s : State) : Prop :=
  writeTimer s = None /\ timers s = [] /\ inflight s = [].

Definition start (doc : Doc) : State :=
  {| clock := 0; memory := doc; writeTimer := None; timers := [];
     nextHandle := 0; inflight := []; tmpFile := None; disk := Some doc;
     writes := 0 |}.

(** A burst: each mutation comes less than the delay after the one
    before. *)
Fixpoint burst (t0 : Z) (ms : list (Z * Doc)) : Prop :=
  match ms with
  | [] => True
  | (t, _) :: ms' => t0 <= t /\ t < t0 + writeSoonDelay /\ burst t ms'
  end.
End Machine.

Arguments State : clear implicits.
Arguments Event : clear implicits.

End Persist.

(** ** Text shown to the user *)

Module Text.
(** [html]: the five replacements, in the order of the source. *)
Definition html (t : Js.str) : Js.str :=
  Js.replaceAll 39 (js "&#39;")
    (Js.replaceAll 34 (js "&quot;")
       (Js.replaceAll 62 (js "&gt;")
          (Js.replaceAll 60 (js "&lt;")
             (Js.replaceAll 38 (js "&amp;") t)))).

(** The horizontal ellipsis U+2026. *)
Definition ellipsis : N := 8230%N.

Definition abbreviate (text : Js.str) : Js.str :=
  Js.slice 0 45 text ++ [ellipsis] ++ Js.sliceLast 10 text.

Section Url.
(** [new URL(u)]: its [hostname] and [pathname], or [None] when the
    constructor throws. *)
Variable parseUrl : Js.str -> option (Js.str * Js.str).

Definition shortenUrlForDisplay (u : Js.str) : Js.str :=
  match parseUrl u with
  | Some (host, pathname) =>
      let path :=
        if Js.truthy pathname && negb (Js.eqb pathname (js "/")) then pathname else [] in
      let text := host ++ path in
      let text := if (60 <? length text)%nat then abbreviate text else text in
      Js.or_else text u
  | None => if (60 <? length u)%nat then abbreviate u else u
  end.
End Url.

(** What [normalizeModelName] is given: an entry of a model list is a
    string or an object with some of the fields [id], [slug], [name]. *)
Inductive ModelRef :=
  | RefNone
  | RefString (s : Js.str)
  | RefObject (id slug name : option Js.str).

(** [String(x?.id || x?.slug || x?.name || x || "")] *)
Definition refText (x : ModelRef) : Js.str :=
  match x with
  | RefNone => []
  | RefString s => s
  | RefObject id slug name =>
      let field f := default [] f in
      if Js.truthy (field id) then field id
      else if Js.truthy (field slug) then field slug
      else if Js.truthy (field name) then field name
      else js "[object Object]"
  end.

(** [const q = s.indexOf(c); if (q >= 0) s = s.slice(0, q)] *)
Definition cutAt (c : N) (s : Js.str) : Js.str :=
  let q := Js.indexOf c s in
  if 0 <=? q then Js.slice 0 (Z.to_nat q) s else s.

Definition normalizeModelName (x : ModelRef) : Js.str :=
  let s := Js.trim (refText x) in
  let s := cutAt 63 s in
  let s := cutAt 35 s in
  let s :=
    if Js.includes s (js "/")
    then Js.or_else (default [] (last (Js.split 47 s))) s
    else s in
  Js.trim s.

End Text.

(** ** Numbers read from text *)

Module Num.
(** The longest run of decimal digits at the head of [s]. *)
Fixpoint takeDigits (s : Js.str) : Js.str :=
  match s with
  | c :: s' => if Obj.isDigit c then c :: takeDigits s' else []
  | [] => []
  end.

(** [parseInt(s, 10)]: leading white space, a sign, then the longest
    run of decimal digits; [None] stands for [NaN]. Up to [2^53] in
    magnitude the integer is the number of the language. Beyond, where
    the language rounds to a double, it is kept exact: the values that
    the callers accept lie far below [2^53] and rounding is monotone, so
    every range test comes out the same; what is stated of a value read
    is stated within [2^53]. *)
Definition parseInt (s : Js.str) : option Z :=
  let s := Js.trimStart s in
  let '(negative, rest) :=
    match s with
    | 45%N :: r => (true, r)
    | 43%N :: r => (false, r)
    | _ => (false, s)
    end in
  let digits := takeDigits rest in
  if Js.truthy digits
  then Some ((if negative then -1 else 1) * Z.of_N (Obj.decimalValue digits))
  else None.

End Num.

(** ** The digest of a chat: window and prompt *)

Module Cg.
(** What [parseTimeOrCount] returns: a number of messages, or a span in
    minutes. *)
Inductive Window := ByCount (value : Z) | ByTime (value : Z).

(** [/^\d+$/.test(s)] *)
Definition allDigits (s : Js.str) : bool := Js.truthy s && forallb Obj.isDigit s.

(** [s.match(/^(\d+)(h|m|d)$/i)]: the digits and the unit, lower-cased. *)
Definition timeMatch (s : Js.str) : option (Js.str * N) :=
  match last s with
  | Some u =>
      let digits := take (length s - 1) s in
      let unit := Js.lowerUnit u in
      if allDigits digits && ((unit =? 104) || (unit =? 109) || (unit =? 100))%N
      then Some (digits, unit) else None
  | None => None
  end.

(** A test on a number that may be [NaN] fails on [NaN]. *)
Definition holds (test : Z -> bool) (x : option Z) : bool :=
  match x with Some v => test v | None => false end.

Definition parseTimeOrCount (input : Js.str) : option Window :=
  let trimmed := Js.trim input in
  if allDigits trimmed then
    let count := Num.parseInt trimmed in
    if holds (fun c => (0 <? c) && (c <=? 10000)) count
    then ByCount <$> count else None
  else
    match timeMatch trimmed with
    | Some (digits, unit) =>
        let value := Num.parseInt digits in
        if holds (fun v => v <=? 0) value then None
        else
          let minutes :=
            if (unit =? 109)%N then value
            else if (unit =? 104)%N then (fun v => v * 60) <$> value
            else (fun v => v * 60 * 24) <$> value in
          if holds (fun m => (0 <? m) && (m <=? 7 * 24 * 60)) minutes
          then ByTime <$> minutes else None
    | None => None
    end.

Definition maxPromptLength : Z := 150000.

(** The loop that keeps the entries that fit: [totalLength] counts the
    prefix and every kept entry with its line feed. *)
Fixpoint fitHistory (totalLength : Z) (chatHistory : list Js.str) : list Js.str :=
  match chatHistory with
  | [] => []
  | entry :: rest =>
      if maxPromptLength <? totalLength + Z.of_nat (length entry) + 1 then []
      else entry :: fitHistory (totalLength + Z.of_nat (length entry) + 1) rest
  end.

(** The entries that go into the prompt, and their text. *)
Definition promptHistory (promptPrefix : Js.str) (chatHistory : list Js.str)
    : list Js.str * Js.str :=
  let historyText := Js.join [10%N] chatHistory in
  if maxPromptLength <? Z.of_nat (length promptPrefix) + Z.of_nat (length historyText)
  then
    let finalHistory := fitHistory (Z.of_nat (length promptPrefix)) chatHistory in
    (finalHistory, Js.join [10%N] finalHistory)
  else (chatHistory, historyText).

End Cg.

(** ** Model selection *)

Module Select.
(** [keyof Models] *)
Inductive Kind := ForChat | ForSearch | ForImage | ForTts.

#[global] Instance Kind_eq_dec : EqDecision Kind.
Proof. solve_decision. Defined.

Definition modelOf (kind : Kind) (m : Models) : Js.str :=
  match kind with
  | ForChat => chat m | ForSearch => search m | ForImage => image m | ForTts => tts m
  end.

Definition with_model (kind : Kind) (v : Js.str) (m : Models) : Models :=
  match kind with
  | ForChat => {| chat := v; search := search m; image := image m; tts := tts m |}
  | ForSearch => {| chat := chat m; search := v; image := image m; tts := tts m |}
  | ForImage => {| chat := chat m; search := search m; image := v; tts := tts m |}
  | ForTts => {| chat := chat m; search := search m; image := image m; tts := v |}
  end.

(** [pick(kind)]: the provider and the model of a stored selection
    [provider model]. *)
Definition pick (kind : Kind) (d : DB) : option (Js.str * Js.str) :=
  let s := modelOf kind (models d) in
  if negb (Js.truthy s) then None
  else
    let i := Js.indexOf 32 s in
    if i <=? 0 then None
    else Some (Js.slice 0 (Z.to_nat i) s, drop (Z.to_nat (i + 1)) s).

(** [validCompats.includes(lastArg)], with the family it names. *)
Definition compatNamed (arg : Js.str) : option Compat :=
  if Js.eqb arg (js "openai") then Some openai
  else if Js.eqb arg (js "gemini") then Some gemini
  else if Js.eqb arg (js "claude") then Some claude
  else None.

(** [ai model <kind> <provider> <model...> [compat]]; [allArgs] are the
    words after the kind. *)
Definition setModel (kind : Kind) (allArgs : list Js.str) (w : World)
    : Config.Reply * World :=
  let provider := default [] (head allArgs) in
  let specifiedCompat := last allArgs ≫= compatNamed in
  let modelArgs :=
    match specifiedCompat with
    | Some _ => take (length allArgs - 2) (drop 1 allArgs)
    | None => drop 1 allArgs
    end in
  let model := Js.trim (Js.join (js " ") modelArgs) in
  if negb (Js.truthy provider) || negb (Js.truthy model) then (Config.MissingArguments, w)
  else if negb (Obj.truthyAt provider (providers (data w))) then (Config.UnknownProvider, w)
  else
    let d := with_models (with_model kind (provider ++ js " " ++ model) (models (data w)))
               (data w) in
    let d :=
      match specifiedCompat with
      | Some c =>
          let mc := default [] (modelCompat d) in
          match Obj.get provider mc with
          | Some forProvider =>
              with_modelCompat
                (Some (Obj.set provider
                         (Obj.assign (Js.toLowerCase model) c forProvider) mc)) d
          | None =>
              if bool_decide (provider ∈ Obj.inherited) then
                (* modelCompat[provider] is the inherited value: the
                   assignment lands on that object, outside the store *)
                with_modelCompat (Some mc) d
              else
                with_modelCompat
                  (Some (Obj.set provider (Obj.assign (Js.toLowerCase model) c []) mc)) d
          end
      | None => d
      end in
    (Config.Done, emit WriteSoon (with_data d w)).

End Select.

(** ** POST with authentication attempts *)

Module Post.
(** What [tryPostJSON] resolves to or throws: the body of the first
    response, or the last error seen ([undefined] when there was no
    attempt). *)
Inductive Reply := Data (d : Http.Body) | Thrown (lastErr : option Http.Error).

(** [{ method: "POST", url, data: body, ...(a || {}) }] *)
Definition request (url body : Js.str) (a : Attempt) : Http.Config :=
  {| Http.url := Some url; Http.method := Some (js "POST");
     Http.headers := Some (headers a); Http.params := Some (params a);
     Http.timeout := None; Http.payload := body |}.

Fixpoint tryPostJSON_from (net : Http.Net) (jitter : nat -> Z) (url body : Js.str)
    (attempts : list Attempt) (lastErr : option Http.Error)
    : Reply * list Http.Event :=
  match attempts with
  | [] => (Thrown lastErr, [])
  | a :: rest =>
      match Http.axiosWithRetry net jitter (request url body a) with
      | (Http.Ok r, evs) => (Data (Http.data r), evs)
      | (Http.Fail err, evs) =>
          let '(reply, evs') := tryPostJSON_from net jitter url body rest (Some err) in
          (reply, evs ++ evs')
      end
  end.

Definition tryPostJSON (net : Http.Net) (jitter : nat -> Z) (url body : Js.str)
    (attempts : list Attempt) : Reply * list Http.Event :=
  tryPostJSON_from net jitter url body attempts None.

End Post.

(** ** Audio from Gemini: the WAV header *)

Module Wav.
(** [opts]: the sample format of the audio. *)
Record Opts := { numChannels : Z; sampleRate : Z; bitsPerSample : Z }.

Definition with_bitsPerSample (v : Z) (o : Opts) : Opts :=
  {| numChannels := numChannels o; sampleRate := sampleRate o; bitsPerSample := v |}.
Definition with_sampleRate (v : Z) (o : Opts) : Opts :=
  {| numChannels := numChannels o; sampleRate := v; bitsPerSample := bitsPerSample o |}.
Definition with_numChannels (v : Z) (o : Opts) : Opts :=
  {| numChannels := v; sampleRate := sampleRate o; bitsPerSample := bitsPerSample o |}.

(** [parseInt(v, 10)] for [v] possibly [undefined], which reads as the
    string [undefined]. *)
Definition parseIntOf (v : option Js.str) : option Z :=
  Num.parseInt (default (js "undefined") v).

(** One turn of the loop over the parameters of the media type. *)
Definition readParam (opts : Opts) (param : Js.str) : Opts :=
  let kv := List.map Js.trim (Js.split 61 param) in
  let k := default [] (kv !! 0%nat) in
  let v := kv !! 1%nat in
  let opts :=
    if Js.eqb k (js "rate") then
      match parseIntOf v with Some r => with_sampleRate r opts | None => opts end
    else opts in
  if Js.eqb k (js "channels") then
    match parseIntOf v with Some c => with_numChannels c opts | None => opts end
  else opts.

(** [parse(mt)]: the sample format read from a media type such as
    [audio/L16;codec=pcm;rate=24000]. *)
Definition parse (mt : Js.str) : Opts :=
  let pieces := List.map Js.trim (Js.split 59 mt) in
  let fileType := default [] (head pieces) in
  let params := tail pieces in
  let format := Js.split 47 fileType !! 1%nat in
  let opts := {| numChannels := 1; sampleRate := 24000; bitsPerSample := 16 |} in
  let opts :=
    match format with
    | Some f =>
        if Js.truthy f && Js.startsWith (Js.toUpperCase f) (js "L") then
          match Num.parseInt (drop 1 f) with
          | Some bits => with_bitsPerSample bits opts
          | None => opts
          end
        else opts
    | None => opts
    end in
  fold_left readParam params opts.

(** The bytes of an integer, least significant first. *)
Fixpoint le (width : nat) (v : Z) : list N :=
  match width with
  | O => []
  | S w => Z.to_N (v mod 256) :: le w (v / 256)
  end.

(** [b.writeUInt16LE(value)] and [b.writeUInt32LE(value)] for the
    value [num / den], which need not be whole: the call throws
    ([None]) when the value is negative or above the largest integer of
    the width, and stores the integer part otherwise. *)
Definition writeUIntLE (width : nat) (num den : Z) : option (list N) :=
  if (num <? 0) || (den * (256 ^ Z.of_nat width - 1) <? num) then None
  else Some (le width (num / den)).

(** [createHeader(len, o)]: the 44 bytes in the order of their offsets. *)
Definition createHeader (len : Z) (o : Opts) : option (list N) :=
  let byteRate := sampleRate o * numChannels o * bitsPerSample o in
  let blockAlign := numChannels o * bitsPerSample o in
  riffSize ← writeUIntLE 4 (36 + len) 1;
  fmtSize ← writeUIntLE 4 16 1;
  pcm ← writeUIntLE 2 1 1;
  channels ← writeUIntLE 2 (numChannels o) 1;
  rate ← writeUIntLE 4 (sampleRate o) 1;
  bytesPerSecond ← writeUIntLE 4 byteRate 8;
  align ← writeUIntLE 2 blockAlign 8;
  bits ← writeUIntLE 2 (bitsPerSample o) 1;
  dataSize ← writeUIntLE 4 len 1;
  Some (js "RIFF" ++ riffSize ++ js "WAVE" ++ js "fmt " ++ fmtSize ++ pcm ++ channels
        ++ rate ++ bytesPerSecond ++ align ++ bits ++ js "data" ++ dataSize).

Definition convertPcmL16ToWavIfNeeded (raw : list N) (mime : option Js.str)
    : list N * Js.str :=
  let outMime := Auth.orDefault mime (js "audio/ogg") in
  let lm := Js.toLowerCase outMime in
  if Js.includes lm (js "l16") && Js.includes lm (js "pcm") then
    match createHeader (Z.of_nat (length raw)) (parse outMime) with
    | Some header => (header ++ raw, js "audio/wav")
    | None => (raw, outMime)
    end
  else (raw, outMime).

End Wav.

(** ** The Anthropic version *)

Module Anthropic.
(** [20\d{2}-\d{2}-\d{2}\b] matched at the head of [s]. *)
Definition dateAt (s : Js.str) : bool :=
  match s with
  | a :: b :: c :: d :: e :: f :: g :: h :: i :: j :: rest =>
      ((a =? 50) && (b =? 48))%N && Obj.isDigit c && Obj.isDigit d && (e =? 45)%N
      && Obj.isDigit f && Obj.isDigit g && (h =? 45)%N && Obj.isDigit i && Obj.isDigit j
      && match rest with [] => true | k :: _ => negb (Js.isWordUnit k) end
  | _ => false
  end.

(** [txt.match(/\b20\d{2}-\d{2}-\d{2}\b/g)]: the matches from left to
    right; [prev] is the code unit before [s], and [skip] counts the
    units of a match still to be passed over. *)
Fixpoint dates (prev : option N) (skip : nat) (s : Js.str) : list Js.str :=
  match s with
  | [] => []
  | c :: s' =>
      match skip with
      | S k => dates (Some c) k s'
      | O =>
          if match prev with None => true | Some p => negb (Js.isWordUnit p) end
             && dateAt s
          then take 10 s :: dates (Some c) 9 s'
          else dates (Some c) 0 s'
      end
  end.

Definition defaultVersion : Js.str := js "2023-06-01".

Section Version.
Variables (net : Http.Net) (jitter : nat -> Z).
(** [JSON.stringify(err?.response?.data || err?.message || "")] *)
Variable errorJson : Http.Error -> Js.str.

Definition probe (p : Provider) : Http.Config :=
  {| Http.url := Some (Js.trimBase (baseUrl p) ++ js "/v1/models");
     Http.method := Some (js "GET");
     Http.headers := Some (Obj.set (js "x-api-key") (apiKey p) []);
     Http.params := None; Http.timeout := None; Http.payload := [] |}.

(** [getAnthropicVersion(p)] on the cache as it stands: the version, the
    cache afterwards and the calls of the retrying client. *)
Definition getAnthropicVersion (p : Provider) (cache : gmap Js.str Js.str)
    : Js.str * gmap Js.str Js.str * list Http.Config :=
  let key := Js.or_else (Js.trimBase (baseUrl p)) (js "anthropic") in
  let cached := default [] (cache !! key) in
  if Js.truthy cached then (cached, cache, [])
  else
    let ver :=
      match (Http.axiosWithRetry net jitter (probe p)).1 with
      | Http.Ok _ => defaultVersion
      | Http.Fail err =>
          let matches := dates None 0 (errorJson err) in
          match last (Js.sort matches) with
          | Some latest => latest
          | None => defaultVersion
          end
      end in
    (ver, <[key := ver]> cache, [probe p]).
End Version.

End Anthropic.

(** ** The statements of the specification, and sample inputs *)

Module Spec.

(** The retry predicate in the words of the specification: a transient
    HTTP status, a connection-level error, or an axios error without a
    response. *)
Definition retryable (err : Http.Error) : Prop :=
  (exists s, Http.statusOf err = Some s /\ s ∈ [429; 500; 502; 503; 504]) \/
  (exists c, Http.code err = Some c /\
             c ∈ [js "ECONNRESET"; js "ETIMEDOUT"; js "ENOTFOUND"]) \/
  (Http.isAxiosError err = true /\ Http.response err = None).

(** An error that carries an HTTP response and no connection-level code. *)
Definition httpError (s : Z) : Http.Error :=
  {| Http.response := Some {| Http.status := s; Http.data := Http.BodyNone |};
     Http.code := Some (js "ERR_BAD_REQUEST");
     Http.isAxiosError := true;
     Http.message := js "Request failed" |}.

Definition plainRequest : Http.Config :=
  {| Http.url := Some (js "https://api.acme.ai/v1/chat/completions");
     Http.method := Some (js "POST"); Http.headers := None; Http.params := None;
     Http.timeout := None; Http.payload := [] |}.

(** A provider registered by [ai config add]: neither an explicit
    [authConfig] nor a preferred family. *)
Definition acme : Provider :=
  {| apiKey := js "sk-1"; baseUrl := js "https://api.acme.ai";
     compatauth := None; authMethod := None; authConfig := None |}.

Definition bearerAttempt (p : Provider) : Attempt :=
  {| headers := [(js "Authorization", js "Bearer " ++ apiKey p)]; params := [] |}.
Definition headerAttempt (p : Provider) : Attempt :=
  {| headers := [(js "x-api-key", apiKey p)]; params := [] |}.
Definition queryAttempt (p : Provider) : Attempt :=
  {| headers := []; params := [(js "key", apiKey p)] |}.

(** The fallback list in the words of the specification: bearer, then
    the [x-api-key] header, then the [key] query parameter. *)
Definition fallbackAttempts (p : Provider) : list Attempt :=
  [bearerAttempt p; headerAttempt p; queryAttempt p].

(** The classification of a lower-cased base URL, vendor by vendor. *)
Definition isGoogle (url : Js.str) : bool :=
  Js.includes url (js "generativelanguage.googleapis.com") ||
  Js.includes url (js "aiplatform.googleapis.com").
Definition isAnthropic (url : Js.str) : bool := Js.includes url (js "anthropic.com").
Definition isBaidu (url : Js.str) : bool := Js.includes url (js "aip.baidubce.com").

(** [lines.join("\n")]: what [split] undoes. *)
Fixpoint joinLines (ls : list Js.str) : Js.str :=
  match ls with
  | [] => []
  | [l] => l
  | l :: ls' => l ++ [Chunk.newline] ++ joinLines ls'
  end.






(** A text just over the limit: 4096 letters, a line feed, one letter. *)
Definition longText : Js.str :=
  replicate 4096 97%N ++ [Chunk.newline] ++ js "b".

(** The code units other than the line feed. *)
Definition keptUnit (c : N) : Prop := c <> Chunk.newline.

(** The order in which sessions are given up: by the instant of their
    last write. *)
Definition earlier (time : Js.str -> Z) (a b : Js.str) : Prop := time a <= time b.

(** A session identifier, and contents of 64 KiB and of 2 MiB. *)
Definition chat42 : Js.str := js "chat:42".
Definition content64K : Js.str := replicate (Z.to_nat 65536) 97%N.
Definition content2M : Js.str := replicate (Z.to_nat 2097152) 97%N.

(** Sixty turns with contents of 1 KiB, each beginning with its own
    number, from alternating roles, written one millisecond apart. *)
Definition kibTurn (i : nat) : Turn * Z :=
  ({| role := if Nat.even i then js "user" else js "assistant";
      content := take 1024 (Js.ofNat i ++ replicate 1024 120%N) |},
   1000 + Z.of_nat i).
Definition sixtyTurns : list (Turn * Z) := List.map kibTurn (seq 0 60).

(** The fifty most recent of a sequence of turns, in their order. *)
Definition recent (turns : list Turn) : list Turn :=
  drop (length turns - History.MAX_ITEMS) turns.

(** A store whose only session holds the most recent of [turns]. *)
Definition soleSession (id : Js.str) (turns : list Turn) : Obj.t (list Turn) :=
  match turns with
  | [] => []
  | _ :: _ => [(id, recent turns)]
  end.

(** A turn of about one kibibyte: fifty of them fit the 64 KiB budget. *)
Definition small (x : Turn) : Prop := History.sizeOfItem x <= 1310.

(** A store with one session, written at instant 500. *)
Definition chat7 : Js.str := js "chat:7".
Definition oneSession : DB :=
  History.pushHist chat7 (js "user") (js "earlier") 500 emptyDB.

(** The steps by which detection touches the store: the start of a
    resolution, the two ways its task ends, a catalog refresh and the
    commit of a refresh that ran interleaved. *)
Inductive autoStep : World -> World -> Prop :=
  | step_begin name model p w :
      autoStep w (resolveCompat_begin name model p w).2
  | step_listed res now t w :
      autoStep w (resolveCompat_listed res now t w).2
  | step_failed t w :
      autoStep w (resolveCompat_failed t w).2
  | step_refresh listModels now force w :
      autoStep w (refreshModelCatalog listModels now force w)
  | step_commit merged now w :
      autoStep w (commitCatalog merged now w).

(** A configuration file of data version 2 with two stored entries for
    provider [acme], and a provider whose OpenAI-style listing names one
    of the two models. *)
Definition legacyDB : DB :=
  {| dataVersion := Some 2;
     providers := [(js "acme", acme)];
     modelCompat := Some [(js "acme", [(js "gemini-pro", openai); (js "my-model", claude)])];
     modelCatalog := None;
     models := {| chat := []; search := []; image := []; tts := [] |};
     histories := []; histMeta := None |}.
Definition acmeLister : Lister :=
  fun _ c => match c with openai => Some [js "my-model"] | _ => None end.

(** A running gateway with provider [acme] and nothing cached, and one
    where the model [gpt-4o-mini] of [acme] was set to [claude] by hand. *)
Definition acmeWorld : World :=
  {| data := with_providers [(js "acme", acme)] emptyDB;
     refreshing := false; compatResolving := ∅; effects := [] |}.
Definition pinnedWorld : World :=
  with_data (with_modelCompat (Some [(js "acme", [(js "gpt-4o-mini", claude)])])
               (data acmeWorld)) acmeWorld.

(** A provider whose Gemini-style listing alone answers. *)
Definition geminiLister : Lister :=
  fun _ c => match c with gemini => Some [js "foo-model"] | _ => None end.

(** A provider that cannot be reached. *)
Definition deadLister : Lister := fun _ _ => None.








Definition noJitter : nat -> Z := fun _ => 0.

(** A resolution in flight for a model of [acme], in a gateway that has
    a cached entry for another one. *)
Definition pendingTask : Task :=
  {| taskName := js "acme"; taskModel := js "gpt-4o"; taskGuess := openai;
     taskProvider := acme |}.
Definition busyWorld : World :=
  {| data := with_modelCompat (Some [(js "acme", [(js "gpt-4o-mini", openai)])])
               (with_providers [(js "acme", acme)] emptyDB);
     refreshing := false;
     compatResolving := {[ js "acme::gpt-4o" := pendingTask ]};
     effects := [] |}.
Definition httpsOnly : Js.str -> option Js.str := fun _ => Some (js "https:").

(** A schedule of the event loop, the document being a version number.
    A first mutation is written after its delay; while that write is
    under way a burst of two mutations, 90 ms apart, begins. *)
Definition raceSchedule : list (Persist.Event Z) :=
  [ Persist.Mutate 0 1;      (* a mutation, alone *)
    Persist.Fire 300 0;      (* its timer fires: the write of version 1 starts *)
    Persist.Mutate 310 2;    (* the burst begins; timer 1 armed for 610 *)
    Persist.Written 312 0;
    Persist.Renamed 315 0;   (* the first write ends and resets _writeTimer *)
    Persist.Mutate 400 3;    (* within the delay; timer 2 armed for 700 *)
    Persist.Fire 610 1;      (* timer 1 was not cancelled *)
    Persist.Written 612 1;
    Persist.Renamed 615 1;
    Persist.Fire 700 2;
    Persist.Written 702 2;
    Persist.Renamed 705 2 ].

(** One timer armed by the last mutation, nothing being written. *)
Definition armed {Doc} (s : Persist.State Doc) : Prop :=
  Persist.inflight s = [] /\
  exists h, Persist.writeTimer s = Some h /\
            Persist.timers s = [(h, Persist.clock s + Persist.writeSoonDelay)].

(** Notions for the properties of the helpers and the commands. *)

(** The entity that stands for one code unit in escaped text. *)
Definition entity (c : N) : Js.str :=
  if (c =? 38)%N then js "&amp;"
  else if (c =? 60)%N then js "&lt;"
  else if (c =? 62)%N then js "&gt;"
  else if (c =? 34)%N then js "&quot;"
  else if (c =? 39)%N then js "&#39;"
  else [c].

(** The code units that open or close markup or an attribute value. *)
Definition markup (c : N) : Prop := c = 60%N \/ c = 62%N \/ c = 34%N \/ c = 39%N.

(** Nothing for [trim] to strip at either end. *)
Definition trimmed (s : Js.str) : Prop := Js.trim s = s.

(** Reading a string of decimal digits, most significant first. *)
Definition valueOf (ds : Js.str) (a : N) : N :=
  fold_left (fun acc c => (10 * acc + (c - 48))%N) ds a.

(** No white space in a word of a command line. *)
Definition word (s : Js.str) : Prop := Forall (fun c => Js.isSpaceUnit c = false) s.

(** The minutes one unit letter of a time window stands for. *)
Definition unitMinutes (u : N) : option Z :=
  if ((u =? 109) || (u =? 77))%N then Some 1
  else if ((u =? 104) || (u =? 72))%N then Some 60
  else if ((u =? 100) || (u =? 68))%N then Some 1440
  else None.

(** What the loop of the digest counts for the kept entries: each with
    its line feed. *)
Definition counted (entries : list Js.str) : Z :=
  fold_right (fun e t => Z.of_nat (length e) + 1 + t) 0 entries.

(** The time spent in the pauses of a run. *)
Definition slept (evs : list Http.Event) : Z :=
  fold_right (fun e t => match e with Http.Sleep ms => ms + t | Http.Request _ => t end)
             0 evs.

(** The HTTP requests behind a list of calls of the retrying client. *)
Definition httpRequests (net : Http.Net) (jitter : nat -> Z) (calls : list Http.Config)
    : nat :=
  fold_right (fun req n => (Http.requests (Http.axiosWithRetry net jitter req).2 + n)%nat)
             0%nat calls.

(** A name that the pattern of [detectCompat] gives to Claude or to
    Gemini. *)
Definition branded (k : Js.str) : option Compat :=
  match detectCompat [] k [] with
  | openai => None
  | g => Some g
  end.

(** What the migration of old files makes of the entry [cur] stored
    for the model key [k]: the catalog's family when the catalog knows
    the model; else, for an [openai] entry, the family the name pattern
    gives when that is Claude or Gemini; else the entry as it was. *)
Definition migrated (catMap : Obj.t Compat) (k : Js.str) (cur : Compat) : Compat :=
  match Obj.get k catMap with
  | Some cat => cat
  | None =>
      match cur, branded k with
      | openai, Some g => g
      | _, _ => cur
      end
  end.

(** A key as the program writes it: in ASCII and in lower case. *)
Definition lowerKey (k : Js.str) : Prop := Js.ascii k /\ Js.toLowerCase k = k.

(** A listing that answered with at least one model. *)
Definition answered (listModels : Lister) (p : Provider) (c : Compat) : bool :=
  match listModels p c with Some (_ :: _) => true | _ => false end.

(** Every stored session has its last-write time on record. *)
Definition dated (d : DB) : Prop :=
  forall s, s ∈ Obj.keys (histories d) -> Obj.has s (default [] (histMeta d)) = true.

(** Reading an unsigned integer stored least significant byte first. *)
Definition readLE (bs : list N) : Z :=
  fold_right (fun b acc => Z.of_N b + 256 * acc) 0 bs.

(** The bytes from offset [i] up to offset [j]. *)
Definition field (i j : nat) (h : list N) : list N := take (j - i) (drop i h).

(** A canonical WAV header for [len] bytes of PCM samples in the format
    [o]; the byte rate and the block alignment are whole numbers of
    bytes, rounded down. *)
Definition wavHeader (h : list N) (len : Z) (o : Wav.Opts) : Prop :=
  length h = 44%nat /\
  field 0 4 h = js "RIFF" /\ readLE (field 4 8 h) = 36 + len /\
  field 8 16 h = js "WAVEfmt " /\ readLE (field 16 20 h) = 16 /\
  readLE (field 20 22 h) = 1 /\
  readLE (field 22 24 h) = Wav.numChannels o /\
  readLE (field 24 28 h) = Wav.sampleRate o /\
  readLE (field 28 32 h) = Wav.sampleRate o * Wav.numChannels o * Wav.bitsPerSample o / 8 /\
  readLE (field 32 34 h) = Wav.numChannels o * Wav.bitsPerSample o / 8 /\
  readLE (field 34 36 h) = Wav.bitsPerSample o /\
  field 36 40 h = js "data" /\ readLE (field 40 44 h) = len.

(** Every field of the header fits the width it is written with. *)
Definition representable (len : Z) (o : Wav.Opts) : Prop :=
  0 <= len <= 4294967295 - 36 /\
  0 <= Wav.numChannels o <= 65535 /\
  0 <= Wav.sampleRate o <= 4294967295 /\
  0 <= Wav.sampleRate o * Wav.numChannels o * Wav.bitsPerSample o <= 8 * 4294967295 /\
  0 <= Wav.numChannels o * Wav.bitsPerSample o <= 8 * 65535 /\
  0 <= Wav.bitsPerSample o <= 65535.

(** A media type that names 16-bit linear PCM. *)
Definition namesPcm (mime : Js.str) : bool :=
  Js.includes (Js.toLowerCase mime) (js "l16") && Js.includes (Js.toLowerCase mime) (js "pcm").

(** The dates in the text of an error. *)
Definition datesIn (txt : Js.str) : list Js.str := Anthropic.dates None 0 txt.

(** Sample inputs for them. *)

(** The words of [ai model chat acme gpt-4o gemini] after the kind. *)
Definition chooseGemini : list Js.str := [js "acme"; js "gpt-4o"; js "gemini"].

(** A gateway with a second provider, selected for chat, and one with
    a second provider stored under a capitalised name. *)
Definition sharedWorld : World :=
  with_data
    (with_models {| chat := js "other gpt-4o"; search := []; image := []; tts := [] |}
       (with_providers [(js "acme", acme); (js "other", acme)]
          (data acmeWorld)))
    acmeWorld.
Definition mixedWorld : World :=
  with_data (with_providers [(js "acme", acme); (js "Acme", acme)]
               (data acmeWorld)) acmeWorld.

(** A provider whose OpenAI-style listing names a Claude model. *)
Definition resellerLister : Lister :=
  fun _ c => match c with
             | openai => Some [js "claude-3-opus"; js "gpt-4o"]
             | _ => None
             end.

(** A network that answers 503 to everything. *)
Definition overloadedNet : Http.Net := fun _ _ => Http.Fail (httpError 503).

(** A jitter of 7 ms at every draw. *)
Definition steadyJitter : nat -> Z := fun _ => 7.

(** An endpoint that rejects the probe, with an error whose text names
    two versions. *)
Definition rejectingNet : Http.Net := fun _ _ => Http.Fail (httpError 400).
Definition versionsText : Http.Error -> Js.str :=
  fun _ => js "supported versions: 2023-06-01, 2023-01-01".

(** The two later mutations of a burst of three that begins at 10 ms. *)
Definition threeEdits : list (Z * Z) := [(100, 2); (250, 3)].

End Spec.

(** * Properties *)

(** A closed decidable statement, by evaluation. *)
Ltac decided := eapply bool_decide_unpack; vm_compute; exact I.

(** ** Retrying HTTP client *)

Section RetryFacts.
Import Http.
Variables (axios : nat -> Outcome) (jitter : nat -> Z) (backoffMs : Z).

Lemma retryLoop_requests remaining attempt :
  (requests (retryLoop axios jitter backoffMs remaining attempt).2 <= S remaining)%nat.
Proof.
  revert attempt. induction remaining as [|k IH]; intros a; simpl.
  - destruct (axios a); simpl; unfold requests; simpl; lia.
  - destruct (axios a) as [r|err]; [unfold requests; simpl; lia|].
    destruct (shouldRetry err); [|unfold requests; simpl; lia].
    specialize (IH (S a)).
    destruct (retryLoop axios jitter backoffMs k (S a)) as [out evs].
    unfold requests in *. simpl in *. lia.
Qed.

(** Which attempts are made: attempt [n] is sent exactly when it is
    within the budget and every earlier attempt failed with an error
    the classifier accepts. *)
Lemma retryLoop_attempts remaining attempt n :
  Request n ∈ (retryLoop axios jitter backoffMs remaining attempt).2 <->
  (attempt <= n <= attempt + remaining)%nat /\
  forall i, (attempt <= i < n)%nat ->
            exists err, axios i = Fail err /\ shouldRetry err = true.
Proof.
  revert attempt. induction remaining as [|k IH]; intros a; simpl.
  - assert (Hone : (retryLoop axios jitter backoffMs 0 a).2 = [Request a]).
    { simpl. by destruct (axios a). }
    simpl in Hone. rewrite Hone. rewrite list_elem_of_singleton. split.
    + intros [= ->]. split; [lia|]. intros i Hi. lia.
    + intros [Hn _]. f_equal. lia.
  - destruct (axios a) as [r|err] eqn:Ha.
    + simpl. rewrite list_elem_of_singleton. split.
      * intros [= ->]. split; [lia|]. intros i Hi. lia.
      * intros [Hn Hall]. f_equal.
        destruct (decide (n = a)) as [->|Hne]; [done|].
        destruct (Hall a) as (e & He & _); [lia|]. congruence.
    + destruct (shouldRetry err) eqn:Hretry.
      * specialize (IH (S a)).
        destruct (retryLoop axios jitter backoffMs k (S a)) as [out evs].
        simpl in *. rewrite !elem_of_cons, IH. split.
        -- intros [[= ->]|[Hbad|[Hn Hall]]]; [|done|].
           ++ split; [lia|]. intros i Hi. lia.
           ++ split; [lia|]. intros i Hi.
              destruct (decide (i = a)) as [->|Hne]; [eauto|]. apply Hall. lia.
        -- intros [Hn Hall].
           destruct (decide (n = a)) as [->|Hne]; [by left|].
           right; right. split; [lia|]. intros i Hi. apply Hall. lia.
      * simpl. rewrite list_elem_of_singleton. split.
        -- intros [= ->]. split; [lia|]. intros i Hi. lia.
        -- intros [Hn Hall]. f_equal.
           destruct (decide (n = a)) as [->|Hne]; [done|].
           destruct (Hall a) as (e & He & Hr); [lia|]. congruence.
Qed.
End RetryFacts.

Lemma shouldRetry_retryable err :
  Http.shouldRetry err = true <-> Spec.retryable err.
Proof.
  unfold Http.shouldRetry, Spec.retryable, Http.statusIs, Http.codeIs.
  rewrite !orb_true_iff, andb_true_iff, negb_true_iff,
    !bool_decide_eq_true, bool_decide_eq_false.
  split.
  - intros [[[[[[[[H|H]|H]|H]|H]|H]|H]|H]|[Hax Hresp]].
    1-5: left; eexists; split; [exact H|set_solver].
    1-3: right; left; eexists; split; [exact H|set_solver].
    right; right. split; [done|].
    destruct (Http.response err); [|done]. exfalso. apply Hresp. eauto.
  - intros [(s & Hs & Hin)|[(c & Hc & Hin)|[Hax Hresp]]].
    + rewrite Hs. repeat (apply elem_of_cons in Hin as [->|Hin]); [tauto..|].
      by apply elem_of_nil in Hin.
    + rewrite Hc. repeat (apply elem_of_cons in Hin as [->|Hin]); [tauto..|].
      by apply elem_of_nil in Hin.
    + right. split; [done|]. rewrite Hresp. by intros [? ?].
Qed.

(** C3. [axiosWithRetry] with its defaults sends at most three requests;
    attempt [n] is sent exactly when it is within the budget of two
    retries and every earlier attempt failed with a retryable error
    (status 429, 500, 502, 503 or 504, a connection-level code, or an
    axios error without a response); and a first failure whose status is
    400, 401 or 404, with no connection-level code, is thrown at once
    after a single request. *)
Theorem axiosWithRetry_budget_and_classifier
    (net : Http.Net) (jitter : nat -> Z) (config : Http.Config)
    (err : Http.Error) (s : Z) :
  net (Http.baseConfig config) 0%nat = Http.Fail err ->
  Http.statusOf err = Some s ->
  s ∈ [400; 401; 404] ->
  Http.code err ∉ [Some (js "ECONNRESET"); Some (js "ETIMEDOUT"); Some (js "ENOTFOUND")] ->
  (forall net' jitter' config',
     (Http.requests (Http.axiosWithRetry net' jitter' config').2 <= 3)%nat /\
     forall n,
       Http.Request n ∈ (Http.axiosWithRetry net' jitter' config').2 <->
       (n <= 2)%nat /\
       forall i, (i < n)%nat ->
         exists e, net' (Http.baseConfig config') i = Http.Fail e /\ Spec.retryable e) /\
  ~ Spec.retryable err /\
  Http.axiosWithRetry net jitter config = (Http.Fail err, [Http.Request 0]).
Proof.
  intros Hfail Hs Hin Hcode.
  assert (Hnot : ~ Spec.retryable err).
  { intros [(s' & Hs' & Hin')|[(c & Hc & Hin')|[_ Hresp]]].
    - rewrite Hs in Hs'. injection Hs' as <-.
      rewrite !elem_of_cons in Hin. rewrite !elem_of_cons in Hin'.
      rewrite elem_of_nil in Hin. rewrite elem_of_nil in Hin'. lia.
    - apply Hcode. rewrite Hc.
      rewrite !elem_of_cons, elem_of_nil in Hin'. rewrite !elem_of_cons.
      intuition congruence.
    - unfold Http.statusOf in Hs. rewrite Hresp in Hs. discriminate. }
  split; [|split; [exact Hnot|]].
  - intros net' jitter' config'. split.
    + apply retryLoop_requests.
    + intros n. unfold Http.axiosWithRetry, Http.axiosWithRetryN.
      rewrite retryLoop_attempts. split.
      * intros [Hn Hall]. split; [lia|]. intros i Hi.
        destruct (Hall i) as (e & He & Hr); [lia|].
        exists e. split; [done|]. by apply shouldRetry_retryable.
      * intros [Hn Hall]. split; [lia|]. intros i Hi.
        destruct (Hall i) as (e & He & Hr); [lia|].
        exists e. split; [done|]. by apply shouldRetry_retryable.
  - unfold Http.axiosWithRetry, Http.axiosWithRetryN. simpl. rewrite Hfail.
    destruct (Http.shouldRetry err) eqn:Hretry; [|done].
    exfalso. apply Hnot. by apply shouldRetry_retryable.
Qed.

Lemma axiosWithRetry_budget_and_classifier_witness :
  Http.axiosWithRetry (fun _ _ => Http.Fail (Spec.httpError 401)) (fun _ => 0)
    Spec.plainRequest
  = (Http.Fail (Spec.httpError 401), [Http.Request 0]).
Proof.
  apply (axiosWithRetry_budget_and_classifier
           (fun _ _ => Http.Fail (Spec.httpError 401)) (fun _ => 0)
           Spec.plainRequest (Spec.httpError 401) 401).
  - reflexivity.
  - reflexivity.
  - rewrite !elem_of_cons. tauto.
  - vm_compute. intros H. repeat (apply elem_of_cons in H as [H|H]; [discriminate H|]).
    by apply elem_of_nil in H.
Defined.

(** ** Authentication attempts *)

Lemma lowerOf_fixed c : flat_map Js.lowerOf (Js.lowerOf c) = Js.lowerOf c.
Proof.
  unfold Js.lowerOf.
  destruct (N.eqb_spec c 304) as [->|H304]; [reflexivity|].
  destruct (N.eqb_spec c 8490) as [->|H8490]; [reflexivity|].
  cbn [flat_map]. rewrite app_nil_r. unfold Js.lowerOf, Js.lowerUnit.
  destruct ((65 <=? c)%N && (c <=? 90)%N) eqn:Hc.
  - apply andb_true_iff in Hc as [H1 H2].
    apply N.leb_le in H1. apply N.leb_le in H2.
    destruct (N.eqb_spec (c + 32) 304); [lia|].
    destruct (N.eqb_spec (c + 32) 8490); [lia|].
    replace ((65 <=? c + 32)%N && (c + 32 <=? 90)%N) with false; [done|].
    symmetry. apply andb_false_iff. right. apply N.leb_gt. lia.
  - destruct (N.eqb_spec c 304); [done|]. destruct (N.eqb_spec c 8490); [done|].
    by rewrite Hc.
Qed.

Lemma toLowerCase_app a b :
  Js.toLowerCase (a ++ b) = Js.toLowerCase a ++ Js.toLowerCase b.
Proof. apply flat_map_app. Qed.

Lemma toLowerCase_idempotent s : Js.toLowerCase (Js.toLowerCase s) = Js.toLowerCase s.
Proof.
  induction s as [|c s IH]; [done|].
  change (Js.toLowerCase (c :: s)) with (Js.lowerOf c ++ Js.toLowerCase s).
  rewrite toLowerCase_app, IH. f_equal. apply lowerOf_fixed.
Qed.

(** C7, counterexample. For a provider without an explicit
    [authConfig] and without a preferred family the source does not
    produce the bearer / [x-api-key] / [key] list: it produces the single
    attempt of the detected method. *)
Lemma buildAuthAttempts_no_fallback_list :
  authConfig Spec.acme = None /\ compatauth Spec.acme = None /\
  buildAuthAttempts Spec.acme [] = [Spec.bearerAttempt Spec.acme] /\
  buildAuthAttempts Spec.acme [] <> Spec.fallbackAttempts Spec.acme.
Proof. repeat split; try reflexivity. vm_compute. discriminate. Qed.

(** C7, as amended. [buildAuthAttempts] is a function of the provider
    and the extra headers and always returns exactly one attempt: the
    one built from the explicit [authConfig] when there is one, otherwise
    the one of the method detected from the lower-cased base URL (Google
    Gemini or Vertex domains: query parameter [key]; else Anthropic
    domain: header [x-api-key]; else Baidu domain: query parameter [key];
    else bearer token), with the extra headers spread over it. The
    preferred family of the provider plays no part and no list of
    fallbacks is produced. *)
Theorem buildAuthAttempts_single (p : Provider) (extraHeaders : Obj.t Js.str) :
  buildAuthAttempts p extraHeaders =
    [ match authConfig p with
      | Some cfg =>
          {| headers := Obj.spread (Auth.buildAuthHeaders cfg) extraHeaders;
             params := Auth.buildAuthParams cfg |}
      | None =>
          let url := Js.toLowerCase (baseUrl p) in
          if Spec.isGoogle url then
            {| headers := Obj.spread [] extraHeaders;
               params := [(js "key", apiKey p)] |}
          else if Spec.isAnthropic url then
            {| headers := Obj.spread [(js "x-api-key", apiKey p)] extraHeaders;
               params := [] |}
          else if Spec.isBaidu url then
            {| headers := Obj.spread [] extraHeaders;
               params := [(js "key", apiKey p)] |}
          else
            {| headers :=
                 Obj.spread [(js "Authorization", js "Bearer " ++ apiKey p)] extraHeaders;
               params := [] |}
      end ] /\
  length (buildAuthAttempts p extraHeaders) = 1%nat /\
  (forall c, buildAuthAttempts (with_compatauth c p) extraHeaders
             = buildAuthAttempts p extraHeaders) /\
  (forall k k', Auth.detectAuthMethod (Js.toLowerCase (baseUrl p)) k
                = Auth.detectAuthMethod (baseUrl p) k').
Proof.
  split; [|split; [|split]].
  - unfold buildAuthAttempts. destruct (authConfig p) as [cfg|]; [done|].
    cbv zeta. unfold Auth.detectAuthMethod, Spec.isGoogle, Spec.isAnthropic, Spec.isBaidu.
    destruct (Js.includes _ (js "generativelanguage.googleapis.com")
              || Js.includes _ (js "aiplatform.googleapis.com")); [reflexivity|].
    destruct (Js.includes _ (js "anthropic.com")); [reflexivity|].
    destruct (Js.includes _ (js "aip.baidubce.com")); reflexivity.
  - unfold buildAuthAttempts. by destruct (authConfig p).
  - intros c. reflexivity.
  - intros k k'. unfold Auth.detectAuthMethod. by rewrite toLowerCase_idempotent.
Qed.

(** ** Output chunking *)

Section ChunkFacts.
Import Chunk.

Lemma split_nonempty s : Js.split newline s <> [].
Proof.
  destruct s as [|c s]; simpl; [done|].
  destruct (c =? newline)%N; [done|]. by destruct (Js.split newline s).
Qed.

Lemma joinLines_cons l ls :
  ls <> [] -> Spec.joinLines (l :: ls) = l ++ [newline] ++ Spec.joinLines ls.
Proof. by destruct ls. Qed.

Lemma joinLines_split s : Spec.joinLines (Js.split newline s) = s.
Proof.
  induction s as [|c s IH]; [done|]. simpl.
  destruct (c =? newline)%N eqn:Hc.
  - apply N.eqb_eq in Hc as ->.
    rewrite joinLines_cons by apply split_nonempty. by rewrite IH.
  - pose proof (split_nonempty s) as Hne.
    destruct (Js.split newline s) as [|l ls]; [done|].
    destruct ls as [|l' ls]; simpl in *; by rewrite <- IH.
Qed.

Lemma joinLines_snoc ls l :
  ls <> [] -> Spec.joinLines (ls ++ [l]) = Spec.joinLines ls ++ [newline] ++ l.
Proof.
  induction ls as [|a ls IH]; [done|]. intros _.
  destruct ls as [|b ls]; [done|].
  change ((a :: b :: ls) ++ [l]) with (a :: ((b :: ls) ++ [l])).
  rewrite (joinLines_cons a ((b :: ls) ++ [l])) by (simpl; discriminate).
  rewrite IH by discriminate.
  rewrite (joinLines_cons a (b :: ls)) by discriminate. by rewrite <- !app_assoc.
Qed.

Lemma sliceLoop_concat limit line fuel i :
  (0 < limit)%nat -> (length line <= i + fuel)%nat ->
  concat (sliceLoop fuel limit i line) = drop i line.
Proof.
  intros Hlimit. revert i. induction fuel as [|fuel IH]; intros i Hfuel; simpl.
  - by rewrite drop_ge by lia.
  - destruct (i <? length line)%nat eqn:Hi.
    + apply Nat.ltb_lt in Hi. simpl. rewrite IH by lia.
      unfold Js.slice. replace (i + limit - i)%nat with limit by lia.
      rewrite <- drop_drop. apply take_drop.
    + apply Nat.ltb_ge in Hi. by rewrite drop_ge by lia.
Qed.

Lemma sliceLoop_bound limit line fuel i :
  Forall (fun seg => (length seg <= limit)%nat) (sliceLoop fuel limit i line).
Proof.
  revert i. induction fuel as [|fuel IH]; intros i; simpl; [constructor|].
  destruct (i <? length line)%nat; [|constructor].
  constructor; [|apply IH]. unfold Js.slice. rewrite length_take. lia.
Qed.

Lemma sliceLine_concat limit line :
  (0 < limit)%nat -> concat (sliceLine limit line) = line.
Proof. intros H. unfold sliceLine. by rewrite sliceLoop_concat by (done || lia). Qed.

Lemma flush_concat parts cur : concat (flush parts cur) = concat parts ++ cur.
Proof.
  unfold flush. destruct cur; simpl.
  - by rewrite app_nil_r.
  - rewrite concat_app. simpl. by rewrite app_nil_r.
Qed.

Lemma flush_bound limit parts cur :
  Forall (fun seg => (length seg <= limit)%nat) parts ->
  (length cur <= limit)%nat ->
  Forall (fun seg => (length seg <= limit)%nat) (flush parts cur).
Proof.
  intros Hp Hc. unfold flush. destruct (Js.truthy cur); [|done].
  apply Forall_app. split; [done|]. by constructor.
Qed.

(** What one line adds to the text held in [(parts, cur)]: the line,
    after a line feed when it joins a segment under construction. *)
Lemma addLine_concat limit parts cur line parts' cur' :
  (0 < limit)%nat ->
  addLine limit (parts, cur) line = (parts', cur') ->
  concat parts' ++ cur' = concat parts ++ cur ++ line \/
  (cur <> [] /\ concat parts' ++ cur' = concat parts ++ cur ++ [newline] ++ line).
Proof.
  intros Hlimit. unfold addLine.
  destruct (limit <? length line)%nat.
  - intros [= <- <-]. left.
    rewrite concat_app, flush_concat, sliceLine_concat by done.
    by rewrite app_nil_r, <- app_assoc.
  - destruct cur as [|c cur]; simpl.
    + destruct (limit <? length line)%nat; intros [= <- <-]; left; [|done].
      rewrite concat_app. simpl. by rewrite app_nil_r.
    + destruct (limit <? _)%nat; intros [= <- <-].
      * left. rewrite concat_app. simpl. by rewrite app_nil_r, <- app_assoc.
      * right. by split.
Qed.

Lemma addLine_bound limit parts cur line parts' cur' :
  Forall (fun seg => (length seg <= limit)%nat) parts ->
  (length cur <= limit)%nat ->
  addLine limit (parts, cur) line = (parts', cur') ->
  Forall (fun seg => (length seg <= limit)%nat) parts' /\ (length cur' <= limit)%nat.
Proof.
  intros Hp Hc. unfold addLine.
  destruct (limit <? length line)%nat eqn:Hline.
  - intros [= <- <-]. simpl. split; [|lia]. apply Forall_app. split.
    + by apply flush_bound.
    + apply sliceLoop_bound.
  - apply Nat.ltb_ge in Hline.
    destruct (limit <? length _)%nat eqn:Hnext; intros [= <- <-].
    + split; [|done]. apply Forall_app. split; [done|]. by constructor.
    + apply Nat.ltb_ge in Hnext. done.
Qed.

(** The loop invariant: the segments are within the limit, and the
    text they hold is the processed lines, joined, less some of the
    line feeds. *)
Lemma fold_addLine limit lines :
  (0 < limit)%nat ->
  forall seen parts cur,
    Forall (fun seg => (length seg <= limit)%nat) parts ->
    (length cur <= limit)%nat ->
    concat parts ++ cur `sublist_of` Spec.joinLines seen ->
    filter Spec.keptUnit (concat parts ++ cur) = filter Spec.keptUnit (concat seen) ->
    let st := fold_left (addLine limit) lines (parts, cur) in
    Forall (fun seg => (length seg <= limit)%nat) st.1 /\
    (length st.2 <= limit)%nat /\
    concat st.1 ++ st.2 `sublist_of` Spec.joinLines (seen ++ lines) /\
    filter Spec.keptUnit (concat st.1 ++ st.2) = filter Spec.keptUnit (concat (seen ++ lines)).
Proof.
  intros Hlimit. induction lines as [|line lines IH]; intros seen parts cur Hp Hc Hsub Hfil.
  - simpl. by rewrite app_nil_r.
  - cbn [fold_left].
    destruct (addLine limit (parts, cur) line) as [parts' cur'] eqn:Hstep.
    pose proof (addLine_bound _ _ _ _ _ _ Hp Hc Hstep) as [Hp' Hc'].
    pose proof (addLine_concat _ _ _ _ _ _ Hlimit Hstep) as Hcat.
    replace (seen ++ line :: lines) with ((seen ++ [line]) ++ lines)
      by (by rewrite <- app_assoc).
    apply IH; [done|done| |].
    + destruct seen as [|s0 seen].
      * apply sublist_nil_r in Hsub.
        destruct Hcat as [Hcat|[Hne Hcat]].
        -- rewrite Hcat, app_assoc, Hsub. done.
        -- exfalso. apply app_eq_nil in Hsub as [_ ?]. done.
      * rewrite joinLines_snoc by done.
        destruct Hcat as [Hcat|[_ Hcat]]; rewrite Hcat, app_assoc.
        -- apply sublist_app; [done|]. by apply sublist_inserts_l.
        -- by apply sublist_app.
    + rewrite concat_app. simpl. rewrite app_nil_r.
      rewrite (filter_app _ (concat seen) line), <- Hfil.
      destruct Hcat as [Hcat|[_ Hcat]];
        rewrite Hcat, app_assoc, (filter_app _ (concat parts ++ cur)); [done|].
      by f_equal.
Qed.

Lemma concat_split s : filter Spec.keptUnit (concat (Js.split newline s)) = filter Spec.keptUnit s.
Proof.
  induction s as [|c s IH]; [done|]. cbn [Js.split].
  destruct (c =? newline)%N eqn:Hc.
  - apply N.eqb_eq in Hc as ->. cbn [concat app].
    rewrite filter_cons_False; [done|]. unfold Spec.keptUnit. tauto.
  - apply N.eqb_neq in Hc.
    pose proof (split_nonempty s) as Hne.
    destruct (Js.split newline s) as [|l ls]; [done|]. cbn [concat app] in *.
    rewrite !filter_cons_True by done. by rewrite IH.
Qed.

Lemma limitOf_pos reserve : (0 < limitOf reserve)%nat.
Proof. unfold limitOf. lia. Qed.

Lemma splitMessage_parts text reserve :
  Forall (fun seg => (length seg <= limitOf reserve)%nat) (splitMessage text reserve) /\
  concat (splitMessage text reserve) `sublist_of` text /\
  filter Spec.keptUnit (concat (splitMessage text reserve)) = filter Spec.keptUnit text.
Proof.
  unfold splitMessage.
  destruct (length text <=? limitOf reserve)%nat eqn:Hshort.
  - apply Nat.leb_le in Hshort. simpl. rewrite app_nil_r.
    split; [by repeat constructor|]. done.
  - pose proof (fold_addLine (limitOf reserve) (Js.split newline text)
                  (limitOf_pos reserve) [] [] [] (Forall_nil_2 _)) as H.
    simpl in H. specialize (H ltac:(lia) ltac:(done) eq_refl).
    destruct (fold_left _ _ _) as [parts cur]. simpl in H.
    destruct H as (Hp & Hc & Hsub & Hfil).
    rewrite flush_concat. rewrite joinLines_split in Hsub. rewrite concat_split in Hfil.
    split; [by apply flush_bound|]. done.
Qed.
End ChunkFacts.

Section WeaveFacts.
Import Chunk.










End WeaveFacts.





(** ** Objects *)

(** Case analysis on the key comparisons left in a goal. *)
Ltac keys := repeat case_decide; simplify_eq; try done.

Section ObjFacts.
Context {V : Type}.
Implicit Types (o : Obj.t V) (k : Js.str) (v : V).

Lemma get_None_keys k o : Obj.get k o = None <-> k ∉ Obj.keys o.
Proof.
  induction o as [|[k' v'] o IH]; simpl.
  - split; [intros _; apply not_elem_of_nil|done].
  - rewrite not_elem_of_cons. destruct (decide (k' = k)) as [->|Hne].
    + split; [done|]. intros [? _]. done.
    + rewrite IH. split; [intros ?; split; [congruence|done]|tauto].
Qed.

Lemma get_Some_keys k o v : Obj.get k o = Some v -> k ∈ Obj.keys o.
Proof.
  intros H. destruct (decide (k ∈ Obj.keys o)) as [|Hn]; [done|].
  apply get_None_keys in Hn. congruence.
Qed.

Lemma has_keys k o : Obj.has k o = true <-> k ∈ Obj.keys o.
Proof.
  unfold Obj.has. destruct (Obj.get k o) eqn:H.
  - split; [intros _; by eapply get_Some_keys|done].
  - apply get_None_keys in H. split; [done|]. tauto.
Qed.

Lemma get_update_eq k v o : Obj.has k o = true -> Obj.get k (Obj.update k v o) = Some v.
Proof.
  unfold Obj.has. induction o as [|[k' v'] o IH]; simpl; [done|].
  destruct (decide (k' = k)) as [->|Hne]; simpl; keys.
Qed.

Lemma get_update_ne k k' v o : k <> k' -> Obj.get k' (Obj.update k v o) = Obj.get k' o.
Proof.
  intros Hne. induction o as [|[k0 v0] o IH]; simpl; [done|].
  destruct (decide (k0 = k)) as [->|Hne0]; simpl; keys.
Qed.

Lemma keys_update k v o : Obj.keys (Obj.update k v o) = Obj.keys o.
Proof.
  induction o as [|[k0 v0] o IH]; simpl; [done|].
  destruct (decide (k0 = k)); simpl; [done|]. by f_equal.
Qed.

Lemma get_insertIndex_eq i k v o :
  Obj.get k o = None -> Obj.get k (Obj.insertIndex i k v o) = Some v.
Proof.
  induction o as [|[k0 v0] o IH]; simpl; [keys|].
  destruct (decide (k0 = k)) as [->|Hne]; [done|]. intros Hk.
  destruct (Obj.arrayIndex k0) as [j|]; [destruct (i <? j)%N|]; simpl; keys.
  by apply IH.
Qed.

Lemma get_insertIndex_ne i k k' v o :
  k <> k' -> Obj.get k' (Obj.insertIndex i k v o) = Obj.get k' o.
Proof.
  intros Hne. induction o as [|[k0 v0] o IH]; simpl; [keys|].
  destruct (Obj.arrayIndex k0) as [j|]; [destruct (i <? j)%N|]; simpl; keys.
Qed.

Lemma keys_insertIndex i k v o :
  Obj.keys (Obj.insertIndex i k v o) ≡ₚ k :: Obj.keys o.
Proof.
  induction o as [|[k0 v0] o IH]; simpl; [done|].
  destruct (Obj.arrayIndex k0) as [j|]; [destruct (i <? j)%N|]; simpl; [done| |done].
  etrans; [apply Permutation_skip, IH|]. apply Permutation_swap.
Qed.

Lemma get_app k o1 o2 :
  Obj.get k (o1 ++ o2) =
  match Obj.get k o1 with Some v => Some v | None => Obj.get k o2 end.
Proof. induction o1 as [|[k0 v0] o1 IH]; simpl; keys. Qed.

Lemma get_set_eq k v o : Obj.get k (Obj.set k v o) = Some v.
Proof.
  unfold Obj.set. destruct (Obj.has k o) eqn:Hhas.
  - by apply get_update_eq.
  - assert (Hk : Obj.get k o = None).
    { unfold Obj.has in Hhas. by destruct (Obj.get k o). }
    destruct (Obj.arrayIndex k).
    + by apply get_insertIndex_eq.
    + rewrite get_app, Hk. simpl. keys.
Qed.

Lemma get_set_ne k k' v o : k <> k' -> Obj.get k' (Obj.set k v o) = Obj.get k' o.
Proof.
  intros Hne. unfold Obj.set. destruct (Obj.has k o).
  - by apply get_update_ne.
  - destruct (Obj.arrayIndex k).
    + by apply get_insertIndex_ne.
    + rewrite get_app. simpl. keys. by destruct (Obj.get k' o).
Qed.

Lemma get_set k k' v o :
  Obj.get k' (Obj.set k v o) = if decide (k = k') then Some v else Obj.get k' o.
Proof.
  destruct (decide (k = k')) as [->|Hne];
    [apply get_set_eq|by apply get_set_ne].
Qed.

Lemma keys_set k v o :
  Obj.keys (Obj.set k v o) ≡ₚ
  if Obj.has k o then Obj.keys o else k :: Obj.keys o.
Proof.
  unfold Obj.set. destruct (Obj.has k o).
  - by rewrite keys_update.
  - destruct (Obj.arrayIndex k).
    + apply keys_insertIndex.
    + unfold Obj.keys. rewrite map_app. simpl.
      by rewrite Permutation_app_comm.
Qed.

Lemma NoDup_keys_set k v o : NoDup (Obj.keys o) -> NoDup (Obj.keys (Obj.set k v o)).
Proof.
  intros Hnd. rewrite keys_set. destruct (Obj.has k o) eqn:Hhas; [done|].
  constructor; [|done]. intros Hin. apply has_keys in Hin. congruence.
Qed.

Lemma keys_del k o : Obj.keys (Obj.del k o) = filter (fun k' => k' <> k) (Obj.keys o).
Proof.
  unfold Obj.del, Obj.keys. induction o as [|[k0 v0] o IH]; [done|].
  rewrite filter_cons. simpl. rewrite filter_cons.
  destruct (decide (k0 ≠ k)); simpl; by rewrite IH.
Qed.

Lemma get_del k k' o :
  Obj.get k' (Obj.del k o) = if decide (k = k') then None else Obj.get k' o.
Proof.
  unfold Obj.del. induction o as [|[k0 v0] o IH]; [keys|].
  rewrite filter_cons. simpl. destruct (decide (k0 ≠ k)) as [Hne|Heq]; simpl.
  - rewrite IH. keys.
  - apply dec_stable in Heq as ->. rewrite IH. keys.
Qed.

Lemma NoDup_keys_del k o : NoDup (Obj.keys o) -> NoDup (Obj.keys (Obj.del k o)).
Proof. intros Hnd. rewrite keys_del. by apply NoDup_filter. Qed.
End ObjFacts.

(** ** Conversation history *)

Lemma fold_sum_shift {A} (f : A -> Z) (l : list A) (a : Z) :
  fold_left (fun t x => t + f x) l a = a + fold_left (fun t x => t + f x) l 0.
Proof.
  revert a. induction l as [|x l IH]; intros a; simpl; [lia|].
  rewrite (IH (a + f x)), (IH (0 + f x)). lia.
Qed.

Lemma byteLength_nonneg s : 0 <= Js.byteLength s.
Proof.
  assert (H : forall n s, (length s <= n)%nat -> 0 <= Js.byteLength s).
  { clear s. induction n as [|n IH]; intros [|c s] Hlen; simpl in *; try lia.
    assert (0 <= Js.byteLength s) by (apply IH; lia).
    destruct (c <? 128)%N; [lia|]. destruct (c <? 2048)%N; [lia|].
    destruct (Js.isHighSurrogate c); [|lia].
    destruct s as [|d s]; [lia|].
    destruct (Js.isLowSurrogate d); [|lia].
    assert (0 <= Js.byteLength s) by (apply IH; simpl in *; lia). lia. }
  by apply (H (length s)).
Qed.

Section HistoryFacts.
Import History.

Lemma sizeOfItem_nonneg x : 0 <= sizeOfItem x.
Proof. apply byteLength_nonneg. Qed.

Lemma sizeOfHist_cons x h : sizeOfHist (x :: h) = sizeOfItem x + sizeOfHist h.
Proof. unfold sizeOfHist. simpl. apply fold_sum_shift. Qed.

Lemma sizeOfHist_le b h :
  Forall (fun x => sizeOfItem x <= b) h -> sizeOfHist h <= b * Z.of_nat (length h).
Proof.
  induction 1 as [|x h Hx _ IH]; [unfold sizeOfHist; simpl; lia|].
  rewrite sizeOfHist_cons. simpl length. lia.
Qed.

Lemma trimItems_drop h : trimItems h = drop (length h - MAX_ITEMS) h.
Proof.
  unfold MAX_ITEMS. induction h as [|x h IH]; [done|].
  cbn [trimItems]. unfold MAX_ITEMS.
  destruct (50 <? length (x :: h))%nat eqn:Hlen.
  - apply Nat.ltb_lt in Hlen. simpl in Hlen. rewrite IH.
    replace (length (x :: h) - 50)%nat with (S (length h - 50)) by (simpl; lia).
    done.
  - apply Nat.ltb_ge in Hlen.
    by replace (length (x :: h) - 50)%nat with 0%nat by lia.
Qed.

Lemma trimItems_last h : last (trimItems h) = last h.
Proof.
  induction h as [|x h IH]; [done|]. cbn [trimItems]. unfold MAX_ITEMS.
  destruct (50 <? length (x :: h))%nat eqn:Hlen; [|done].
  apply Nat.ltb_lt in Hlen. rewrite IH.
  destruct h as [|y h]; [simpl in Hlen; lia|]. by rewrite last_cons_cons.
Qed.

Lemma trimBytes_step total x y h :
  trimBytes total (x :: y :: h) =
  if MAX_BYTES <? total then trimBytes (total - sizeOfItem x) (y :: h)
  else x :: y :: h.
Proof. reflexivity. Qed.

Lemma trimBytes_suffix total h : trimBytes total h `suffix_of` h.
Proof.
  revert total. induction h as [|x h IH]; intros total; [done|].
  destruct h as [|y h]; [done|]. rewrite trimBytes_step.
  destruct (MAX_BYTES <? total); [|done]. by apply suffix_cons_r.
Qed.

Lemma trimBytes_last total h : last (trimBytes total h) = last h.
Proof.
  revert total. induction h as [|x h IH]; intros total; [done|].
  destruct h as [|y h]; [done|]. rewrite trimBytes_step.
  destruct (MAX_BYTES <? total); [|done]. by rewrite IH, last_cons_cons.
Qed.

Lemma trimBytes_bound h :
  sizeOfHist (trimBytes (sizeOfHist h) h) <= MAX_BYTES \/
  (length (trimBytes (sizeOfHist h) h) <= 1)%nat.
Proof.
  induction h as [|x h IH]; [right; simpl; lia|].
  destruct h as [|y h]; [right; simpl; lia|]. rewrite trimBytes_step.
  destruct (MAX_BYTES <? sizeOfHist (x :: y :: h)) eqn:Hbig.
  - rewrite (sizeOfHist_cons x).
    by replace (sizeOfItem x + sizeOfHist (y :: h) - sizeOfItem x)
      with (sizeOfHist (y :: h)) by lia.
  - left. by apply Z.ltb_ge.
Qed.

Lemma trimBytes_id total h : total <= MAX_BYTES -> trimBytes total h = h.
Proof.
  intros Hsmall. destruct h as [|x [|y h]]; [done..|]. rewrite trimBytes_step.
  by replace (MAX_BYTES <? total) with false by (symmetry; apply Z.ltb_ge; lia).
Qed.

Section Append.
Variables (id r c : Js.str) (now : Z) (d : DB).

Let turn := {| role := r; content := c |}.
Let kept := trimItems (histFor d id ++ [turn]).

Lemma appendTurn_histFor :
  histFor (appendTurn id r c now d) id = trimBytes (sizeOfHist kept) kept.
Proof. unfold histFor, appendTurn. simpl. by rewrite get_set_eq. Qed.

Lemma appendTurn_other id' :
  id <> id' -> histFor (appendTurn id r c now d) id' = histFor d id'.
Proof. intros Hne. unfold histFor, appendTurn. simpl. by rewrite get_set_ne. Qed.

(** The session after the per-session limits: at most fifty turns,
    a suffix of what was there followed by the new turn, the new
    turn last, and within the byte budget unless the new turn is
    alone. *)
Lemma appendTurn_session :
  let h := histFor (appendTurn id r c now d) id in
  (length h <= MAX_ITEMS)%nat /\
  h `suffix_of` histFor d id ++ [turn] /\
  last h = Some turn /\
  (sizeOfHist h <= MAX_BYTES \/ h = [turn]).
Proof.
  cbv zeta. rewrite appendTurn_histFor.
  assert (Hlast : last (trimBytes (sizeOfHist kept) kept) = Some turn).
  { rewrite trimBytes_last. unfold kept. by rewrite trimItems_last, last_snoc. }
  assert (Hsuf : trimBytes (sizeOfHist kept) kept `suffix_of` kept)
    by apply trimBytes_suffix.
  assert (Hkept : (length kept <= MAX_ITEMS)%nat).
  { unfold kept. rewrite trimItems_drop, length_drop. unfold MAX_ITEMS. lia. }
  split; [|split; [|split]].
  - apply suffix_length in Hsuf. lia.
  - etrans; [exact Hsuf|]. unfold kept. rewrite trimItems_drop. apply suffix_drop.
  - done.
  - destruct (trimBytes_bound kept) as [Hb|Hone]; [by left|right].
    destruct (trimBytes (sizeOfHist kept) kept) as [|x [|y l]];
      simpl in *; [done| |lia]. by injection Hlast as ->.
Qed.
End Append.
End HistoryFacts.

Section PruneFacts.
Import History.

Lemma bytesOf_cons d id ids :
  bytesOf d (id :: ids) = sizeOfHist (histFor d id) + bytesOf d ids.
Proof.
  unfold bytesOf. simpl.
  apply (fold_sum_shift (fun id => sizeOfHist (histFor d id))).
Qed.

Lemma bytesOf_perm d ids ids' : ids ≡ₚ ids' -> bytesOf d ids = bytesOf d ids'.
Proof.
  induction 1 as [|x l l' _ IH|x y l|l1 l2 l3 _ IH1 _ IH2];
    rewrite ?bytesOf_cons; lia.
Qed.

Lemma bytesOf_ext d d' ids :
  (forall id, id ∈ ids -> histFor d id = histFor d' id) ->
  bytesOf d ids = bytesOf d' ids.
Proof.
  induction ids as [|x l IH]; intros Hsame; [done|].
  rewrite !bytesOf_cons, Hsame, IH; [done| |by left].
  intros id Hid. apply Hsame. by right.
Qed.

Section Sorting.
Variable time : Js.str -> Z.

Lemma insertByTime_perm a l : insertByTime time a l ≡ₚ a :: l.
Proof.
  induction l as [|b l IH]; simpl; [done|].
  destruct (time a <=? time b); [done|].
  rewrite IH. apply Permutation_swap.
Qed.

Lemma sortByTime_perm l : sortByTime time l ≡ₚ l.
Proof.
  induction l as [|a l IH]; simpl; [done|].
  by rewrite insertByTime_perm, IH.
Qed.

Lemma insertByTime_sorted a l :
  StronglySorted (Spec.earlier time) l -> StronglySorted (Spec.earlier time) (insertByTime time a l).
Proof.
  induction 1 as [|b l Hl IH Hb]; simpl; [by repeat constructor|].
  destruct (time a <=? time b) eqn:Hab.
  - apply Z.leb_le in Hab. constructor; [by constructor|].
    constructor; [done|]. eapply Forall_impl; [exact Hb|].
    unfold Spec.earlier. intros c Hc. lia.
  - apply Z.leb_gt in Hab. constructor; [done|].
    rewrite insertByTime_perm. constructor; [unfold Spec.earlier; lia|done].
Qed.

Lemma sortByTime_sorted l : StronglySorted (Spec.earlier time) (sortByTime time l).
Proof.
  induction l as [|a l IH]; simpl; [constructor|]. by apply insertByTime_sorted.
Qed.

(** A session written strictly later than all the others is sorted
    last. *)
Lemma sortByTime_latest l id :
  id ∈ l -> (forall v, v ∈ l -> v <> id -> time v < time id) ->
  exists pre, sortByTime time l = pre ++ [id].
Proof.
  intros Hid Hlate.
  pose proof (sortByTime_sorted l) as Hsorted.
  pose proof (sortByTime_perm l) as Hperm.
  destruct (sortByTime time l) as [|z s _] using rev_ind.
  - apply Permutation_nil_l in Hperm. subst. by apply elem_of_nil in Hid.
  - exists s. f_equal. f_equal.
    destruct (decide (z = id)) as [|Hne]; [done|]. exfalso.
    assert (Hz : z ∈ l) by (rewrite <- Hperm; set_solver).
    specialize (Hlate z Hz Hne).
    assert (Hin : id ∈ s).
    { rewrite <- Hperm in Hid. apply elem_of_app in Hid as [|Hid]; [done|].
      apply list_elem_of_singleton in Hid. congruence. }
    pose proof (StronglySorted_app_1_elem_of _ _ _ _ _ Hsorted Hin
                  ltac:(by apply list_elem_of_singleton)) as Hle.
    unfold Spec.earlier in Hle. lia.
Qed.
End Sorting.
End PruneFacts.

Section EvictFacts.
Import History.

Lemma histFor_evict v d id :
  histFor (evict v d) id = if decide (v = id) then [] else histFor d id.
Proof. unfold histFor, evict. simpl. rewrite get_del. keys. Qed.

Lemma keys_after_evict v rest (ks : list Js.str) :
  NoDup (v :: rest) -> ks ≡ₚ v :: rest ->
  filter (fun k => k <> v) ks ≡ₚ rest.
Proof.
  intros Hnd Hperm. rewrite Hperm. apply NoDup_cons in Hnd as [Hv Hnd].
  rewrite filter_cons_False by tauto.
  clear Hperm Hnd. induction rest as [|x rest IH]; [done|].
  apply not_elem_of_cons in Hv as [Hx Hv].
  rewrite filter_cons_True by done. by rewrite IH.
Qed.

Lemma get_fold_del {V} (vs : list Js.str) (o : Obj.t V) id :
  Obj.get id (fold_left (fun o v => Obj.del v o) vs o) =
  if decide (id ∈ vs) then None else Obj.get id o.
Proof.
  revert o. induction vs as [|v vs IH]; intros o; cbn [fold_left].
  - destruct (decide (id ∈ [])) as [Hin|_]; [by apply elem_of_nil in Hin|done].
  - rewrite IH, get_del.
    destruct (decide (id ∈ v :: vs)) as [Hin|Hout].
    + apply elem_of_cons in Hin as [->|Hin].
      * destruct (decide (v ∈ vs)); [done|]. by rewrite decide_True.
      * by rewrite decide_True.
    + apply not_elem_of_cons in Hout as [Hne Hout].
      rewrite decide_False by done. by rewrite decide_False by congruence.
Qed.

(** The loop ends with the store within both global limits. *)
Lemma evictLoop_bounds sorted : forall total d,
  NoDup sorted -> Obj.keys (histories d) ≡ₚ sorted -> total = bytesOf d sorted ->
  (length (Obj.keys (histories (evictLoop sorted total d)))
     <= HISTORY_GLOBAL_MAX_SESSIONS)%nat /\
  totalBytes (evictLoop sorted total d) <= HISTORY_GLOBAL_MAX_BYTES.
Proof.
  induction sorted as [|v rest IH]; intros total d Hnd Hkeys Htotal.
  - simpl. apply Permutation_nil_r in Hkeys. unfold totalBytes. rewrite Hkeys.
    unfold HISTORY_GLOBAL_MAX_SESSIONS, HISTORY_GLOBAL_MAX_BYTES, bytesOf. simpl. lia.
  - cbn [evictLoop].
    destruct ((HISTORY_GLOBAL_MAX_SESSIONS <? length (v :: rest))%nat
              || (HISTORY_GLOBAL_MAX_BYTES <? total)) eqn:Hover.
    + pose proof Hnd as Hnd'. apply NoDup_cons in Hnd' as [Hv Hrest].
      apply IH; [done| |].
      * unfold evict. simpl. rewrite keys_del. by apply keys_after_evict.
      * rewrite Htotal, bytesOf_cons.
        rewrite (bytesOf_ext (evict v d) d rest); [lia|].
        intros id Hid. rewrite histFor_evict. rewrite decide_False; [done|].
        intros ->. done.
    + apply orb_false_iff in Hover as [Hcount Hbytes].
      apply Nat.ltb_ge in Hcount. apply Z.ltb_ge in Hbytes.
      split.
      * by rewrite Hkeys.
      * unfold totalBytes. rewrite (bytesOf_perm d _ _ Hkeys). lia.
Qed.

(** The loop gives up a prefix of the sorted identifiers, each from
    both dictionaries. *)
Lemma evictLoop_prefix sorted : forall total d,
  exists n,
    histories (evictLoop sorted total d) =
      fold_left (fun o v => Obj.del v o) (take n sorted) (histories d) /\
    histMeta (evictLoop sorted total d) =
      fold_left (fun o v => Obj.del v o) (take n sorted) <$> histMeta d.
Proof.
  induction sorted as [|v rest IH]; intros total d.
  - exists 0%nat. simpl. by destruct (histMeta d).
  - cbn [evictLoop].
    destruct ((HISTORY_GLOBAL_MAX_SESSIONS <? length (v :: rest))%nat
              || (HISTORY_GLOBAL_MAX_BYTES <? total)).
    + destruct (IH (total - sizeOfHist (histFor d v)) (evict v d)) as (n & Hh & Hm).
      exists (S n). rewrite Hh, Hm. unfold evict. simpl. by destruct (histMeta d).
    + exists 0%nat. simpl. by destruct (histMeta d).
Qed.

(** A session that is sorted last and fits the global byte budget is
    never given up. *)
Lemma evictLoop_keeps_last pre id : forall total d,
  NoDup (pre ++ [id]) -> total = bytesOf d (pre ++ [id]) ->
  sizeOfHist (histFor d id) <= HISTORY_GLOBAL_MAX_BYTES ->
  Obj.get id (histories (evictLoop (pre ++ [id]) total d)) = Obj.get id (histories d).
Proof.
  induction pre as [|v pre IH]; intros total d Hnd Htotal Hfits.
  - change ([] ++ [id]) with [id] in *. rewrite bytesOf_cons in Htotal.
    assert (Hnil : bytesOf d [] = 0) by reflexivity.
    cbn [evictLoop].
    replace ((HISTORY_GLOBAL_MAX_SESSIONS <? length [id])%nat
             || (HISTORY_GLOBAL_MAX_BYTES <? total)) with false; [done|].
    symmetry. apply orb_false_iff. split; [reflexivity|]. apply Z.ltb_ge. lia.
  - change ((v :: pre) ++ [id]) with (v :: (pre ++ [id])) in *.
    cbn [evictLoop].
    destruct ((HISTORY_GLOBAL_MAX_SESSIONS <? length (v :: (pre ++ [id])))%nat
              || (HISTORY_GLOBAL_MAX_BYTES <? total)); [|done].
    apply NoDup_cons in Hnd as [Hv Hnd].
    assert (Hne : v <> id).
    { intros ->. apply Hv. apply elem_of_app. right. by left. }
    rewrite IH; [| done | |].
    + unfold evict. simpl. rewrite get_del. by rewrite decide_False.
    + rewrite Htotal, bytesOf_cons.
      rewrite (bytesOf_ext (evict v d) d (pre ++ [id])); [lia|].
      intros k Hk. rewrite histFor_evict. rewrite decide_False; [done|].
      intros ->. done.
    + rewrite histFor_evict. by rewrite decide_False.
Qed.
End EvictFacts.

Section PushFacts.
Import History.

Lemma prune_bounds d :
  NoDup (Obj.keys (histories d)) ->
  (length (Obj.keys (histories (pruneGlobalHistories d)))
     <= HISTORY_GLOBAL_MAX_SESSIONS)%nat /\
  totalBytes (pruneGlobalHistories d) <= HISTORY_GLOBAL_MAX_BYTES.
Proof.
  intros Hnd. unfold pruneGlobalHistories.
  destruct (Obj.keys (histories d)) as [|k ks] eqn:Hk.
  - unfold totalBytes. rewrite Hk. split; [simpl; lia|done].
  - destruct ((length (k :: ks) <=? HISTORY_GLOBAL_MAX_SESSIONS)%nat
              && (bytesOf d (k :: ks) <=? HISTORY_GLOBAL_MAX_BYTES)) eqn:Hwithin.
    + apply andb_true_iff in Hwithin as [Hcount Hbytes].
      apply Nat.leb_le in Hcount. apply Z.leb_le in Hbytes.
      unfold totalBytes. by rewrite Hk.
    + apply evictLoop_bounds.
      * by rewrite sortByTime_perm.
      * by rewrite Hk, sortByTime_perm.
      * apply bytesOf_perm. by rewrite sortByTime_perm.
Qed.

Lemma prune_prefix d :
  exists n,
    let sorted := sortByTime (lastAtOf (default [] (histMeta d)))
                             (Obj.keys (histories d)) in
    histories (pruneGlobalHistories d) =
      fold_left (fun o v => Obj.del v o) (take n sorted) (histories d) /\
    histMeta (pruneGlobalHistories d) =
      fold_left (fun o v => Obj.del v o) (take n sorted) <$> histMeta d.
Proof.
  unfold pruneGlobalHistories.
  destruct (Obj.keys (histories d)) as [|k ks] eqn:Hk.
  - exists 0%nat. simpl. by destruct (histMeta d).
  - destruct ((length (k :: ks) <=? HISTORY_GLOBAL_MAX_SESSIONS)%nat
              && (bytesOf d (k :: ks) <=? HISTORY_GLOBAL_MAX_BYTES)).
    + exists 0%nat. simpl. by destruct (histMeta d).
    + apply evictLoop_prefix.
Qed.

(** Whole sessions go, the least recently written first: a session
    that remains has its turns untouched, and no session that went was
    written later than one that remains. *)
Lemma prune_oldest_first d :
  (forall s, s ∈ Obj.keys (histories (pruneGlobalHistories d)) ->
             Obj.get s (histories (pruneGlobalHistories d)) = Obj.get s (histories d)) /\
  (forall v s,
     v ∈ Obj.keys (histories d) ->
     v ∉ Obj.keys (histories (pruneGlobalHistories d)) ->
     s ∈ Obj.keys (histories (pruneGlobalHistories d)) ->
     lastAtOf (default [] (histMeta d)) v <= lastAtOf (default [] (histMeta d)) s).
Proof.
  destruct (prune_prefix d) as (n & Hh & _). cbv zeta in Hh.
  set (time := lastAtOf (default [] (histMeta d))) in *.
  set (sorted := sortByTime time (Obj.keys (histories d))) in *.
  assert (Hget : forall k,
            Obj.get k (histories (pruneGlobalHistories d)) =
            if decide (k ∈ take n sorted) then None else Obj.get k (histories d)).
  { intros k. rewrite Hh. apply get_fold_del. }
  split.
  - intros s Hs. rewrite Hget. destruct (decide (s ∈ take n sorted)); [|done].
    exfalso. eapply (proj1 (get_None_keys s _)); [|exact Hs].
    rewrite Hget. by rewrite decide_True.
  - intros v s Hv Hgone Hs.
    assert (Hvict : v ∈ take n sorted).
    { apply get_None_keys in Hgone. rewrite Hget in Hgone.
      destruct (decide (v ∈ take n sorted)); [done|].
      apply get_None_keys in Hgone. done. }
    assert (Hsurv : s ∈ drop n sorted).
    { assert (Hnot : s ∉ take n sorted).
      { intros Hin. eapply (proj1 (get_None_keys s _)); [|exact Hs].
        rewrite Hget. by rewrite decide_True. }
      assert (Hin : s ∈ sorted).
      { unfold sorted. rewrite sortByTime_perm.
        destruct (decide (s ∈ Obj.keys (histories d))) as [|Hout]; [done|].
        exfalso. apply get_None_keys in Hout.
        eapply (proj1 (get_None_keys s _)); [|exact Hs].
        rewrite Hget. by destruct (decide _). }
      rewrite <- (take_drop n sorted) in Hin.
      apply elem_of_app in Hin as [|]; done. }
    pose proof (sortByTime_sorted time (Obj.keys (histories d))) as Hsorted.
    fold sorted in Hsorted. rewrite <- (take_drop n sorted) in Hsorted.
    exact (StronglySorted_app_1_elem_of _ _ _ _ _ Hsorted Hvict Hsurv).
Qed.

(** A session written strictly later than every other one, and no
    larger than the global byte budget, is not given up. *)
Lemma prune_keeps d id :
  NoDup (Obj.keys (histories d)) ->
  id ∈ Obj.keys (histories d) ->
  sizeOfHist (histFor d id) <= HISTORY_GLOBAL_MAX_BYTES ->
  (forall v, v ∈ Obj.keys (histories d) -> v <> id ->
             lastAtOf (default [] (histMeta d)) v < lastAtOf (default [] (histMeta d)) id) ->
  Obj.get id (histories (pruneGlobalHistories d)) = Obj.get id (histories d).
Proof.
  intros Hnd Hid Hfits Hlate. unfold pruneGlobalHistories.
  destruct (Obj.keys (histories d)) as [|k ks] eqn:Hk; [done|].
  destruct ((length (k :: ks) <=? HISTORY_GLOBAL_MAX_SESSIONS)%nat
            && (bytesOf d (k :: ks) <=? HISTORY_GLOBAL_MAX_BYTES)); [done|].
  destruct (sortByTime_latest _ _ _ Hid Hlate) as [pre Hpre].
  rewrite Hpre. apply evictLoop_keeps_last.
  - rewrite <- Hpre. by rewrite sortByTime_perm.
  - apply bytesOf_perm. by rewrite <- Hpre, sortByTime_perm.
  - done.
Qed.
End PushFacts.

Section ScenarioFacts.
Import History.
Variable id : Js.str.

Lemma set_empty {V} k (v : V) : Obj.set k v [] = [(k, v)].
Proof. unfold Obj.set. simpl. by destruct (Obj.arrayIndex k). Qed.

Lemma set_sole {V} k (v v' : V) : Obj.set k v [(k, v')] = [(k, v)].
Proof. unfold Obj.set, Obj.has. simpl. by rewrite !decide_True. Qed.

Lemma recent_snoc done t : trimItems (Spec.recent done ++ [t]) = Spec.recent (done ++ [t]).
Proof.
  rewrite trimItems_drop. unfold Spec.recent, MAX_ITEMS.
  rewrite !length_app, length_drop. simpl.
  destruct (decide (length done < 50)%nat) as [Hshort|Hlong].
  - replace (length done - 50)%nat with 0%nat by lia.
    replace (length done - 0 + 1 - 50)%nat with 0%nat by lia.
    by replace (length done + 1 - 50)%nat with 0%nat by lia.
  - replace (length done - (length done - 50) + 1 - 50)%nat with 1%nat by lia.
    replace (length done + 1 - 50)%nat with (length done - 50 + 1)%nat by lia.
    rewrite <- drop_drop. f_equal. rewrite drop_app_le by lia. done.
Qed.

Lemma recent_small turns : Forall Spec.small turns -> Forall Spec.small (Spec.recent turns).
Proof. unfold Spec.recent. apply Forall_drop. Qed.

Lemma recent_length turns : (length (Spec.recent turns) <= MAX_ITEMS)%nat.
Proof. unfold Spec.recent. rewrite length_drop. unfold MAX_ITEMS. lia. Qed.

Lemma histFor_sole d done :
  histories d = Spec.soleSession id done -> histFor d id = Spec.recent done.
Proof.
  unfold histFor. intros ->. destruct done as [|t done]; [done|].
  simpl. by rewrite decide_True.
Qed.

(** One append to a store whose only session is [id], with turns of
    about one kibibyte. *)
Lemma pushHist_sole d done t now :
  histories d = Spec.soleSession id done ->
  Forall Spec.small done -> Spec.small t ->
  histories (pushHist id (role t) (content t) now d) = Spec.soleSession id (done ++ [t]).
Proof.
  intros Hd Hdone Ht.
  assert (Hkept : trimItems (histFor d id ++ [ {| role := role t; content := content t |} ])
                  = Spec.recent (done ++ [t])).
  { rewrite (histFor_sole d done Hd). destruct t. apply recent_snoc. }
  assert (Hsize : sizeOfHist (Spec.recent (done ++ [t])) <= 65500).
  { pose proof (sizeOfHist_le 1310 (Spec.recent (done ++ [t]))) as Hle.
    pose proof (recent_length (done ++ [t])) as Hlen. unfold MAX_ITEMS in Hlen.
    assert (Hall : Forall Spec.small (done ++ [t])).
    { apply Forall_app. split; [done|]. by repeat constructor. }
    specialize (Hle (recent_small _ Hall)). lia. }
  assert (Happ : histories (appendTurn id (role t) (content t) now d)
                 = [(id, Spec.recent (done ++ [t]))]).
  { unfold appendTurn. simpl. rewrite Hkept.
    rewrite trimBytes_id by (unfold MAX_BYTES; lia).
    rewrite Hd. destruct done; [apply set_empty|apply set_sole]. }
  unfold pushHist, pruneGlobalHistories. rewrite Happ. cbn [Obj.keys List.map fst].
  assert (Hbytes : bytesOf (appendTurn id (role t) (content t) now d) [id] <= 65500).
  { rewrite bytesOf_cons. unfold histFor at 1. rewrite Happ. simpl.
    rewrite decide_True by done. simpl. change (bytesOf _ []) with 0. lia. }
  replace ((length [id] <=? HISTORY_GLOBAL_MAX_SESSIONS)%nat
           && (bytesOf _ [id] <=? HISTORY_GLOBAL_MAX_BYTES)) with true.
  - rewrite Happ. by destruct done.
  - symmetry. apply andb_true_iff. split; [done|]. apply Z.leb_le.
    unfold HISTORY_GLOBAL_MAX_BYTES. lia.
Qed.

Lemma pushAll_sole turns : forall d done,
  histories d = Spec.soleSession id done ->
  Forall Spec.small done -> Forall (fun tn => Spec.small tn.1) turns ->
  histories (pushAll id turns d) = Spec.soleSession id (done ++ List.map fst turns).
Proof.
  induction turns as [|[t now] turns IH]; intros d done Hd Hdone Hturns.
  - simpl. by rewrite app_nil_r.
  - apply Forall_cons in Hturns as [Ht Hturns].
    change (pushAll id ((t, now) :: turns) d)
      with (pushAll id turns (pushHist id (role t) (content t) now d)).
    rewrite (IH _ (done ++ [t])).
    + simpl. by rewrite <- app_assoc.
    + by apply pushHist_sole.
    + apply Forall_app. split; [done|by constructor].
    + done.
Qed.
End ScenarioFacts.

Section LimitFacts.
Import History.

Lemma sizeOfHist_app a b : sizeOfHist (a ++ b) = sizeOfHist a + sizeOfHist b.
Proof.
  induction a as [|x a IH]; [unfold sizeOfHist at 2; simpl; lia|].
  simpl app. rewrite !sizeOfHist_cons, IH. lia.
Qed.

Lemma sizeOfHist_nonneg h : 0 <= sizeOfHist h.
Proof.
  induction h as [|x h IH]; [done|]. rewrite sizeOfHist_cons.
  pose proof (sizeOfItem_nonneg x). lia.
Qed.

Lemma appendTurn_NoDup id r c now d :
  NoDup (Obj.keys (histories d)) ->
  NoDup (Obj.keys (histories (appendTurn id r c now d))).
Proof. intros Hnd. unfold appendTurn. simpl. by apply NoDup_keys_set. Qed.

(** After the whole of [pushHist] the session is as [appendTurn] left
    it, or gone. *)
Lemma pushHist_histFor id r c now d :
  histFor (pushHist id r c now d) id = histFor (appendTurn id r c now d) id \/
  histFor (pushHist id r c now d) id = [].
Proof.
  unfold pushHist.
  destruct (decide (id ∈ Obj.keys (histories
              (pruneGlobalHistories (appendTurn id r c now d))))) as [Hin|Hout].
  - left. unfold histFor. by rewrite (proj1 (prune_oldest_first _) id Hin).
  - right. apply get_None_keys in Hout. unfold histFor. by rewrite Hout.
Qed.
End LimitFacts.

(** C2, counterexample. One turn whose content is 64 KiB is appended to
    an empty store: the session then holds that turn alone, and its
    65541 bytes exceed the 64 KiB budget. *)
Lemma pushHist_session_over_budget :
  length (History.histFor
            (History.pushHist Spec.chat42 (js "user") Spec.content64K 1000 emptyDB)
            Spec.chat42) = 1%nat /\
  History.sizeOfHist
    (History.histFor
       (History.pushHist Spec.chat42 (js "user") Spec.content64K 1000 emptyDB)
       Spec.chat42) = 65541 /\
  History.MAX_BYTES < 65541.
Proof. split; [|split]; vm_compute; reflexivity. Qed.

(** C2, as amended. After every append, on a store whose session
    identifiers are distinct: the session holds at most 50 turns, which
    are a suffix of its former turns followed by the new one (oldest
    dropped first), and at most 64 KiB of [role:content] bytes unless it
    holds the new turn alone; the store holds at most 200 sessions and at
    most 2 MiB; the sessions that remain are untouched and none of the
    sessions given up was written later than one that remains. Sixty
    appends of turns of at most 1310 bytes each to a store without
    sessions leave exactly the last fifty turns, in their order. *)
Theorem pushHist_limits (id r c : Js.str) (now : Z) (d : DB) :
  NoDup (Obj.keys (histories d)) ->
  let turn := {| role := r; content := c |} in
  let d1 := History.appendTurn id r c now d in
  let d' := History.pushHist id r c now d in
  let time := History.lastAtOf (default [] (histMeta d1)) in
  ((length (History.histFor d' id) <= 50)%nat /\
   History.histFor d' id `suffix_of` History.histFor d id ++ [turn] /\
   (History.sizeOfHist (History.histFor d' id) <= 64 * 1024 \/
    History.histFor d' id = [turn])) /\
  ((length (Obj.keys (histories d')) <= 200)%nat /\
   History.totalBytes d' <= 2 * 1024 * 1024) /\
  ((forall s, s ∈ Obj.keys (histories d') ->
              Obj.get s (histories d') = Obj.get s (histories d1)) /\
   (forall v s, v ∈ Obj.keys (histories d1) -> v ∉ Obj.keys (histories d') ->
                s ∈ Obj.keys (histories d') -> time v <= time s)) /\
  (forall turns d0,
     histories d0 = [] -> length turns = 60%nat ->
     Forall (fun tn => Spec.small tn.1) turns ->
     histories (History.pushAll id turns d0) = [(id, drop 10 (List.map fst turns))]).
Proof.
  intros Hnd turn d1 d' time. subst turn d1 d' time.
  split; [|split; [|split]].
  - pose proof (appendTurn_session id r c now d) as (Hlen & Hsuf & _ & Hsize).
    destruct (pushHist_histFor id r c now d) as [Hsame|Hgone].
    + rewrite Hsame. by repeat split.
    + rewrite Hgone. repeat split; [simpl; lia|apply suffix_nil|by left].
  - apply (prune_bounds (History.appendTurn id r c now d)). by apply appendTurn_NoDup.
  - apply (prune_oldest_first (History.appendTurn id r c now d)).
  - intros turns d0 Hempty Hlen Hsmall.
    rewrite (pushAll_sole id turns d0 [] Hempty (Forall_nil_2 _) Hsmall).
    simpl app. unfold Spec.soleSession, Spec.recent, History.MAX_ITEMS.
    rewrite length_map, Hlen.
    destruct turns as [|tn turns]; [discriminate Hlen|done].
Qed.

Lemma pushHist_limits_witness :
  NoDup (Obj.keys (histories emptyDB)) /\
  histories (History.pushAll Spec.chat42 Spec.sixtyTurns emptyDB)
  = [(Spec.chat42, drop 10 (List.map fst Spec.sixtyTurns))].
Proof.
  assert (Hnd : NoDup (Obj.keys (histories emptyDB))) by constructor.
  split; [exact Hnd|].
  apply (pushHist_limits Spec.chat42 (js "user") (js "hello") 1000 emptyDB Hnd).
  - reflexivity.
  - reflexivity.
  - unfold Spec.small. eapply bool_decide_unpack. vm_compute. exact I.
Defined.

(** C10, counterexample. A single turn of 2 MiB is appended to an empty
    store: the per-session step keeps it, the store is then over its
    global byte budget, and the global eviction gives up the only
    session, the one just written. *)
Lemma pushHist_gives_up_own_session :
  History.histFor
    (History.pushHist Spec.chat42 (js "user") Spec.content2M 1000 emptyDB)
    Spec.chat42 = [] /\
  histories (History.pushHist Spec.chat42 (js "user") Spec.content2M 1000 emptyDB) = [].
Proof. split; vm_compute; reflexivity. Qed.

(** C10, as amended. The per-session limits of an append never empty
    the session: after them its newest turn is the turn just appended,
    the turns before it are a suffix of the former ones, and a turn
    that alone exceeds the per-session byte budget is kept as the only
    turn. The global eviction that follows leaves that session
    untouched whenever the identifiers are distinct, the turn is no
    larger than the global byte budget and every other session was
    written strictly earlier. *)
Theorem appendTurn_keeps_new_turn (id r c : Js.str) (now : Z) (d : DB) :
  let turn := {| role := r; content := c |} in
  let d1 := History.appendTurn id r c now d in
  let d' := History.pushHist id r c now d in
  (History.histFor d1 id <> [] /\
   last (History.histFor d1 id) = Some turn /\
   History.histFor d1 id `suffix_of` History.histFor d id ++ [turn] /\
   (History.MAX_BYTES < History.sizeOfItem turn -> History.histFor d1 id = [turn])) /\
  (NoDup (Obj.keys (histories d)) ->
   History.sizeOfItem turn <= History.HISTORY_GLOBAL_MAX_BYTES ->
   (forall other, other ∈ Obj.keys (histories d) -> other <> id ->
                  History.lastAtOf (default [] (histMeta d)) other < now) ->
   History.histFor d' id = History.histFor d1 id).
Proof.
  intros turn d1 d'. subst turn d1 d'.
  pose proof (appendTurn_session id r c now d) as (Hlen & Hsuf & Hlast & Hsize).
  cbv zeta in *. split.
  - split; [|split; [done|split; [done|]]].
    + intros Hnil. rewrite Hnil in Hlast. discriminate Hlast.
    + intros Hbig. destruct Hsize as [Hsize|]; [exfalso|done].
      apply last_Some in Hlast as [before Hbefore]. rewrite Hbefore in Hsize.
      rewrite sizeOfHist_app, sizeOfHist_cons in Hsize.
      pose proof (sizeOfHist_nonneg before). pose proof (sizeOfHist_nonneg []). lia.
  - intros Hnd Hfits Hlate. unfold History.pushHist, History.histFor at 1 2.
    f_equal. apply prune_keeps.
    + by apply appendTurn_NoDup.
    + eapply get_Some_keys. unfold History.appendTurn. simpl. apply get_set_eq.
    + destruct Hsize as [Hsize|Hone].
      * unfold History.MAX_BYTES, History.HISTORY_GLOBAL_MAX_BYTES in *. lia.
      * rewrite Hone, sizeOfHist_cons. change (History.sizeOfHist []) with 0. lia.
    + intros v Hv Hne. unfold History.appendTurn, History.lastAtOf in *. simpl in *.
      rewrite get_set_eq, get_set_ne by done. simpl.
      apply Hlate; [|done].
      rewrite keys_set in Hv. destruct (Obj.has id (histories d)); [done|].
      apply elem_of_cons in Hv as [->|Hv]; done.
Qed.

Lemma appendTurn_keeps_new_turn_witness :
  History.histFor (History.pushHist Spec.chat42 (js "user") (js "hello") 1000 Spec.oneSession)
    Spec.chat42
  = History.histFor (History.appendTurn Spec.chat42 (js "user") (js "hello") 1000 Spec.oneSession)
      Spec.chat42.
Proof.
  apply (appendTurn_keeps_new_turn Spec.chat42 (js "user") (js "hello") 1000 Spec.oneSession).
  - eapply bool_decide_unpack. vm_compute. exact I.
  - vm_compute. discriminate.
  - intros other Hin Hne.
    change (Obj.keys (histories Spec.oneSession)) with [Spec.chat7] in Hin.
    apply list_elem_of_singleton in Hin as ->. vm_compute. reflexivity.
Defined.

(** ** Compatibility resolution *)

Section ResolveFacts.

Lemma setIfAbsent_get forName kv k :
  Obj.get k (setIfAbsent forName kv) =
  match Obj.get k forName with
  | Some c => Some c
  | None => if decide (kv.1 = k) then Some kv.2 else None
  end.
Proof.
  unfold setIfAbsent, Obj.has.
  destruct (Obj.get kv.1 forName) eqn:Hkv.
  - destruct (Obj.get k forName) eqn:Hk; [done|].
    destruct (decide (kv.1 = k)) as [Heq|]; [congruence|done].
  - rewrite get_set. destruct (decide (kv.1 = k)) as [Heq|Hne].
    + rewrite <- Heq, Hkv. done.
    + by destruct (Obj.get k forName).
Qed.

Lemma fold_setIfAbsent_get m : forall forName k,
  Obj.get k (fold_left setIfAbsent m forName) =
  match Obj.get k forName with
  | Some c => Some c
  | None => Obj.get k m
  end.
Proof.
  induction m as [|[k0 v0] m IH]; intros forName k; cbn [fold_left].
  - by destruct (Obj.get k forName).
  - rewrite IH, setIfAbsent_get. simpl.
    destruct (Obj.get k forName); [done|]. by destruct (decide (k0 = k)).
Qed.


Lemma overrideOf_set d name' forName name ml :
  overrideOf (with_modelCompat
                (Some (Obj.set name' forName (default [] (modelCompat d)))) d) name ml =
  if decide (name' = name) then Obj.get ml forName else overrideOf d name ml.
Proof.
  unfold overrideOf. simpl. rewrite get_set.
  destruct (decide (name' = name)); [done|]. by destruct (modelCompat d).
Qed.

Lemma overrideOf_forName d name ml :
  Obj.get ml (default [] (Obj.get name (default [] (modelCompat d))))
  = overrideOf d name ml.
Proof.
  unfold overrideOf. destruct (modelCompat d) as [mc|]; [|done]. simpl.
  by destruct (Obj.get name mc).
Qed.

(** The entry the listed branch of a task leaves for [(name, ml)]: the
    entry that was there, or else what the task found for it. *)
Lemma resolveCompat_listed_override res now t w name ml :
  overrideOf (data (resolveCompat_listed res now t w).2) name ml =
  match overrideOf (data w) name ml with
  | Some c => Some c
  | None =>
      if decide (taskName t = name) then
        match Obj.get ml (modelMap res) with
        | Some c => Some c
        | None =>
            if decide (taskModel t = ml) then
              Some (match Obj.get (taskModel t) (modelMap res) with
                    | Some c => c
                    | None => default (taskGuess t) (primaryCompat res)
                    end)
            else None
        end
      else None
  end.
Proof.
  unfold resolveCompat_listed, overrideOf at 1. simpl.
  rewrite get_set. destruct (decide (taskName t = name)) as [<-|Hne].
  - rewrite setIfAbsent_get, !fold_setIfAbsent_get, !overrideOf_forName. simpl.
    destruct (overrideOf (data w) (taskName t) ml) eqn:Hml; [done|].
    destruct (Obj.get ml (modelMap res)) eqn:Hlisted; [done|].
    destruct (decide (taskModel t = ml)) as [<-|]; [|done].
    rewrite Hml, Hlisted. done.
  - unfold overrideOf. destruct (modelCompat (data w)) as [mc|]; simpl; [|done].
    destruct (Obj.get name mc) as [forName|]; [|done]. by destruct (Obj.get ml forName).
Qed.

Lemma resolveCompat_failed_override t w name ml :
  overrideOf (data (resolveCompat_failed t w).2) name ml =
  match overrideOf (data w) name ml with
  | Some c => Some c
  | None =>
      if decide (taskName t = name /\ taskModel t = ml) then Some (taskGuess t) else None
  end.
Proof.
  unfold resolveCompat_failed. simpl.
  destruct (Obj.has _ _) eqn:Hhas; simpl; rewrite overrideOf_set.
  - destruct (decide (taskName t = name)) as [<-|Hne].
    + rewrite overrideOf_forName.
      destruct (overrideOf (data w) (taskName t) ml) eqn:Hml; [done|].
      rewrite decide_False; [done|]. intros [_ <-].
      unfold Obj.has in Hhas. rewrite overrideOf_forName, Hml in Hhas. done.
    + destruct (overrideOf (data w) name ml); [done|].
      rewrite decide_False; [done|]. tauto.
  - destruct (decide (taskName t = name)) as [<-|Hne].
    + rewrite get_set, overrideOf_forName.
      destruct (decide (taskModel t = ml)) as [<-|Hne].
      * unfold Obj.has in Hhas. rewrite overrideOf_forName in Hhas.
        destruct (overrideOf (data w) (taskName t) (taskModel t)); [done|].
        by rewrite decide_True.
      * destruct (overrideOf (data w) (taskName t) ml); [done|].
        rewrite decide_False; [done|]. tauto.
    + destruct (overrideOf (data w) name ml); [done|].
      rewrite decide_False; [done|]. tauto.
Qed.

Lemma refreshModelCatalog_modelCompat listModels now force w :
  modelCompat (data (refreshModelCatalog listModels now force w)) = modelCompat (data w).
Proof. unfold refreshModelCatalog. by destruct (negb force && refreshing w). Qed.

Lemma Store_init_current listModels now d :
  3 <= default 1 (dataVersion d) ->
  modelCompat (data (Store_init listModels now d)) = Some (default [] (modelCompat d)).
Proof.
  intros Hv. unfold Store_init.
  replace (Z.max 2 (default 1 (dataVersion d)) <? 3) with false; [done|].
  symmetry. apply Z.ltb_ge. lia.
Qed.
End ResolveFacts.

Lemma autoStep_override w w' name ml c :
  Spec.autoStep w w' ->
  overrideOf (data w) name ml = Some c -> overrideOf (data w') name ml = Some c.
Proof.
  intros Hstep Hc. destruct Hstep as [n m p w|res now t w|t w|lm now force w|merged now w].
  - unfold resolveCompat_begin.
    destruct (overrideOf (data w) n (Js.toLowerCase m)); [done|].
    destruct (getCompatFromCatalog (data w) (Js.toLowerCase m)); [done|]. simpl.
    destruct (compatResolving w !! _); [done|].
    by destruct (compatResolving w !! n).
  - by rewrite resolveCompat_listed_override, Hc.
  - by rewrite resolveCompat_failed_override, Hc.
  - unfold overrideOf. by rewrite refreshModelCatalog_modelCompat.
  - done.
Qed.

Lemma autoSteps_override w w' name ml c :
  rtc Spec.autoStep w w' ->
  overrideOf (data w) name ml = Some c -> overrideOf (data w') name ml = Some c.
Proof. induction 1 as [|w1 w2 w3 Hstep _ IH]; [done|]. eauto using autoStep_override. Qed.

Lemma resolveCompat_override listModels now name model p w c :
  overrideOf (data w) name (Js.toLowerCase model) = Some c ->
  resolveCompat listModels now name model p w = (c, w).
Proof. intros Hc. unfold resolveCompat, resolveCompat_begin. by rewrite Hc. Qed.

(** One turn of the migration on an entry whose key is in lower case:
    only that key can change, and it takes the migrated value when the
    dictionary held the entry. *)
Lemma migrateEntry_get catMap prov base dict k0 v0 k :
  Js.toLowerCase k0 = k0 ->
  Obj.get k (migrateEntry catMap prov base dict (k0, v0)) =
  if decide (k0 = k) then
    (if decide (Spec.migrated catMap k0 v0 = v0) then Obj.get k dict
     else Some (Spec.migrated catMap k0 v0))
  else Obj.get k dict.
Proof.
  intros Hlow. unfold migrateEntry, Spec.migrated, Spec.branded. cbn [fst snd].
  rewrite Hlow. change (detectCompat prov k0 base) with (detectCompat [] k0 []).
  destruct (Obj.get k0 catMap) as [cat|].
  - case_bool_decide as Hsame.
    + destruct (decide (cat = v0)); [|done]. by destruct (decide (k0 = k)).
    + destruct (decide (cat = v0)); [done|]. apply get_set.
  - case_bool_decide as Hcur.
    + subst v0. destruct (detectCompat [] k0 []) eqn:Hinf.
      * rewrite bool_decide_false by (intros [|]; done).
        destruct (decide (openai = openai)); [|done]. by destruct (decide (k0 = k)).
      * rewrite bool_decide_true by (by left).
        destruct (decide (gemini = openai)); [done|]. apply get_set.
      * rewrite bool_decide_true by (by right).
        destruct (decide (claude = openai)); [done|]. apply get_set.
    + destruct v0; [done|..].
      * destruct (decide (gemini = gemini)); [|done]. by destruct (decide (k0 = k)).
      * destruct (decide (claude = claude)); [|done]. by destruct (decide (k0 = k)).
Qed.

Lemma fold_migrateEntry_other catMap prov base es : forall dict k,
  Forall (fun k0 => Spec.lowerKey k0) (Obj.keys es) ->
  k ∉ Obj.keys es ->
  Obj.get k (fold_left (migrateEntry catMap prov base) es dict) = Obj.get k dict.
Proof.
  induction es as [|[k0 v0] es IH]; intros dict k Hlow Hout; cbn [fold_left]; [done|].
  cbn [Obj.keys map fst] in *. apply Forall_cons in Hlow as [[_ Hk0] Hlow].
  apply not_elem_of_cons in Hout as [Hne Hout].
  rewrite (IH _ _ Hlow Hout), migrateEntry_get by done.
  by rewrite decide_False.
Qed.

(** The loop of the migration over the entries of one provider. *)
Lemma fold_migrateEntry_get catMap prov base es : forall dict k cur,
  NoDup (Obj.keys es) ->
  Forall (fun k0 => Spec.lowerKey k0) (Obj.keys es) ->
  (forall k' v', Obj.get k' es = Some v' -> Obj.get k' dict = Some v') ->
  Obj.get k es = Some cur ->
  Obj.get k (fold_left (migrateEntry catMap prov base) es dict)
  = Some (Spec.migrated catMap k cur).
Proof.
  induction es as [|[k0 v0] es IH]; intros dict k cur Hnd Hlow Hheld Hget;
    cbn [fold_left]; [done|].
  cbn [Obj.keys map fst] in *. apply NoDup_cons in Hnd as [Hfresh Hnd].
  apply Forall_cons in Hlow as [[Hascii Hk0] Hlow].
  cbn [Obj.get] in Hget. destruct (decide (k0 = k)) as [->|Hne].
  - injection Hget as ->.
    rewrite (fold_migrateEntry_other _ _ _ _ _ _ Hlow Hfresh), migrateEntry_get by done.
    rewrite decide_True by done.
    destruct (decide (Spec.migrated catMap k cur = cur)) as [->|]; [|done].
    apply Hheld. cbn [Obj.get]. by rewrite decide_True.
  - apply IH; [done..| |done].
    intros k' v' Hk'. rewrite migrateEntry_get by done.
    assert (k0 <> k').
    { intros ->. apply Hfresh. by eapply get_Some_keys. }
    rewrite decide_False by done. apply Hheld. cbn [Obj.get]. by rewrite decide_False.
Qed.

Lemma get_migrateProvider catMap ps mc name :
  Obj.get name (List.map (migrateProvider catMap ps) mc) =
  (fun dict => (migrateProvider catMap ps (name, dict)).2) <$> Obj.get name mc.
Proof.
  induction mc as [|[n d] mc IH]; [done|]. cbn [List.map Obj.get]. cbn [migrateProvider fst].
  destruct (decide (n = name)) as [->|]; [done|]. exact IH.
Qed.

(** What [Store.init] makes of a stored entry of a file older than data
    version 3. *)
Lemma Store_init_migrates listModels now loaded name dict k cur :
  default 1 (dataVersion loaded) < 3 ->
  Obj.get name (default [] (modelCompat loaded)) = Some dict ->
  NoDup (Obj.keys dict) ->
  Forall (fun k0 => Spec.lowerKey k0) (Obj.keys dict) ->
  Obj.get k dict = Some cur ->
  overrideOf (data (Store_init listModels now loaded)) name k
  = Some (Spec.migrated (collectCatalog listModels (providers loaded)) k cur).
Proof.
  intros Hold Hname Hnd Hlow Hget. unfold Store_init. cbv zeta.
  replace (Z.max 2 (default 1 (dataVersion loaded)) <? 3) with true
    by (symmetry; apply Z.ltb_lt; lia).
  unfold overrideOf, refreshModelCatalog. cbn [negb andb].
  cbn [data emit with_data with_refreshing commitCatalog modelCompat with_modelCompat
       with_dataVersion with_modelCatalog with_histMeta providers catalogMap
       modelCatalog Catalog.map default].
  rewrite get_migrateProvider.
  change (id (default [] (modelCompat loaded))) with (default [] (modelCompat loaded)).
  rewrite Hname. cbn [fmap option_fmap option_map migrateProvider snd fst].
  by apply fold_migrateEntry_get.
Qed.

(** C1, counterexample. A configuration file of data version 2 holds
    the entries [gemini-pro: openai] and [my-model: claude] for provider
    [acme]. [Store.init] refreshes the catalog and then rewrites both:
    the first by the name pattern, the second by the catalog. *)
Lemma migration_rewrites_overrides :
  overrideOf Spec.legacyDB (js "acme") (js "gemini-pro") = Some openai /\
  overrideOf Spec.legacyDB (js "acme") (js "my-model") = Some claude /\
  overrideOf (data (Store_init Spec.acmeLister 1000 Spec.legacyDB))
             (js "acme") (js "gemini-pro") = Some gemini /\
  overrideOf (data (Store_init Spec.acmeLister 1000 Spec.legacyDB))
             (js "acme") (js "my-model") = Some openai.
Proof. repeat split; vm_compute; reflexivity. Qed.

(** C1, as amended. When an entry is stored for a provider and the
    lower-cased model, [resolveCompat] returns it and leaves the state as
    it is; and it is still the stored entry, and still what
    [resolveCompat] returns, after any sequence of resolutions started,
    tasks completed on either branch, and catalog refreshes. [Store.init]
    keeps it as well when the loaded data version is 3 or more. The
    one-time migration of older files is the exception: after its forced
    refresh of the catalog the entry is the catalog's family for the
    model when the catalog has one; else, when the entry is [openai] and
    the name pattern gives Claude or Gemini, it is that family; else it
    is kept. This is stated for a provider whose stored keys are in
    lower-case ASCII, as the program writes them, and a model key that
    is no inherited property name. *)
Theorem override_wins (name model : Js.str) (p : Provider) (w : World) (c : Compat) :
  overrideOf (data w) name (Js.toLowerCase model) = Some c ->
  (forall listModels now, resolveCompat listModels now name model p w = (c, w)) /\
  (forall w', rtc Spec.autoStep w w' ->
     overrideOf (data w') name (Js.toLowerCase model) = Some c /\
     forall listModels now p', resolveCompat listModels now name model p' w' = (c, w')) /\
  (forall listModels now, 3 <= default 1 (dataVersion (data w)) ->
     overrideOf (data (Store_init listModels now (data w))) name (Js.toLowerCase model)
     = Some c) /\
  (forall listModels now forName,
     default 1 (dataVersion (data w)) < 3 ->
     Obj.get name (default [] (modelCompat (data w))) = Some forName ->
     NoDup (Obj.keys forName) ->
     Forall (fun k => Spec.lowerKey k) (Obj.keys forName) ->
     Obj.plain (Js.toLowerCase model) ->
     overrideOf (data (Store_init listModels now (data w))) name (Js.toLowerCase model)
     = Some (Spec.migrated (collectCatalog listModels (providers (data w)))
               (Js.toLowerCase model) c)).
Proof.
  intros Hc. split; [|split; [|split]]; cycle 3.
  { intros lm now forName Hold Hname Hnd Hlow _.
    apply (Store_init_migrates lm now (data w) name forName); try done.
    rewrite <- overrideOf_forName in Hc. by rewrite Hname in Hc. }
  - intros lm now. by apply resolveCompat_override.
  - intros w' Hsteps.
    pose proof (autoSteps_override _ _ _ _ _ Hsteps Hc) as Hc'.
    split; [done|]. intros lm now p'. by apply resolveCompat_override.
  - intros lm now Hv. unfold overrideOf in *.
    rewrite Store_init_current by done.
    by destruct (modelCompat (data w)).
Qed.

Lemma override_wins_witness :
  resolveCompat Spec.geminiLister 1000 (js "acme") (js "GPT-4o-mini") Spec.acme Spec.pinnedWorld
  = (claude, Spec.pinnedWorld).
Proof.
  exact (proj1 (override_wins (js "acme") (js "GPT-4o-mini") Spec.acme Spec.pinnedWorld
                  claude eq_refl) Spec.geminiLister 1000).
Defined.





(** ** The Gemini adapter *)

Section GeminiFacts.
Import Gemini.
Variables (net : Http.Net) (jitter : nat -> Z).













End GeminiFacts.




(** ** Provider configuration *)

Lemma model_key_not_name (name ml : Js.str) : name <> name ++ sep ++ ml.
Proof.
  intros Heq. apply (f_equal length) in Heq. rewrite !length_app in Heq.
  change (length sep) with 2%nat in Heq. lia.
Qed.

(** The invalidation shared by [add] and [update] drops the cached
    entries of the provider and runs a forced refresh, and leaves every
    per-model key of [compatResolving] where it is. *)
Lemma invalidate_spares_model_keys listModels now name ml w :
  modelCompat (data (Config.invalidate listModels now name w))
    = Obj.del name <$> modelCompat (data w) /\
  RefreshRun true ∈ effects (Config.invalidate listModels now name w) /\
  compatResolving (Config.invalidate listModels now name w) !! (name ++ sep ++ ml)
    = compatResolving w !! (name ++ sep ++ ml).
Proof.
  unfold Config.invalidate, refreshModelCatalog. simpl. split; [done|]. split.
  - rewrite !elem_of_app. left. right. by left.
  - apply lookup_delete_ne, model_key_not_name.
Qed.

(** C9. A resolution for model [gpt-4o] of provider [acme] is in flight
    under the key [acme::gpt-4o] and one entry is cached for the
    provider. [ai config update acme apikey sk-2] drops the cached entry
    and runs a forced refresh, and leaves the resolution in flight, which
    stores its result for the provider again when it ends;
    [ai config remove acme] leaves it in flight as well. *)
Theorem config_change_keeps_pending_resolution :
  let key := js "acme" ++ sep ++ js "gpt-4o" in
  let updated := Config.update Spec.httpsOnly Spec.deadLister 1000
                   (js "acme") (js "apikey") (js "sk-2") Spec.busyWorld in
  let removed := Config.remove Spec.deadLister 1000 (js "acme") Spec.busyWorld in
  compatResolving Spec.busyWorld !! key = Some Spec.pendingTask /\
  overrideOf (data Spec.busyWorld) (js "acme") (js "gpt-4o-mini") = Some openai /\
  updated.1 = Config.Done /\
  overrideOf (data updated.2) (js "acme") (js "gpt-4o-mini") = None /\
  effects updated.2 = [WriteSoon; RefreshRun true; WriteSoon] /\
  compatResolving updated.2 !! key = Some Spec.pendingTask /\
  overrideOf (data (resolveCompat_failed Spec.pendingTask updated.2).2)
             (js "acme") (js "gpt-4o") = Some openai /\
  removed.1 = Config.Done /\
  Obj.get (js "acme") (providers (data removed.2)) = None /\
  compatResolving removed.2 !! key = Some Spec.pendingTask.
Proof. cbv zeta. repeat split; vm_compute; reflexivity. Qed.

(** ** Debounced persistence *)

Section PersistFacts.
Import Persist.
Context {Doc : Type}.
Implicit Types (s : State Doc) (e : Event Doc).

(** Within the delay after a mutation nothing but another mutation can
    happen, and it leaves one timer armed, the new one, and starts no
    write. *)
Lemma debounce_window s e s' :
  Spec.armed s -> step e s = Some s' -> timeOf e < clock s + writeSoonDelay ->
  (exists t doc, e = Mutate t doc /\ clock s' = t /\ memory s' = doc) /\
  Spec.armed s' /\ writes s' = writes s /\ disk s' = disk s.
Proof.
  intros (Hidle & h & Htimer & Harmed) Hstep Hearly. unfold step in Hstep.
  destruct (timeOf e <? clock s) eqn:Hpast; [done|].
  destruct e as [t doc|t h'|t h'|t h']; simpl in *.
  - injection Hstep as <-. split; [by eexists _, _|]. split; [|done].
    split; [done|]. exists (nextHandle s). split; [done|].
    unfold writeSoon. simpl. rewrite Htimer, Harmed. simpl.
    by rewrite Nat.eqb_refl.
  - rewrite Harmed in Hstep. unfold dueOf in Hstep. simpl in Hstep.
    destruct (h =? h')%nat; simpl in Hstep; [|done].
    destruct (clock s + writeSoonDelay <=? t) eqn:Hdue; [|done].
    apply Z.leb_le in Hdue. lia.
  - by rewrite Hidle in Hstep.
  - by rewrite Hidle in Hstep.
Qed.

Lemma dueOf_single h (due : Z) : dueOf h [(h, due)] = Some due.
Proof. unfold dueOf. simpl. by rewrite Nat.eqb_refl. Qed.

Lemma stageOf_single h (x : Doc * Stage) : stageOf h [(h, x)] = Some x.
Proof. unfold stageOf. simpl. by rewrite Nat.eqb_refl. Qed.

Lemma dropWrite_single h (x : Doc * Stage) : dropWrite h [(h, x)] = [].
Proof. unfold dropWrite. simpl. by rewrite Nat.eqb_refl. Qed.

Lemma disarm_single h (due : Z) : disarm h [(h, due)] = [].
Proof. unfold disarm. simpl. by rewrite Nat.eqb_refl. Qed.

(** Once the delay has passed with no further mutation, the timer
    fires, the file is written and renamed: one more write, and the
    file holds the document in memory. *)
Lemma debounce_flush s h t1 t2 t3 :
  Spec.armed s -> writeTimer s = Some h ->
  clock s + writeSoonDelay <= t1 -> t1 <= t2 -> t2 <= t3 ->
  exists s', run [Fire t1 h; Written t2 h; Renamed t3 h] s = Some s' /\
             writes s' = S (writes s) /\ disk s' = Some (memory s) /\
             memory s' = memory s /\ idle s'.
Proof.
  intros (Hidle & h' & Htimer & Harmed) Hh Hdue H12 H23.
  rewrite Htimer in Hh. injection Hh as ->.
  assert (Hnow : clock s <= t1) by (unfold writeSoonDelay in Hdue; lia).
  set (s1 := {| clock := t1; memory := memory s; writeTimer := writeTimer s;
                timers := []; nextHandle := nextHandle s;
                inflight := [(h, (memory s, WritingTmp))];
                tmpFile := tmpFile s; disk := disk s; writes := S (writes s) |}).
  set (s2 := {| clock := t2; memory := memory s; writeTimer := writeTimer s;
                timers := []; nextHandle := nextHandle s;
                inflight := [(h, (memory s, Renaming))];
                tmpFile := Some (memory s); disk := disk s;
                writes := S (writes s) |}).
  set (s3 := {| clock := t3; memory := memory s; writeTimer := None;
                timers := []; nextHandle := nextHandle s;
                inflight := []; tmpFile := None; disk := Some (memory s);
                writes := S (writes s) |}).
  assert (H1 : step (Fire t1 h) s = Some s1).
  { unfold step. cbn [timeOf].
    replace (t1 <? clock s) with false by (symmetry; apply Z.ltb_ge; lia).
    rewrite Harmed, dueOf_single, disarm_single, Hidle.
    by replace (clock s + writeSoonDelay <=? t1) with true
      by (symmetry; by apply Z.leb_le). }
  assert (H2 : step (Written t2 h) s1 = Some s2).
  { unfold step. cbn [timeOf clock s1 inflight].
    replace (t2 <? t1) with false by (symmetry; apply Z.ltb_ge; lia).
    by rewrite stageOf_single, dropWrite_single. }
  assert (H3 : step (Renamed t3 h) s2 = Some s3).
  { unfold step. cbn [timeOf clock s2 inflight].
    replace (t3 <? t2) with false by (symmetry; apply Z.ltb_ge; lia).
    by rewrite stageOf_single, dropWrite_single. }
  exists s3. cbn [run]. rewrite H1, H2, H3. by repeat split.
Qed.

Lemma run_app (evs1 evs2 : list (Event Doc)) s :
  run (evs1 ++ evs2) s = run evs1 s ≫= run evs2.
Proof.
  revert s. induction evs1 as [|e evs1 IH]; intros s; [done|].
  cbn [run app]. destruct (step e s); [apply IH|done].
Qed.

(** A mutation in a state with nothing pending arms the first timer. *)
Lemma first_mutation s t doc :
  idle s -> clock s <= t ->
  exists s', step (Mutate t doc) s = Some s' /\ Spec.armed s' /\ clock s' = t /\
             memory s' = doc /\ writes s' = writes s.
Proof.
  intros (Htimer & Htimers & Hidle) Hnow. unfold step. cbn [timeOf].
  replace (t <? clock s) with false by (symmetry; apply Z.ltb_ge; lia).
  eexists. split; [done|]. unfold writeSoon. simpl. rewrite Htimer, Htimers.
  repeat split; try done. by eexists.
Qed.

(** A burst keeps one timer armed, that of its last mutation, and
    writes nothing. *)
Lemma debounce_burst (ms : list (Z * Doc)) : forall s,
  Spec.armed s -> burst (clock s) ms ->
  exists s', run (List.map (fun m => Mutate m.1 m.2) ms) s = Some s' /\
             Spec.armed s' /\ writes s' = writes s /\
             clock s' = default (clock s) (last (List.map fst ms)) /\
             memory s' = default (memory s) (last (List.map snd ms)).
Proof.
  induction ms as [|[t doc] ms IH]; intros s Harmed Hburst.
  - by exists s.
  - destruct Hburst as (Hnow & Hsoon & Hburst). cbn [List.map run fst snd].
    assert (Hstep : exists s1, step (Mutate t doc) s = Some s1).
    { unfold step. cbn [timeOf].
      replace (t <? clock s) with false by (symmetry; apply Z.ltb_ge; lia).
      by eexists. }
    destruct Hstep as [s1 Hstep]. rewrite Hstep.
    destruct (debounce_window s _ s1 Harmed Hstep Hsoon)
      as ((t' & doc' & [= <- <-] & Hclock & Hmem) & Harmed1 & Hwrites & _).
    rewrite <- Hclock in Hburst.
    destruct (IH s1 Harmed1 Hburst) as (s' & Hrun & Harmed' & Hw' & Hc' & Hm').
    exists s'. split; [done|]. split; [done|]. split; [congruence|].
    rewrite Hc', Hm', Hclock, Hmem, !last_cons.
    split; [by destruct (last (List.map fst ms))|by destruct (last (List.map snd ms))].
Qed.

(** X30. From a state with nothing pending: a mutation, a burst after it,
    and the delay: one write, and the file holds what is in memory. *)
Lemma debounce_one_write s t0 doc0 (ms : list (Z * Doc)) t1 t2 t3 :
  idle s -> clock s <= t0 -> burst t0 ms ->
  default t0 (last (List.map fst ms)) + writeSoonDelay <= t1 -> t1 <= t2 -> t2 <= t3 ->
  exists h s',
    run (Mutate t0 doc0 :: List.map (fun m => Mutate m.1 m.2) ms
         ++ [Fire t1 h; Written t2 h; Renamed t3 h]) s = Some s' /\
    writes s' = S (writes s) /\ disk s' = Some (memory s') /\
    memory s' = default doc0 (last (List.map snd ms)) /\ idle s'.
Proof.
  intros Hidle Hnow Hburst Hdue H12 H23.
  destruct (first_mutation s t0 doc0 Hidle Hnow) as (s0 & Hstep & Harmed & Hc0 & Hm0 & Hw0).
  rewrite <- Hc0 in Hburst.
  destruct (debounce_burst ms s0 Harmed Hburst) as (s1 & Hrun & Harmed1 & Hw1 & Hc1 & Hm1).
  pose proof Harmed1 as (_ & h & Hh & _).
  destruct (debounce_flush s1 h t1 t2 t3 Harmed1 Hh) as (s' & Hflush & Hw' & Hd' & Hm' & Hidle');
    [rewrite Hc1, Hc0; lia|done..|].
  exists h, s'. split.
  - cbn [run]. rewrite Hstep, run_app, Hrun. exact Hflush.
  - rewrite Hw', Hd', Hm', Hm1, Hm0, Hw1, Hw0. by do 3 (split; [done|]).
Qed.
End PersistFacts.

Lemma debounce_one_write_witness :
  exists h s',
    Persist.run (Persist.Mutate 10 1
                 :: List.map (fun m => Persist.Mutate m.1 m.2) Spec.threeEdits
                 ++ [Persist.Fire 550 h; Persist.Written 552 h; Persist.Renamed 555 h])
                (Persist.start 0) = Some s' /\
    Persist.writes s' = S (Persist.writes (Persist.start 0)) /\
    Persist.disk s' = Some (Persist.memory s') /\
    Persist.memory s' = default 1 (last (List.map snd Spec.threeEdits)) /\
    Persist.idle s'.
Proof.
  apply (debounce_one_write (Persist.start 0) 10 1 Spec.threeEdits 550 552 555).
  - done.
  - cbn. lia.
  - cbn. unfold Persist.writeSoonDelay. lia.
  - cbn. unfold Persist.writeSoonDelay. lia.
  - lia.
  - lia.
Defined.

(** C8. A mutation is written after its delay; while that write is
    under way a burst of two mutations begins, the second 90 ms after
    the first. The end of the write resets [_writeTimer], so the second
    mutation cancels nothing: two timers are armed and the burst is
    written twice, three writes in all for two bursts. *)
Theorem writeSoon_race_two_writes :
  (Persist.timers <$> Persist.run (take 6 Spec.raceSchedule) (Persist.start 0))
    = Some [(1%nat, 610); (2%nat, 700)] /\
  (Persist.writes <$> Persist.run (take 6 Spec.raceSchedule) (Persist.start 0))
    = Some 1%nat /\
  (Persist.writes <$> Persist.run Spec.raceSchedule (Persist.start 0)) = Some 3%nat /\
  (Persist.disk <$> Persist.run Spec.raceSchedule (Persist.start 0)) = Some (Some 3).
Proof. repeat split; vm_compute; reflexivity. Qed.

(** ** Text shown to the user *)

(** The code units of the literals of a hypothesis. *)
Ltac literals H :=
  repeat match type of H with
         | context [Js.lit ?s] =>
             let v := eval vm_compute in (Js.lit s) in
             change (Js.lit s) with v in H
         end.

Section HtmlFacts.
Import Text.

Lemma replaceAll_app c by_ a b :
  Js.replaceAll c by_ (a ++ b) = Js.replaceAll c by_ a ++ Js.replaceAll c by_ b.
Proof. unfold Js.replaceAll. by rewrite flat_map_app. Qed.

Lemma html_app a b : html (a ++ b) = html a ++ html b.
Proof. unfold html. by rewrite !replaceAll_app. Qed.

Lemma html_unit c : html [c] = Spec.entity c.
Proof.
  unfold html, Spec.entity.
  destruct (N.eqb_spec c 38) as [->|H38]; [done|].
  destruct (N.eqb_spec c 60) as [->|H60]; [done|].
  destruct (N.eqb_spec c 62) as [->|H62]; [done|].
  destruct (N.eqb_spec c 34) as [->|H34]; [done|].
  destruct (N.eqb_spec c 39) as [->|H39]; [done|].
  unfold Js.replaceAll. cbn [flat_map app].
  rewrite (proj2 (N.eqb_neq c 38) H38). cbn [flat_map app].
  rewrite (proj2 (N.eqb_neq c 60) H60). cbn [flat_map app].
  rewrite (proj2 (N.eqb_neq c 62) H62). cbn [flat_map app].
  rewrite (proj2 (N.eqb_neq c 34) H34). cbn [flat_map app].
  by rewrite (proj2 (N.eqb_neq c 39) H39).
Qed.

(** The five passes amount to one substitution, unit by unit. *)
Lemma html_units t : html t = flat_map Spec.entity t.
Proof.
  induction t as [|c t IH]; [done|].
  change (c :: t) with ([c] ++ t). rewrite html_app, html_unit, IH. done.
Qed.

Lemma entity_cases c :
  (c = 38%N /\ Spec.entity c = js "&amp;") \/
  (c = 60%N /\ Spec.entity c = js "&lt;") \/
  (c = 62%N /\ Spec.entity c = js "&gt;") \/
  (c = 34%N /\ Spec.entity c = js "&quot;") \/
  (c = 39%N /\ Spec.entity c = js "&#39;") \/
  (c <> 38%N /\ ~ Spec.markup c /\ Spec.entity c = [c]).
Proof.
  unfold Spec.entity, Spec.markup.
  destruct (N.eqb_spec c 38) as [->|?]; [by left|].
  destruct (N.eqb_spec c 60) as [->|?]; [by right; left|].
  destruct (N.eqb_spec c 62) as [->|?]; [by right; right; left|].
  destruct (N.eqb_spec c 34) as [->|?]; [by right; right; right; left|].
  destruct (N.eqb_spec c 39) as [->|?]; [by right; right; right; right; left|].
  right; right; right; right; right. split; [done|]. split; [|done]. intuition.
Qed.

(** X1. Escaped text holds no markup unit. *)
Theorem html_no_markup (t : Js.str) : Forall (fun c => ~ Spec.markup c) (html t).
Proof.
  apply Forall_forall. intros c. rewrite html_units. intros Hin.
  apply list_elem_of_In, in_flat_map in Hin. destruct Hin as (x & _ & Hx).
  apply list_elem_of_In in Hx.
  destruct (entity_cases x) as [[-> E]|[[-> E]|[[-> E]|[[-> E]|[[-> E]|(_ & Hm & E)]]]]];
    rewrite E in Hx.
  1-5: apply list_elem_of_In in Hx; vm_compute in Hx;
       intros [|[|[|]]]; subst c; intuition discriminate.
  apply list_elem_of_singleton in Hx. by subst.
Qed.

Lemma html_units_injective (a b : Js.str) :
  flat_map Spec.entity a = flat_map Spec.entity b -> a = b.
Proof.
  revert b.
  induction a as [|x a IH]; intros [|y b]; cbn [flat_map]; intros Heq.
  - done.
  - destruct (entity_cases y) as [[-> E]|[[-> E]|[[-> E]|[[-> E]|[[-> E]|(_ & _ & E)]]]]];
      rewrite E in Heq; discriminate Heq.
  - destruct (entity_cases x) as [[-> E]|[[-> E]|[[-> E]|[[-> E]|[[-> E]|(_ & _ & E)]]]]];
      rewrite E in Heq; discriminate Heq.
  - destruct (entity_cases x) as [[-> E]|[[-> E]|[[-> E]|[[-> E]|[[-> E]|(Hx & _ & E)]]]]];
    destruct (entity_cases y) as [[-> F]|[[-> F]|[[-> F]|[[-> F]|[[-> F]|(Hy & _ & F)]]]]];
    rewrite ?E, ?F in Heq; literals Heq; cbn [app] in Heq;
    try discriminate Heq; try (injection Heq as Heq; f_equal; by apply IH);
    try (injection Heq as Heq1 Heq; congruence);
    injection Heq as -> Heq; f_equal; by apply IH.
Qed.

(** X2. Escaping loses nothing: two different texts never escape to the
    same text. *)
Theorem html_injective (a b : Js.str) : a <> b -> html a <> html b.
Proof. intros Hne Heq. apply Hne, html_units_injective. by rewrite <- !html_units. Qed.
End HtmlFacts.

Section TrimFacts.

Lemma trimStart_suffix s : Js.trimStart s `suffix_of` s.
Proof.
  induction s as [|c s IH]; cbn [Js.trimStart]; [done|].
  destruct (Js.isSpaceUnit c); [by apply suffix_cons_r|done].
Qed.

Lemma trimStart_head s c rest : Js.trimStart s = c :: rest -> Js.isSpaceUnit c = false.
Proof.
  induction s as [|x s IH]; cbn [Js.trimStart]; [done|].
  destruct (Js.isSpaceUnit x) eqn:Hx; [done|]. by intros [= <- _].
Qed.

Lemma trimStart_id c s : Js.isSpaceUnit c = false -> Js.trimStart (c :: s) = c :: s.
Proof. intros H. cbn [Js.trimStart]. by rewrite H. Qed.

Lemma trimStart_idem s : Js.trimStart (Js.trimStart s) = Js.trimStart s.
Proof.
  destruct (Js.trimStart s) as [|c rest] eqn:E; [done|].
  apply trimStart_id. by eapply trimStart_head.
Qed.

(** What [trim] returns is empty, or begins and ends with a unit that
    is not white space. *)
Lemma trim_ends s :
  Js.trim s = [] \/
  exists c mid d, (Js.trim s = [c] \/ Js.trim s = c :: mid ++ [d]) /\
                  Js.isSpaceUnit c = false /\ Js.isSpaceUnit d = false /\
                  (Js.trim s = [c] -> d = c).
Proof.
  unfold Js.trim.
  destruct (Js.trimStart s) as [|c a] eqn:Ea; [by left|].
  pose proof (trimStart_head _ _ _ Ea) as Hc.
  destruct (Js.trimStart (rev (c :: a))) as [|d b] eqn:Eb.
  { exfalso. cbn [rev] in Eb. pose proof (trimStart_suffix (rev a ++ [c])) as Hs.
    assert (Js.trimStart (rev a ++ [c]) <> []); [|done].
    clear -Hc. induction (rev a) as [|x l IH]; cbn [app Js.trimStart].
    - by rewrite Hc.
    - by destruct (Js.isSpaceUnit x). }
  pose proof (trimStart_head _ _ _ Eb) as Hd.
  pose proof (trimStart_suffix (rev (c :: a))) as [pre Hpre]. rewrite Eb in Hpre.
  right.
  assert (Hrev : c :: a = rev b ++ d :: rev pre).
  { rewrite <- (rev_involutive (c :: a)), Hpre, rev_app_distr. cbn [rev].
    by rewrite <- app_assoc. }
  cbn [rev].
  destruct (rev b) as [|c' mid] eqn:Erb.
  - cbn [app] in *. injection Hrev as -> _. exists d, [], d. by repeat split; [left|..].
  - cbn [app] in *. injection Hrev as <- _. exists c, mid, d.
    split; [by right|]. repeat split; try done.
    intros [= H]. by destruct mid.
Qed.

Lemma trim_fixed c mid d :
  Js.isSpaceUnit c = false -> Js.isSpaceUnit d = false ->
  Js.trim (c :: mid ++ [d]) = c :: mid ++ [d].
Proof.
  intros Hc Hd. unfold Js.trim. rewrite (trimStart_id _ _ Hc).
  change (c :: mid ++ [d]) with ((c :: mid) ++ [d]).
  rewrite rev_app_distr. cbn [rev app]. rewrite (trimStart_id _ _ Hd).
  change (d :: rev mid ++ [c]) with ([d] ++ rev (c :: mid)).
  by rewrite rev_app_distr, rev_involutive.
Qed.

Lemma trim_fixed_one c : Js.isSpaceUnit c = false -> Js.trim [c] = [c].
Proof. intros Hc. unfold Js.trim. cbn. rewrite Hc. cbn. by rewrite Hc. Qed.

Lemma trim_trimmed s : Spec.trimmed (Js.trim s).
Proof.
  unfold Spec.trimmed.
  destruct (trim_ends s) as [->|(c & mid & d & [E|E] & Hc & Hd & _)]; [done|..];
    rewrite E.
  - by apply trim_fixed_one.
  - by apply trim_fixed.
Qed.

Lemma trim_elem c s : c ∈ Js.trim s -> c ∈ s.
Proof.
  unfold Js.trim. intros H.
  destruct (trimStart_suffix s) as [k1 H1].
  destruct (trimStart_suffix (rev (Js.trimStart s))) as [k2 H2].
  rewrite H1. apply elem_of_app. right.
  apply list_elem_of_In, in_rev, list_elem_of_In. rewrite H2.
  apply elem_of_app. right. by apply list_elem_of_In, in_rev, list_elem_of_In.
Qed.

(** [trim] keeps a last unit that is not white space. *)
Lemma trim_last s c :
  last s = Some c -> Js.isSpaceUnit c = false -> last (Js.trim s) = Some c.
Proof.
  intros Hlast Hc.
  destruct (last_Some s c) as [[pre ->] _]; [done|].
  assert (Hne : forall l, Js.trimStart (l ++ [c]) = Js.trimStart l ++ [c] \/
                          Js.trimStart (l ++ [c]) = [c]).
  { induction l as [|x l IH]; cbn [app Js.trimStart].
    - rewrite Hc. by right.
    - destruct (Js.isSpaceUnit x); [done|by left]. }
  unfold Js.trim.
  destruct (Hne pre) as [E|E]; rewrite E.
  - rewrite rev_app_distr. cbn [rev app]. rewrite (trimStart_id _ _ Hc).
    change (c :: rev (Js.trimStart pre)) with ([c] ++ rev (Js.trimStart pre)).
    rewrite rev_app_distr, rev_involutive. cbn [rev app]. by rewrite last_snoc.
  - cbn. by rewrite Hc.
Qed.
End TrimFacts.

Section NormalizeFacts.
Import Text.

Lemma indexOf_range c s : -1 <= Js.indexOf c s.
Proof.
  induction s as [|x s IH]; cbn [Js.indexOf]; [lia|].
  destruct (x =? c)%N; [lia|]. destruct (Js.indexOf c s <? 0) eqn:E; lia.
Qed.

Lemma indexOf_absent c s : c ∉ s -> Js.indexOf c s = -1.
Proof.
  induction s as [|x s IH]; cbn [Js.indexOf]; [done|].
  intros Hin. apply not_elem_of_cons in Hin as [Hne Hin].
  rewrite (proj2 (N.eqb_neq x c)) by done. rewrite (IH Hin). done.
Qed.

Lemma indexOf_prefix c s :
  0 <= Js.indexOf c s -> c ∉ take (Z.to_nat (Js.indexOf c s)) s.
Proof.
  induction s as [|x s IH]; cbn [Js.indexOf]; [lia|].
  destruct (N.eqb_spec x c) as [->|Hne]; [intros _; cbn; apply not_elem_of_nil|].
  destruct (Js.indexOf c s <? 0) eqn:E; [lia|]. intros _.
  apply Z.ltb_ge in E. replace (Z.to_nat (1 + Js.indexOf c s))
    with (S (Z.to_nat (Js.indexOf c s))) by lia.
  cbn [take]. apply not_elem_of_cons. split; [done|by apply IH].
Qed.

Lemma indexOf_present c s : c ∈ s -> 0 <= Js.indexOf c s.
Proof.
  induction s as [|x s IH]; cbn [Js.indexOf]; [by intros ?%elem_of_nil|].
  destruct (N.eqb_spec x c) as [->|Hne]; [done|].
  intros [?|Hin]%elem_of_cons; [congruence|].
  specialize (IH Hin). destruct (Js.indexOf c s <? 0) eqn:E; lia.
Qed.

Lemma cutAt_clean c s : c ∉ cutAt c s.
Proof.
  unfold cutAt. destruct (0 <=? Js.indexOf c s) eqn:E.
  - apply Z.leb_le in E. unfold Js.slice. rewrite Nat.sub_0_r. cbn [drop].
    by apply indexOf_prefix.
  - apply Z.leb_gt in E. intros Hin%indexOf_present. lia.
Qed.

Lemma cutAt_id c s : c ∉ s -> cutAt c s = s.
Proof. intros H. unfold cutAt. by rewrite (indexOf_absent _ _ H). Qed.

Lemma cutAt_elem x c s : x ∈ cutAt c s -> x ∈ s.
Proof.
  unfold cutAt. destruct (0 <=? Js.indexOf c s); [|done].
  unfold Js.slice. cbn [drop]. intros H. eapply elem_of_prefix; [done|apply prefix_take].
Qed.

Lemma startsWith_nil s : Js.startsWith s [] = true.
Proof. by destruct s. Qed.

Lemma includes_unit s c : Js.includes s [c] = true <-> c ∈ s.
Proof.
  induction s as [|x s IH]; cbn [Js.includes Js.startsWith].
  - split; [done|by intros ?%elem_of_nil].
  - rewrite startsWith_nil, andb_true_r, orb_true_iff, IH, elem_of_cons, N.eqb_eq.
    split; (intros [->|?]; [by left|by right]).
Qed.

(** The pieces of [split]: the whole string when the separator does
    not occur, else what follows its last occurrence comes last. *)
Lemma split_decomp sep s :
  ((sep ∉ s) /\ Js.split sep s = [s]) \/
  (exists pre seg L, s = pre ++ sep :: seg /\ (sep ∉ seg) /\
                     Js.split sep s = L ++ [seg] /\ L <> []).
Proof.
  induction s as [|c s IH]; cbn [Js.split].
  - left. split; [apply not_elem_of_nil|done].
  - destruct (N.eqb_spec c sep) as [->|Hne].
    + right. destruct IH as [[Hout ->]|(pre & seg & L & -> & Hout & -> & HL)].
      * by exists [], s, [[]].
      * by exists (sep :: pre), seg, ([] :: L).
    + destruct IH as [[Hout ->]|(pre & seg & L & -> & Hout & -> & HL)].
      * left. split; [|done]. by apply not_elem_of_cons.
      * right. destruct L as [|l L]; [done|].
        by exists (c :: pre), seg, ((c :: l) :: L).
Qed.

Lemma normalize_shape (s : Js.str) :
  let s' := if Js.includes s (js "/")
            then Js.or_else (default [] (last (Js.split 47 s))) s else s in
  ((47%N ∉ s') /\ forall x, x ∈ s' -> x ∈ s) \/ (s' = s /\ last s = Some 47%N).
Proof.
  cbn zeta. change (js "/") with [47%N].
  destruct (Js.includes s [47%N]) eqn:Hinc.
  - apply includes_unit in Hinc.
    destruct (split_decomp 47 s) as [[Hout _]|(pre & seg & L & -> & Hout & -> & HL)];
      [done|].
    rewrite last_snoc. cbn [default]. unfold Js.or_else.
    destruct seg as [|y seg]; cbn [Js.truthy].
    + right. split; [done|]. by rewrite last_snoc.
    + left. split; [done|]. intros x Hx. apply elem_of_app. right. by right.
  - left. split; [|done]. intros Hin%includes_unit. congruence.
Qed.

(** What the steps of [normalizeModelName] leave of a name. *)
Lemma normalize_result (x : ModelRef) :
  Js.trim (normalizeModelName x) = normalizeModelName x /\
  (63%N ∉ normalizeModelName x) /\ (35%N ∉ normalizeModelName x) /\
  (47%N ∈ normalizeModelName x -> last (normalizeModelName x) = Some 47%N).
Proof.
  unfold normalizeModelName.
  set (s0 := Js.trim (refText x)).
  set (s3 := cutAt 35 (cutAt 63 s0)).
  assert (H63 : 63%N ∉ s3).
  { intros H%cutAt_elem. by apply cutAt_clean in H. }
  assert (H35 : 35%N ∉ s3) by apply cutAt_clean.
  pose proof (normalize_shape s3) as Hshape. cbn zeta in Hshape.
  set (s4 := if Js.includes s3 (js "/") then _ else _) in *.
  split; [apply trim_trimmed|].
  destruct Hshape as [[Hno Hsub]|[Heq Hlast]].
  - split; [intros H%trim_elem%Hsub; done|].
    split; [intros H%trim_elem%Hsub; done|].
    intros H%trim_elem. done.
  - rewrite Heq. split; [by intros H%trim_elem|]. split; [by intros H%trim_elem|].
    intros _. by apply trim_last.
Qed.

(** X3. A normalised name is trimmed, holds neither [?] nor [#], and
    holds a slash only as its last unit. *)
Theorem normalizeModelName_clean (x : ModelRef) :
  let r := normalizeModelName x in
  Spec.trimmed r /\ (63%N ∉ r) /\ (35%N ∉ r) /\ (47%N ∈ r -> last r = Some 47%N).
Proof.
  cbn zeta. unfold Spec.trimmed.
  destruct (normalize_result x) as (Htrim & H63 & H35 & Hslash).
  by repeat split.
Qed.

(** X4. Normalising a normalised name changes nothing. *)
Theorem normalizeModelName_idempotent (x : ModelRef) :
  normalizeModelName (RefString (normalizeModelName x)) = normalizeModelName x.
Proof.
  destruct (normalize_result x) as (Htrim & H63 & H35 & Hslash).
  set (r := normalizeModelName x) in *.
  unfold normalizeModelName at 1. cbn [refText].
  rewrite Htrim, (cutAt_id _ _ H63), (cutAt_id _ _ H35).
  destruct (normalize_shape r) as [[Hno Hsub]|[Heq Hlast]]; cbn zeta in *.
  - destruct (Js.includes r (js "/")) eqn:Hinc; [|done].
    change (js "/") with [47%N] in Hinc. apply includes_unit in Hinc.
    specialize (Hslash Hinc).
    destruct (split_decomp 47 r) as [[Hout _]|(pre & seg & L & Hr & Hout & Hs & HL)];
      [done|].
    rewrite Hs, last_snoc in *. cbn [default] in *.
    rewrite Hr, last_app_cons in Hslash.
    destruct seg as [|y seg].
    + unfold Js.or_else. cbn [Js.truthy]. done.
    + exfalso. apply Hout. cbn [last] in Hslash.
      assert (last (y :: seg) = Some 47%N) as Hl by (by destruct seg).
      apply last_Some in Hl as [l' Hl]. rewrite Hl. apply elem_of_app. right. by left.
  - by rewrite Heq.
Qed.
End NormalizeFacts.

Section UrlFacts.
Import Text.
Variable parseUrl : Js.str -> option (Js.str * Js.str).

Lemma abbreviate_length text :
  (60 < length text)%nat -> length (abbreviate text) = 56%nat.
Proof.
  intros H. unfold abbreviate, Js.slice, Js.sliceLast.
  rewrite !length_app, length_take, !length_drop. cbn [length]. lia.
Qed.

(** X5. The text shown for a URL has at most 60 code units, unless the
    URL parses to an empty host and path, when the URL itself is shown. *)
Theorem shortenUrlForDisplay_length (u : Js.str) :
  (length (shortenUrlForDisplay parseUrl u) <= 60)%nat \/
  (shortenUrlForDisplay parseUrl u = u /\
   exists pathname, parseUrl u = Some ([], pathname) /\
                    (pathname = [] \/ pathname = js "/")).
Proof.
  unfold shortenUrlForDisplay.
  destruct (parseUrl u) as [[host pathname]|] eqn:Hparse.
  - set (path := if Js.truthy pathname && negb (Js.eqb pathname (js "/"))
                 then pathname else []).
    destruct (60 <? length (host ++ path))%nat eqn:Hlong.
    + apply Nat.ltb_lt in Hlong. left.
      pose proof (abbreviate_length _ Hlong) as Hlen.
      unfold Js.or_else. destruct (abbreviate (host ++ path)); [done|].
      cbn [Js.truthy]. lia.
    + apply Nat.ltb_ge in Hlong. unfold Js.or_else.
      destruct (host ++ path) as [|c text] eqn:Htext; cbn [Js.truthy]; [|by left].
      right. split; [done|]. apply app_eq_nil in Htext as [-> Hpath].
      exists pathname. split; [done|]. subst path.
      destruct pathname as [|c pathname]; [by left|]. cbn [Js.truthy andb] in Hpath.
      unfold Js.eqb in Hpath. case_bool_decide; [by right|done].
  - left. destruct (60 <? length u)%nat eqn:Hlong.
    + apply Nat.ltb_lt in Hlong. rewrite (abbreviate_length _ Hlong). lia.
    + by apply Nat.ltb_ge in Hlong.
Qed.
End UrlFacts.

(** [trimBase] takes one trailing slash away, and only that. *)
Lemma trimBase_trailing_slash (u : Js.str) :
  Js.trimBase (u ++ js "/") = u /\
  (last u <> Some 47%N -> Js.trimBase u = u).
Proof.
  split.
  - induction u as [|c u IH]; [done|].
    cbn [app]. cbn [Js.trimBase]. change (js "/") with [47%N] in *.
    destruct (u ++ [47%N]) eqn:E; [by destruct u|]. by rewrite IH.
  - induction u as [|c u IH]; [done|]. intros Hlast.
    destruct u as [|d u].
    + cbn. destruct (N.eqb_spec c 47) as [->|]; [done|done].
    + change (Js.trimBase (c :: d :: u)) with (c :: Js.trimBase (d :: u)).
      f_equal. by apply IH.
Qed.

Lemma html_injective_witness : Text.html (js "<") <> Text.html (js "&lt;").
Proof. apply (html_injective (js "<") (js "&lt;")). discriminate. Defined.

(** ** The window of a digest and its prompt *)

Section DigitFacts.

Lemma digitsFuel_spec fuel : forall n acc,
  (0 < fuel)%nat -> (n < 10 ^ N.of_nat fuel)%N ->
  exists ds, Js.digitsFuel fuel n acc = ds ++ acc /\ ds <> [] /\
             forallb Obj.isDigit ds = true /\
             (forall a, Spec.valueOf ds a = a * 10 ^ N.of_nat (length ds) + n)%N /\
             (forall k, (0 < k)%nat -> (n < 10 ^ N.of_nat k)%N -> (length ds <= k)%nat).
Proof.
  induction fuel as [|f IH]; intros n acc Hpos Hlt; [lia|].
  cbn [Js.digitsFuel]. cbv zeta.
  pose proof (N.mod_upper_bound n 10 ltac:(discriminate)) as Hm.
  pose proof (N.div_mod n 10 ltac:(discriminate)) as Hn.
  set (m := (n mod 10)%N) in *. set (q := (n / 10)%N) in *. clearbody m q.
  assert (Hd : Obj.isDigit (48 + m) = true).
  { unfold Obj.isDigit. apply andb_true_iff. split; apply N.leb_le; lia. }
  destruct (N.ltb_spec n 10) as [Hsmall|Hbig].
  - exists [(48 + m)%N]. split; [done|]. split; [done|].
    split; [cbn; by rewrite Hd|]. split.
    + intros a. unfold Spec.valueOf. cbn [fold_left length].
      change (N.of_nat 1) with 1%N. rewrite N.pow_1_r. lia.
    + intros k Hk _. cbn. lia.
  - assert (Hf : (0 < f)%nat).
    { destruct f; [|lia]. change (10 ^ N.of_nat 1)%N with 10%N in Hlt. lia. }
    assert (Hdiv : (q < 10 ^ N.of_nat f)%N).
    { rewrite Nat2N.inj_succ, N.pow_succ_r' in Hlt. lia. }
    destruct (IH q ((48 + m)%N :: acc) Hf Hdiv)
      as (ds & Heq & Hne & Hdig & Hval & Hlen).
    exists (ds ++ [(48 + m)%N]). split; [by rewrite Heq, <- app_assoc|].
    split; [by destruct ds|]. split.
    { rewrite forallb_app, Hdig. cbn. by rewrite Hd. }
    split.
    + intros a. unfold Spec.valueOf in *. rewrite fold_left_app, Hval. cbn [fold_left].
      rewrite length_app. cbn [length]. rewrite Nat.add_1_r, Nat2N.inj_succ, N.pow_succ_r'.
      lia.
    + intros k Hk Hnk. rewrite length_app. cbn [length].
      destruct k as [|k]; [lia|].
      assert (Hk' : (0 < k)%nat).
      { destruct k; [|lia]. change (10 ^ N.of_nat 1)%N with 10%N in Hnk. lia. }
      assert (Hdivk : (q < 10 ^ N.of_nat k)%N).
      { rewrite Nat2N.inj_succ, N.pow_succ_r' in Hnk. lia. }
      specialize (Hlen k Hk' Hdivk). lia.
Qed.

(** The decimal form of a number: digits only, read back as the number,
    and no longer than its size requires. *)
Lemma ofNat_spec n :
  Js.ofNat n <> [] /\ forallb Obj.isDigit (Js.ofNat n) = true /\
  Obj.decimalValue (Js.ofNat n) = N.of_nat n /\
  (forall k, (0 < k)%nat -> (N.of_nat n < 10 ^ N.of_nat k)%N ->
             (length (Js.ofNat n) <= k)%nat).
Proof.
  unfold Js.ofNat.
  destruct (digitsFuel_spec (S n) (N.of_nat n) [] ltac:(lia)) as (ds & -> & Hne & Hd & Hv & Hl).
  { apply N.lt_le_trans with (10 ^ N.of_nat n)%N; [apply N.pow_gt_lin_r; lia|].
    apply N.pow_le_mono_r; lia. }
  rewrite app_nil_r. split; [done|]. split; [done|]. split; [|done].
  unfold Obj.decimalValue. specialize (Hv 0%N). unfold Spec.valueOf in Hv. rewrite Hv. lia.
Qed.

Lemma isDigit_not_space c : Obj.isDigit c = true -> Js.isSpaceUnit c = false.
Proof.
  unfold Obj.isDigit, Js.isSpaceUnit. intros [H1 H2]%andb_true_iff.
  apply N.leb_le in H1, H2.
  repeat (apply orb_false_iff; split);
    try (apply andb_false_iff; ((left; apply N.leb_gt; lia) || (right; apply N.leb_gt; lia)));
    apply N.eqb_neq; lia.
Qed.

Lemma trim_word s : Spec.word s -> Js.trim s = s.
Proof.
  intros Hw. destruct s as [|c s]; [done|].
  destruct (rev s) as [|d m] eqn:E.
  - apply (f_equal (@rev N)) in E. rewrite rev_involutive in E. subst s.
    apply trim_fixed_one. by inversion Hw.
  - apply (f_equal (@rev N)) in E. rewrite rev_involutive in E. cbn [rev] in E. subst s.
    apply trim_fixed; [by inversion Hw|].
    apply Forall_cons in Hw as [_ Hw]. apply Forall_app in Hw as [_ Hw].
    by inversion Hw.
Qed.

Lemma digits_word s : forallb Obj.isDigit s = true -> Spec.word s.
Proof.
  intros H. apply Forall_forall. intros c Hc. apply isDigit_not_space.
  rewrite forallb_forall in H. apply H. by apply list_elem_of_In.
Qed.
End DigitFacts.

Section CgFacts.
Import Cg.

Lemma takeDigits_all s : forallb Obj.isDigit s = true -> Num.takeDigits s = s.
Proof.
  induction s as [|c s IH]; cbn [forallb Num.takeDigits]; [done|].
  intros [-> H]%andb_true_iff. by rewrite IH.
Qed.

(** A string of digits is read as the number it writes. *)
Lemma parseInt_digits s :
  allDigits s = true -> Num.parseInt s = Some (Z.of_N (Obj.decimalValue s)).
Proof.
  unfold allDigits. intros [Hne Hd]%andb_true_iff. unfold Num.parseInt. cbv zeta.
  destruct s as [|c s]; [done|].
  pose proof Hd as Hd'. cbn [forallb] in Hd'. apply andb_true_iff in Hd' as [Hc _].
  rewrite (trimStart_id _ _ (isDigit_not_space _ Hc)).
  assert (c <> 45%N /\ c <> 43%N) as [H45 H43].
  { unfold Obj.isDigit in Hc. apply andb_true_iff in Hc as [H1 H2].
    apply N.leb_le in H1, H2. split; lia. }
  assert ((let '(negative, rest) :=
             match c :: s with
             | 45%N :: r => (true, r) | 43%N :: r => (false, r) | _ => (false, c :: s)
             end in
           if Js.truthy (Num.takeDigits rest)
           then Some ((if negative then -1 else 1) * Z.of_N (Obj.decimalValue (Num.takeDigits rest)))
           else None) =
          (if Js.truthy (Num.takeDigits (c :: s))
           then Some (1 * Z.of_N (Obj.decimalValue (Num.takeDigits (c :: s)))) else None)) as ->.
  { destruct c as [|p]; [done|].
    do 6 (destruct p as [p|p|]; try done). }
  rewrite (takeDigits_all _ Hd). cbn [Js.truthy]. f_equal. lia.
Qed.

(** X6. A window that is accepted lies in range: 1 to 10000 messages, or
    1 minute to 7 days. *)
Theorem parseTimeOrCount_range (input : Js.str) (w : Window) :
  parseTimeOrCount input = Some w ->
  match w with
  | ByCount n => 1 <= n <= 10000
  | ByTime m => 1 <= m <= 10080
  end.
Proof.
  unfold parseTimeOrCount. cbv zeta.
  destruct (allDigits (Js.trim input)).
  - destruct (Num.parseInt (Js.trim input)) as [count|]; cbn [holds fmap option_fmap option_map];
      [|done].
    destruct (Z.ltb_spec 0 count); cbn [andb]; [|done].
    destruct (Z.leb_spec count 10000); [|done].
    intros [= <-]. lia.
  - destruct (timeMatch (Js.trim input)) as [[digits unit]|]; [|done].
    destruct (holds (fun v => v <=? 0) (Num.parseInt digits)); [done|].
    set (minutes := if (unit =? 109)%N then _ else _).
    destruct minutes as [m|]; cbn [holds fmap option_fmap option_map]; [|done].
    destruct (Z.ltb_spec 0 m); cbn [andb]; [|done].
    destruct (Z.leb_spec m (7 * 24 * 60)); [|done].
    intros [= <-]. lia.
Qed.

Lemma allDigits_ofNat n : allDigits (Js.ofNat n) = true.
Proof.
  destruct (ofNat_spec n) as (Hne & Hd & _). unfold allDigits. rewrite Hd.
  by destruct (Js.ofNat n).
Qed.

Lemma parseInt_ofNat n : Num.parseInt (Js.ofNat n) = Some (Z.of_nat n).
Proof.
  rewrite (parseInt_digits _ (allDigits_ofNat n)).
  destruct (ofNat_spec n) as (_ & _ & -> & _). f_equal. lia.
Qed.

(** X7. The decimal form of a count from 1 to 10000 is read back as that
    count. *)
Theorem parseTimeOrCount_count (n : nat) :
  1 <= Z.of_nat n <= 10000 ->
  parseTimeOrCount (Js.ofNat n) = Some (ByCount (Z.of_nat n)).
Proof.
  intros Hn. unfold parseTimeOrCount. cbv zeta.
  destruct (ofNat_spec n) as (Hne & Hd & Hv & _).
  rewrite (trim_word _ (digits_word _ Hd)), allDigits_ofNat, parseInt_ofNat.
  cbn [holds fmap option_fmap option_map].
  destruct (Z.ltb_spec 0 (Z.of_nat n)); [|lia].
  destruct (Z.leb_spec (Z.of_nat n) 10000); [done|lia].
Qed.

(** X8. A number followed by a unit letter, in either case, is read as
    that many minutes, hours or days, as long as it is at least 1 and
    spans at most 7 days. *)
Theorem parseTimeOrCount_time (n : nat) (u : N) (f : Z) :
  Spec.unitMinutes u = Some f -> 1 <= Z.of_nat n -> Z.of_nat n * f <= 10080 ->
  parseTimeOrCount (Js.ofNat n ++ [u]) = Some (ByTime (Z.of_nat n * f)).
Proof.
  intros Hu Hn Hmax. unfold parseTimeOrCount. cbv zeta.
  destruct (ofNat_spec n) as (Hne & Hd & Hv & _).
  assert (Hletter : Obj.isDigit u = false /\ Js.isSpaceUnit u = false /\
                    ((Js.lowerUnit u = 109%N /\ f = 1) \/
                     (Js.lowerUnit u = 104%N /\ f = 60) \/
                     (Js.lowerUnit u = 100%N /\ f = 1440))).
  { unfold Spec.unitMinutes in Hu.
    destruct (N.eqb_spec u 109) as [->|]; [injection Hu as <-; by auto|].
    destruct (N.eqb_spec u 77) as [->|]; [injection Hu as <-; by auto|].
    destruct (N.eqb_spec u 104) as [->|]; [injection Hu as <-; by auto 6|].
    destruct (N.eqb_spec u 72) as [->|]; [injection Hu as <-; by auto 6|].
    destruct (N.eqb_spec u 100) as [->|]; [injection Hu as <-; by auto 6|].
    destruct (N.eqb_spec u 68) as [->|]; [injection Hu as <-; by auto 6|].
    done. }
  destruct Hletter as (Hnd & Hns & Hunit).
  assert (Hword : Spec.word (Js.ofNat n ++ [u])).
  { apply Forall_app. split; [by apply digits_word|]. by apply Forall_singleton. }
  rewrite (trim_word _ Hword).
  assert (allDigits (Js.ofNat n ++ [u]) = false) as ->.
  { unfold allDigits. rewrite forallb_app. cbn. rewrite Hnd, andb_false_r. apply andb_false_r. }
  unfold timeMatch. rewrite last_snoc, length_app. cbn [length].
  replace (length (Js.ofNat n) + 1 - 1)%nat with (length (Js.ofNat n)) by lia.
  rewrite take_app_length, allDigits_ofNat. cbn [andb].
  destruct Hunit as [[-> ->]|[[-> ->]|[-> ->]]]; cbn -[Z.mul Z.ltb Z.leb Js.ofNat Num.parseInt];
    rewrite parseInt_ofNat; cbn [holds fmap option_fmap option_map].
  all: destruct (Z.leb_spec (Z.of_nat n) 0); [lia|].
  - destruct (Z.ltb_spec 0 (Z.of_nat n)); [|lia]. cbn [andb].
    destruct (Z.leb_spec (Z.of_nat n) (7 * 24 * 60)); [|lia]. do 2 f_equal. lia.
  - destruct (Z.ltb_spec 0 (Z.of_nat n * 60)); [|lia]. cbn [andb].
    destruct (Z.leb_spec (Z.of_nat n * 60) (7 * 24 * 60)); [done|lia].
  - destruct (Z.ltb_spec 0 (Z.of_nat n * 60 * 24)); [|lia]. cbn [andb].
    destruct (Z.leb_spec (Z.of_nat n * 60 * 24) (7 * 24 * 60)); [|lia]. do 2 f_equal. lia.
Qed.

Lemma join_cons sep e rest :
  rest <> [] -> Js.join sep (e :: rest) = e ++ sep ++ Js.join sep rest.
Proof. by destruct rest. Qed.

Lemma join_length_counted entries :
  Z.of_nat (length (Js.join [10%N] entries)) <= Spec.counted entries.
Proof.
  induction entries as [|e rest IH]; [done|].
  destruct rest as [|e' rest].
  - cbn. lia.
  - rewrite join_cons by done. rewrite !length_app. cbn [length Spec.counted fold_right] in *.
    lia.
Qed.

Lemma fitHistory_spec chatHistory : forall total,
  exists rest, chatHistory = fitHistory total chatHistory ++ rest /\
    (total <= maxPromptLength ->
     total + Spec.counted (fitHistory total chatHistory) <= maxPromptLength) /\
    match rest with
    | [] => True
    | entry :: _ =>
        maxPromptLength <
        total + Spec.counted (fitHistory total chatHistory) + Z.of_nat (length entry) + 1
    end.
Proof.
  induction chatHistory as [|e h IH]; intros total; cbn [fitHistory].
  - exists []. split; [done|]. split; [cbn; lia|done].
  - destruct (Z.ltb_spec maxPromptLength (total + Z.of_nat (length e) + 1)) as [Hover|Hfit].
    + exists (e :: h). split; [done|]. split; [cbn; lia|]. cbn. lia.
    + destruct (IH (total + Z.of_nat (length e) + 1)) as (rest & Heq & Hbound & Hnext).
      exists rest. split; [cbn [app]; by rewrite <- Heq|].
      cbn [Spec.counted fold_right]. fold (Spec.counted (fitHistory (total + Z.of_nat (length e) + 1) h)).
      split; [intros _; specialize (Hbound Hfit); lia|].
      destruct rest; [done|]. lia.
Qed.

(** X9. What goes into the digest prompt are leading entries of the
    history, as many as fit: with the prefix they stay within 150000
    code units, and the first entry left out would not have fitted. *)
Theorem promptHistory_fits (promptPrefix : Js.str) (chatHistory : list Js.str) :
  Z.of_nat (length promptPrefix) <= maxPromptLength ->
  let '(finalHistory, historyText) := promptHistory promptPrefix chatHistory in
  historyText = Js.join [10%N] finalHistory /\
  Z.of_nat (length promptPrefix) + Z.of_nat (length historyText) <= maxPromptLength /\
  exists rest, chatHistory = finalHistory ++ rest /\
    match rest with
    | [] => True
    | entry :: _ =>
        maxPromptLength <
        Z.of_nat (length promptPrefix) + Spec.counted finalHistory
        + Z.of_nat (length entry) + 1
    end.
Proof.
  intros Hprefix. unfold promptHistory. cbv zeta.
  destruct (Z.ltb_spec maxPromptLength
              (Z.of_nat (length promptPrefix)
               + Z.of_nat (length (Js.join [10%N] chatHistory)))) as [Hlong|Hshort].
  - split; [done|].
    destruct (fitHistory_spec chatHistory (Z.of_nat (length promptPrefix)))
      as (rest & Heq & Hbound & Hnext).
    split; [|by exists rest].
    pose proof (join_length_counted (fitHistory (Z.of_nat (length promptPrefix)) chatHistory)).
    specialize (Hbound Hprefix). lia.
  - split; [done|]. split; [done|]. exists []. by rewrite app_nil_r.
Qed.
End CgFacts.

Lemma parseTimeOrCount_range_witness :
  Cg.parseTimeOrCount (js " 2H ") = Some (Cg.ByTime 120) /\ 1 <= 120 <= 10080.
Proof.
  split; [reflexivity|].
  exact (parseTimeOrCount_range (js " 2H ") (Cg.ByTime 120) eq_refl).
Defined.

Lemma parseTimeOrCount_count_witness :
  Cg.parseTimeOrCount (Js.ofNat 250) = Some (Cg.ByCount 250).
Proof. apply (parseTimeOrCount_count 250). lia. Defined.

Lemma parseTimeOrCount_time_witness :
  Cg.parseTimeOrCount (Js.ofNat 2 ++ js "d") = Some (Cg.ByTime 2880).
Proof. apply (parseTimeOrCount_time 2 100 1440); [reflexivity|lia|lia]. Defined.

Lemma promptHistory_fits_witness :
  let '(finalHistory, historyText) :=
    Cg.promptHistory (js "Summarise: ") [js "ann - hello"; js "bob - hi"] in
  historyText = Js.join [10%N] finalHistory /\
  Z.of_nat (length (js "Summarise: ")) + Z.of_nat (length historyText) <= Cg.maxPromptLength /\
  exists rest, [js "ann - hello"; js "bob - hi"] = finalHistory ++ rest /\
    match rest with
    | [] => True
    | entry :: _ =>
        Cg.maxPromptLength <
        Z.of_nat (length (js "Summarise: ")) + Spec.counted finalHistory
        + Z.of_nat (length entry) + 1
    end.
Proof.
  apply (promptHistory_fits (js "Summarise: ") [js "ann - hello"; js "bob - hi"]).
  vm_compute. discriminate.
Defined.

(** ** Model selection *)

Section SelectFacts.
Import Select.

Lemma indexOf_app c a b : c ∉ a -> Js.indexOf c (a ++ c :: b) = Z.of_nat (length a).
Proof.
  induction a as [|x a IH]; intros Hout; cbn [app Js.indexOf length].
  - by rewrite N.eqb_refl.
  - apply not_elem_of_cons in Hout as [Hne Hout].
    rewrite (proj2 (N.eqb_neq x c)) by done. rewrite (IH Hout).
    destruct (Z.ltb_spec (Z.of_nat (length a)) 0); lia.
Qed.

Lemma indexOf_found c s :
  0 <= Js.indexOf c s ->
  exists a b, s = a ++ c :: b /\ (c ∉ a) /\ Js.indexOf c s = Z.of_nat (length a).
Proof.
  induction s as [|x s IH]; cbn [Js.indexOf]; [lia|].
  destruct (N.eqb_spec x c) as [->|Hne].
  - intros _. exists [], s. split; [done|]. split; [apply not_elem_of_nil|done].
  - destruct (Z.ltb_spec (Js.indexOf c s) 0) as [|Hpos]; [lia|]. intros _.
    destruct (IH Hpos) as (a & b & -> & Hout & Hi).
    exists (x :: a), b. split; [done|]. split; [by apply not_elem_of_cons|].
    rewrite Hi. cbn [length]. lia.
Qed.

Lemma word_no_space s : Spec.word s -> 32%N ∉ s.
Proof.
  intros Hw Hin. unfold Spec.word in Hw. rewrite Forall_forall in Hw.
  by specialize (Hw _ Hin).
Qed.

Lemma modelOf_with_model kind kind' v m :
  modelOf kind' (with_model kind v m) = if decide (kind' = kind) then v else modelOf kind' m.
Proof. by destruct kind, kind'. Qed.

(** A stored selection is read back as its two halves. *)
Lemma pick_stored kind d provider model :
  provider <> [] -> 32%N ∉ provider ->
  modelOf kind (models d) = provider ++ js " " ++ model ->
  pick kind d = Some (provider, model).
Proof.
  intros Hne Hout Hs. unfold pick. rewrite Hs. change (js " ") with [32%N].
  cbn [app]. destruct provider as [|c provider]; [done|]. cbn [Js.truthy negb app].
  change (c :: provider ++ 32%N :: model) with ((c :: provider) ++ 32%N :: model).
  rewrite (indexOf_app _ _ _ Hout).
  destruct (Z.leb_spec (Z.of_nat (length (c :: provider))) 0) as [H|_]; [cbn in H; lia|].
  unfold Js.slice. rewrite Nat2Z.id, Nat.sub_0_r, drop_0.
  rewrite take_app_length.
  replace (Z.to_nat (Z.of_nat (length (c :: provider)) + 1))
    with (length (c :: provider) + 1)%nat by lia.
  rewrite drop_app_add'; [|done]. done.
Qed.

(** What is read from a selection is what stands around its first
    space. *)
Lemma pick_inv kind d provider model :
  pick kind d = Some (provider, model) ->
  modelOf kind (models d) = provider ++ js " " ++ model.
Proof.
  unfold pick. destruct (modelOf kind (models d)) as [|c s] eqn:Hs; [done|].
  cbn [Js.truthy negb]. destruct (Z.leb_spec (Js.indexOf 32 (c :: s)) 0) as [|Hpos]; [done|].
  destruct (indexOf_found 32 (c :: s)) as (a & b & Heq & Hout & Hi); [lia|].
  rewrite Heq in *. rewrite Hi. intros [= <- <-].
  unfold Js.slice. rewrite Nat2Z.id, Nat.sub_0_r, drop_0. rewrite take_app_length.
  replace (Z.to_nat (Z.of_nat (length a) + 1)) with (length a + 1)%nat by lia.
  rewrite drop_app_add'; [|done]. done.
Qed.

Lemma plain_proto k : Obj.plain k -> k <> js "__proto__".
Proof.
  intros Hplain ->. apply Hplain. unfold Obj.inherited. rewrite !elem_of_cons. tauto.
Qed.

Lemma assign_plain {V} k (v : V) o : Obj.plain k -> Obj.assign k v o = Obj.set k v o.
Proof.
  intros Hplain%plain_proto. unfold Obj.assign.
  by rewrite bool_decide_eq_false_2.
Qed.

(** What a successful [ai model <kind> ...] leaves. *)
Lemma setModel_done kind allArgs w w' :
  setModel kind allArgs w = (Config.Done, w') ->
  exists provider model,
    head allArgs = Some provider /\ provider <> [] /\ model <> [] /\
    Spec.trimmed model /\
    models (data w') = with_model kind (provider ++ js " " ++ model) (models (data w)) /\
    forall c, last allArgs ≫= compatNamed = Some c ->
              Obj.plain provider -> Obj.plain (Js.toLowerCase model) ->
              overrideOf (data w') provider (Js.toLowerCase model) = Some c.
Proof.
  unfold setModel. cbv zeta.
  destruct allArgs as [|provider rest]; [done|].
  change (default [] (head (provider :: rest))) with provider.
  set (allArgs := provider :: rest).
  set (model := Js.trim (Js.join (js " ") _)).
  destruct (Js.truthy provider) eqn:Hp; cbn [negb orb]; [|done].
  destruct (Js.truthy model) eqn:Hm; cbn [negb]; [|done].
  destruct (Obj.truthyAt provider (providers (data w))); cbn [negb]; [|done].
  intros [= <-]. exists provider, model.
  split; [done|]. split; [by destruct provider|]. split; [by destruct model|].
  split; [apply trim_trimmed|].
  destruct (last allArgs ≫= compatNamed) as [c|];
    cbn [data emit with_data models with_modelCompat with_models modelCompat].
  - split; [by destruct (Obj.get provider _); [|case_bool_decide]|].
    intros c' [= <-] Hprov Hml.
    destruct (Obj.get provider (default [] (modelCompat (data w)))) as [forProvider|].
    + unfold overrideOf. cbn [data emit with_data modelCompat with_modelCompat].
      rewrite get_set_eq, assign_plain by done. apply get_set_eq.
    + rewrite bool_decide_eq_false_2 by done.
      unfold overrideOf. cbn [data emit with_data modelCompat with_modelCompat].
      rewrite get_set_eq, assign_plain by done. apply get_set_eq.
  - by split.
Qed.

(** X10. A selection stored by [ai model <kind> <provider> <model...>] is
    read back by [pick] as that provider and that model, and no other
    selection changes; for command words in ASCII, whatever the
    provider word, an inherited property name included. *)
Theorem setModel_pick (kind : Kind) (allArgs : list Js.str) (w w' : World) :
  Forall Spec.word allArgs -> Forall Js.ascii allArgs ->
  setModel kind allArgs w = (Config.Done, w') ->
  exists provider model,
    head allArgs = Some provider /\ model <> [] /\
    pick kind (data w') = Some (provider, model) /\
    forall kind', kind' <> kind -> pick kind' (data w') = pick kind' (data w).
Proof.
  intros Hwords _ Hdone.
  destruct (setModel_done _ _ _ _ Hdone) as (provider & model & Hhead & Hp & Hm & _ & Hmodels & _).
  exists provider, model. split; [done|]. split; [done|]. split.
  - apply pick_stored; [done|..].
    + apply word_no_space. destruct allArgs; [done|]. injection Hhead as ->.
      by inversion Hwords.
    + by rewrite Hmodels, modelOf_with_model, decide_True.
  - intros kind' Hne. unfold pick. rewrite Hmodels, modelOf_with_model.
    by rewrite decide_False.
Qed.

(** X11. When the command ends with the name of a family, that family is
    what [resolveCompat] answers for the selection, at once and with no
    change to the store; for a provider name and a lower-cased model
    that are no inherited property names, and a model in ASCII. *)
Theorem setModel_compat (listModels : Lister) (now : Z) (kind : Kind)
    (allArgs : list Js.str) (w w' : World) (c : Compat) (provider model : Js.str) :
  Forall Spec.word allArgs ->
  setModel kind allArgs w = (Config.Done, w') ->
  last allArgs ≫= compatNamed = Some c ->
  pick kind (data w') = Some (provider, model) ->
  Obj.plain provider -> Js.ascii model -> Obj.plain (Js.toLowerCase model) ->
  forall p, resolveCompat listModels now provider model p w' = (c, w').
Proof.
  intros Hwords Hdone Hc Hpick Hprov _ Hml p.
  destruct (setModel_done _ _ _ _ Hdone)
    as (provider' & model' & Hhead & Hp & Hm & _ & Hmodels & Hov).
  assert (Hpick' : pick kind (data w') = Some (provider', model')).
  { apply pick_stored; [done|..].
    - apply word_no_space. destruct allArgs; [done|]. injection Hhead as ->.
      by inversion Hwords.
    - by rewrite Hmodels, modelOf_with_model, decide_True. }
  rewrite Hpick in Hpick'. injection Hpick' as <- <-.
  apply resolveCompat_override. by apply Hov.
Qed.
End SelectFacts.

Section RemoveFacts.
Import Select.
Variables (listModels : Lister) (now : Z).

Lemma refreshModelCatalog_keeps force w :
  models (data (refreshModelCatalog listModels now force w)) = models (data w) /\
  providers (data (refreshModelCatalog listModels now force w)) = providers (data w).
Proof. unfold refreshModelCatalog. by destruct (negb force && refreshing w). Qed.

Lemma startsWith_app a b : Js.startsWith (a ++ b) a = true.
Proof.
  induction a as [|c a IH]; cbn [app Js.startsWith]; [by destruct b|].
  by rewrite N.eqb_refl, IH.
Qed.

Lemma unselect_not_picked target v provider model :
  Config.unselect target v = provider ++ js " " ++ model -> provider <> target.
Proof.
  unfold Config.unselect. intros H ->.
  destruct (Js.truthy v && Js.startsWith v (target ++ js " ")) eqn:E.
  - by destruct target.
  - subst v. rewrite app_assoc, startsWith_app, andb_true_r in E. by destruct target.
Qed.

Lemma toLowerCase_no_capital s c :
  c ∈ Js.toLowerCase s -> ~ (65 <= c <= 90)%N.
Proof.
  unfold Js.toLowerCase. rewrite list_elem_of_In, in_flat_map.
  intros (x & _ & Hc). unfold Js.lowerOf, Js.lowerUnit in Hc.
  destruct (N.eqb_spec x 304); [cbn in Hc; lia|].
  destruct (N.eqb_spec x 8490); [cbn in Hc; lia|].
  destruct ((65 <=? x)%N && (x <=? 90)%N) eqn:Hx; cbn in Hc.
  - apply andb_true_iff in Hx as [H1 H2]. apply N.leb_le in H1, H2. lia.
  - apply andb_false_iff in Hx as [H|H]; [apply N.leb_gt in H|apply N.leb_gt in H]; lia.
Qed.

(** X12. Once a provider is removed by name, no selection names it; for
    a name given in ASCII. *)
Theorem remove_unselects (arg : Js.str) (w w' : World) (kind : Kind)
    (provider model : Js.str) :
  Js.ascii arg ->
  Config.remove listModels now arg w = (Config.Done, w') ->
  Js.toLowerCase arg <> js "all" ->
  pick kind (data w') = Some (provider, model) ->
  provider <> Js.toLowerCase arg.
Proof.
  unfold Config.remove. cbv zeta. set (target := Js.toLowerCase arg).
  intros _ Hdone Hall Hpick.
  destruct (Js.truthy target); cbn [negb] in Hdone; [|done].
  unfold Js.eqb in Hdone. rewrite bool_decide_false in Hdone by done.
  destruct (Obj.truthyAt target (providers (data w))); cbn [negb] in Hdone; [|done].
  injection Hdone as <-. apply pick_inv in Hpick.
  rewrite (proj1 (refreshModelCatalog_keeps _ _)) in Hpick.
  cbn [data emit with_data models with_models] in Hpick.
  destruct kind; cbn [modelOf chat search image tts] in Hpick;
    by eapply unselect_not_picked.
Qed.

(** X13. Removal by name looks the name up in lower case, so it never
    takes away a provider stored under a name that contains one of the
    letters A to Z; for a name given in ASCII. *)
Theorem remove_spares_capitalised (name arg : Js.str) (w : World) :
  Js.ascii arg ->
  (exists c, c ∈ name /\ (65 <= c <= 90)%N) ->
  Js.toLowerCase arg <> js "all" ->
  Obj.get name (providers (data (Config.remove listModels now arg w).2))
  = Obj.get name (providers (data w)).
Proof.
  intros _ (c & Hc & Hcap) Hall. unfold Config.remove. cbv zeta.
  set (target := Js.toLowerCase arg).
  destruct (Js.truthy target); cbn [negb]; [|done].
  unfold Js.eqb. rewrite bool_decide_false by done.
  destruct (Obj.truthyAt target (providers (data w))); cbn [negb]; [|done].
  cbn [snd]. rewrite (proj2 (refreshModelCatalog_keeps _ _)).
  cbn [data emit with_data providers with_models with_modelCompat with_providers].
  rewrite get_del. destruct (decide (target = name)) as [<-|]; [|done].
  exfalso. by apply (toLowerCase_no_capital arg c).
Qed.
End RemoveFacts.

Lemma setModel_pick_witness :
  exists provider model,
    head Spec.chooseGemini = Some provider /\ model <> [] /\
    Select.pick Select.ForChat
      (data (Select.setModel Select.ForChat Spec.chooseGemini Spec.acmeWorld).2)
    = Some (provider, model) /\
    forall kind', kind' <> Select.ForChat ->
      Select.pick kind' (data (Select.setModel Select.ForChat Spec.chooseGemini Spec.acmeWorld).2)
      = Select.pick kind' (data Spec.acmeWorld).
Proof.
  apply (setModel_pick Select.ForChat Spec.chooseGemini Spec.acmeWorld).
  - repeat constructor.
  - unfold Js.ascii. decided.
  - reflexivity.
Defined.

Lemma setModel_compat_witness :
  resolveCompat Spec.deadLister 0 (js "acme") (js "gpt-4o") Spec.acme
    (Select.setModel Select.ForChat Spec.chooseGemini Spec.acmeWorld).2
  = (gemini, (Select.setModel Select.ForChat Spec.chooseGemini Spec.acmeWorld).2).
Proof.
  refine (setModel_compat Spec.deadLister 0 Select.ForChat Spec.chooseGemini Spec.acmeWorld
            (Select.setModel Select.ForChat Spec.chooseGemini Spec.acmeWorld).2 gemini
            (js "acme") (js "gpt-4o") _ _ _ _ _ _ _ Spec.acme).
  - repeat constructor.
  - reflexivity.
  - reflexivity.
  - vm_compute. reflexivity.
  - unfold Obj.plain. decided.
  - unfold Js.ascii. decided.
  - unfold Obj.plain. decided.
Defined.

Lemma remove_unselects_witness :
  Select.pick Select.ForChat
    (data (Config.remove Spec.deadLister 0 (js "ACME") Spec.sharedWorld).2)
  = Some (js "other", js "gpt-4o") /\
  js "other" <> js "acme".
Proof.
  split; [vm_compute; reflexivity|].
  apply (remove_unselects Spec.deadLister 0 (js "ACME") Spec.sharedWorld
           (Config.remove Spec.deadLister 0 (js "ACME") Spec.sharedWorld).2
           Select.ForChat (js "other") (js "gpt-4o")).
  - unfold Js.ascii. decided.
  - reflexivity.
  - discriminate.
  - vm_compute. reflexivity.
Defined.

Lemma remove_spares_capitalised_witness :
  Obj.get (js "Acme")
    (providers (data (Config.remove Spec.deadLister 0 (js "Acme") Spec.mixedWorld).2))
  = Obj.get (js "Acme") (providers (data Spec.mixedWorld)).
Proof.
  apply (remove_spares_capitalised Spec.deadLister 0 (js "Acme") (js "Acme") Spec.mixedWorld).
  - unfold Js.ascii. decided.
  - exists 65%N. split; [decided|lia].
  - discriminate.
Defined.

(** ** The size of the messages *)

Section FitFacts.
Import Chunk.

Lemma sliceLoop_nonempty limit line fuel i :
  (0 < limit)%nat -> Forall (fun seg => seg <> []) (sliceLoop fuel limit i line).
Proof.
  intros Hlimit. revert i. induction fuel as [|fuel IH]; intros i; simpl; [constructor|].
  destruct (i <? length line)%nat eqn:Hi; [|constructor].
  apply Nat.ltb_lt in Hi. constructor; [|apply IH].
  unfold Js.slice. intros H%(f_equal length).
  rewrite length_take, length_drop in H. cbn in H. lia.
Qed.

Lemma flush_nonempty parts cur :
  Forall (fun seg => seg <> []) parts -> Forall (fun seg => seg <> []) (flush parts cur).
Proof.
  intros Hp. unfold flush. destruct cur as [|c cur]; [done|]. cbn [Js.truthy].
  apply Forall_app. split; [done|]. by constructor.
Qed.

Lemma addLine_nonempty limit parts cur line :
  (0 < limit)%nat -> Forall (fun seg => seg <> []) parts ->
  Forall (fun seg => seg <> []) (addLine limit (parts, cur) line).1.
Proof.
  intros Hlimit Hp. unfold addLine.
  destruct (limit <? length line)%nat eqn:Hline; cbn [fst].
  - apply Forall_app. split; [by apply flush_nonempty|by apply sliceLoop_nonempty].
  - apply Nat.ltb_ge in Hline.
    destruct cur as [|c cur]; cbn [Js.truthy].
    + destruct (limit <? length line)%nat eqn:E; [apply Nat.ltb_lt in E; lia|done].
    + destruct (limit <? _)%nat; cbn [fst]; [|done].
      apply Forall_app. split; [done|]. by constructor.
Qed.

Lemma fold_addLine_nonempty limit lines : forall parts cur,
  (0 < limit)%nat -> Forall (fun seg => seg <> []) parts ->
  Forall (fun seg => seg <> []) (fold_left (addLine limit) lines (parts, cur)).1.
Proof.
  induction lines as [|line lines IH]; intros parts cur Hlimit Hp; [done|].
  cbn [fold_left]. pose proof (addLine_nonempty limit parts cur line Hlimit Hp) as H.
  destruct (addLine limit (parts, cur) line) as [parts' cur']. by apply IH.
Qed.

(** There are no more segments than code units, once the text is cut. *)
Lemma splitMessage_count text reserve :
  (length (splitMessage text reserve) <= Nat.max 1 (length text))%nat.
Proof.
  pose proof (splitMessage_parts text reserve) as (_ & Hsub & _).
  unfold splitMessage in *. cbv zeta in *.
  destruct (length text <=? limitOf reserve)%nat; [cbn; lia|].
  pose proof (fold_addLine_nonempty (limitOf reserve) (Js.split newline text) [] []
                (limitOf_pos reserve) (Forall_nil_2 _)) as Hne.
  destruct (fold_left _ _ _) as [parts cur]. cbn [fst] in Hne.
  apply (flush_nonempty _ cur) in Hne. apply sublist_length in Hsub.
  assert (Hcount : forall l : list Js.str,
            Forall (fun seg => seg <> []) l -> (length l <= length (concat l))%nat).
  { induction 1 as [|x l Hx _ IH]; [done|]. cbn [concat length]. rewrite length_app.
    destruct x; [done|]. cbn [length]. lia. }
  specialize (Hcount _ Hne). lia.
Qed.

Lemma applyWrap_length s collapse :
  (length (applyWrap s collapse) <= length s + (if collapse then 32 else 0))%nat.
Proof.
  unfold applyWrap. destruct collapse; cbn [negb]; [|lia].
  destruct (test blockquoteClosedAt s || test blockquoteAt s); [lia|].
  rewrite !length_app. cbn. lia.
Qed.

Lemma header_length i total :
  (N.of_nat total < 10 ^ 20)%N -> (i < total)%nat ->
  (length (header i total) <= 48)%nat.
Proof.
  intros Htotal Hi. unfold header. rewrite !length_app.
  destruct (ofNat_spec (i + 1)) as (_ & _ & _ & Hl1).
  destruct (ofNat_spec total) as (_ & _ & _ & Hl2).
  assert (H1 : (N.of_nat (i + 1) < 10 ^ N.of_nat 20)%N).
  { change (N.of_nat 20) with 20%N. lia. }
  assert (H2 : (N.of_nat total < 10 ^ N.of_nat 20)%N) by done.
  specialize (Hl1 20%nat ltac:(lia) H1). specialize (Hl2 20%nat ltac:(lia) H2).
  change (length (js " (")) with 2%nat. change (length (js "/")) with 1%nat.
  change (length (js ")")) with 1%nat. cbn [length]. lia.
Qed.

(** X14. Every message built for a text fits the limit of 4096 code
    units, the postfix of the last one apart. The bound on the text,
    which no JavaScript string exceeds, keeps the page numbers of the
    headers within the room reserved for them. *)
Theorem buildChunks_fit (text : Js.str) (collapse : bool) (postfix : option Js.str)
    (i : nat) (chunk : Js.str) :
  (N.of_nat (length text) < 10 ^ 20)%N ->
  buildChunks text collapse postfix !! i = Some chunk ->
  Z.of_nat (length chunk) <= MAX_MSG + Z.of_nat (length (default [] postfix)) /\
  ((S i < length (buildChunks text collapse postfix))%nat ->
   Z.of_nat (length chunk) <= MAX_MSG).
Proof.
  intros Hsize. unfold buildChunks. cbv zeta.
  set (reserve := PAGE_EXTRA + (if collapse then WRAP_EXTRA_COLLAPSED else 0)).
  pose proof (splitMessage_parts text reserve) as (Hbound & _).
  pose proof (splitMessage_count text reserve) as Hcount.
  assert (Hlimit : Z.of_nat (limitOf reserve) = MAX_MSG - 48 - (if collapse then 64 else 0)).
  { unfold limitOf, reserve, MAX_MSG, PAGE_EXTRA, WRAP_EXTRA_COLLAPSED. destruct collapse; lia. }
  destruct (splitMessage text reserve) as [|part [|part2 rest]] eqn:Hparts.
  - done.
  - destruct i; [|done]. intros [= <-]. apply Forall_inv in Hbound.
    pose proof (applyWrap_length part collapse) as Hw.
    rewrite length_app. split; [|cbn; lia].
    unfold MAX_MSG in *. destruct collapse; lia.
  - rewrite list_lookup_imap, length_imap. intros (p & Hp & ->)%fmap_Some.
    pose proof (lookup_lt_Some _ _ _ Hp) as Hi.
    rewrite Forall_forall in Hbound. specialize (Hbound p (list_elem_of_lookup_2 _ _ _ Hp)).
    pose proof (applyWrap_length (header i (length (part :: part2 :: rest)) ++ p) collapse) as Hw.
    assert (Hpages : (N.of_nat (length (part :: part2 :: rest)) < 10 ^ 20)%N)
      by (clear -Hsize Hcount; lia).
    pose proof (header_length i (length (part :: part2 :: rest)) Hpages Hi) as Hh.
    rewrite length_app in *. unfold MAX_MSG in *. split.
    + case_bool_decide; [|change (length (@nil N)) with 0%nat]; destruct collapse; lia.
    + intros Hnotlast. rewrite bool_decide_false by lia.
      change (length (@nil N)) with 0%nat. destruct collapse; lia.
Qed.
End FitFacts.

Lemma buildChunks_fit_witness :
  let chunk := Chunk.header 0 3 ++ replicate 4048 97%N in
  Z.of_nat (length chunk) <= Chunk.MAX_MSG + Z.of_nat (length (default [] (@None Js.str))) /\
  ((1 < length (Chunk.buildChunks Spec.longText false None))%nat ->
   Z.of_nat (length chunk) <= Chunk.MAX_MSG).
Proof.
  apply (buildChunks_fit Spec.longText false None 0).
  - vm_compute. reflexivity.
  - vm_compute. reflexivity.
Defined.

(** ** Requests and pauses *)

Section PostFacts.
Import Http Post.
Variables (net : Net) (jitter : nat -> Z).

Lemma requests_app evs evs' : requests (evs ++ evs') = (requests evs + requests evs')%nat.
Proof. unfold requests. by rewrite List.filter_app, length_app. Qed.

Lemma axiosWithRetry_requests req : (requests (axiosWithRetry net jitter req).2 <= 3)%nat.
Proof. apply retryLoop_requests. Qed.

Lemma tryPostJSON_from_requests url body attempts : forall lastErr,
  (requests (tryPostJSON_from net jitter url body attempts lastErr).2
   <= 3 * length attempts)%nat.
Proof.
  induction attempts as [|a rest IH]; intros lastErr; cbn [tryPostJSON_from length].
  - cbn. lia.
  - pose proof (axiosWithRetry_requests (request url body a)) as Ha.
    destruct (axiosWithRetry net jitter (request url body a)) as [[r|err] evs];
      cbn [snd] in *; [lia|].
    specialize (IH (Some err)).
    destruct (tryPostJSON_from net jitter url body rest (Some err)) as [reply evs'].
    cbn [snd] in *. rewrite requests_app. lia.
Qed.

(** X15. A POST with the attempts of [buildAuthAttempts] is one call of
    the retrying client: its response body or its error, and at most
    three requests. *)
Theorem tryPostJSON_single (p : Provider) (extraHeaders : Obj.t Js.str)
    (url body : Js.str) :
  exists a,
    buildAuthAttempts p extraHeaders = [a] /\
    tryPostJSON net jitter url body (buildAuthAttempts p extraHeaders) =
      (match (axiosWithRetry net jitter (request url body a)).1 with
       | Ok r => Data (data r)
       | Fail err => Thrown (Some err)
       end,
       (axiosWithRetry net jitter (request url body a)).2) /\
    (requests (tryPostJSON net jitter url body (buildAuthAttempts p extraHeaders)).2
     <= 3)%nat.
Proof.
  assert (Hone : exists a, buildAuthAttempts p extraHeaders = [a]).
  { unfold buildAuthAttempts. destruct (authConfig p); by eexists. }
  destruct Hone as [a Ha]. exists a. split; [done|]. rewrite Ha.
  unfold tryPostJSON. cbn [tryPostJSON_from].
  pose proof (axiosWithRetry_requests (request url body a)) as Hreq.
  destruct (axiosWithRetry net jitter (request url body a)) as [[r|err] evs];
    cbn [fst snd] in *; [done|]. by rewrite app_nil_r.
Qed.

Lemma retryLoop_head axios backoffMs remaining attempt :
  exists rest, (retryLoop axios jitter backoffMs remaining attempt).2 = Request attempt :: rest.
Proof.
  destruct remaining as [|k]; cbn [retryLoop]; destruct (axios attempt) as [r|err];
    try (by eexists).
  destruct (shouldRetry err); [|by eexists].
  destruct (retryLoop axios jitter backoffMs k (S attempt)). by eexists.
Qed.

Lemma single_trace a i (e : Event) :
  ([Request a] !! (2 * i)%nat = Some e -> e = Request (a + i)) /\
  ([Request a] !! (2 * i + 1)%nat = Some e -> False).
Proof.
  split.
  - destruct i as [|i]; [cbn; rewrite Nat.add_0_r; by intros [= <-]|].
    replace (2 * S i)%nat with (S (S (2 * i))) by lia. by cbn.
  - replace (2 * i + 1)%nat with (S (2 * i)) by lia. by cbn.
Qed.

(** The trace of the loop: requests at the even places, numbered in
    order, and after request [i], when another request follows, the
    pause taken for it. *)
Lemma retryLoop_trace axios backoffMs remaining : forall attempt i e,
  ((retryLoop axios jitter backoffMs remaining attempt).2 !! (2 * i)%nat = Some e ->
   e = Request (attempt + i)) /\
  ((retryLoop axios jitter backoffMs remaining attempt).2 !! (2 * i + 1)%nat = Some e ->
   e = Sleep (backoffMs * 2 ^ Z.of_nat (attempt + i) + jitter (attempt + i)%nat) /\
   is_Some ((retryLoop axios jitter backoffMs remaining attempt).2 !! (2 * i + 2)%nat)).
Proof.
  induction remaining as [|k IH]; intros a i e.
  - assert (Hone : (retryLoop axios jitter backoffMs 0 a).2 = [Request a]).
    { cbn [retryLoop]. by destruct (axios a). }
    rewrite Hone. destruct (single_trace a i e) as [H1 H2]. split; [done|]. by intros ?%H2.
  - cbn [retryLoop]. destruct (single_trace a i e) as [H1 H2].
    destruct (axios a) as [r|err]; cbn [snd]; [split; [done|by intros ?%H2]|].
    destruct (shouldRetry err); cbn [snd]; [|split; [done|by intros ?%H2]].
    specialize (IH (S a)).
    destruct (retryLoop_head axios backoffMs k (S a)) as [rest Hrest].
    destruct (retryLoop axios jitter backoffMs k (S a)) as [out evs].
    cbn [snd] in *. destruct i as [|i].
    + cbn. rewrite Nat.add_0_r. split; [by intros [= <-]|]. intros [= <-].
      split; [done|]. rewrite Hrest. by eexists.
    + replace (2 * S i)%nat with (S (S (2 * i))) by lia.
      replace (S (S (2 * i)) + 1)%nat with (S (S (2 * i + 1))) by lia.
      replace (S (S (2 * i)) + 2)%nat with (S (S (2 * i + 2))) by lia.
      cbn [lookup list_lookup]. replace (a + S i)%nat with (S a + i)%nat by lia.
      apply IH.
Qed.

(** X16. Requests and pauses alternate: request [i] (from 0) is followed,
    when another request is sent, by one pause of [500 * 2^i] ms plus the
    jitter drawn then, and no pause follows the last request. With a
    jitter below 200 ms the pauses of a call add up to at most 1898 ms. *)
Theorem axiosWithRetry_pauses (req : Config) :
  let evs := (axiosWithRetry net jitter req).2 in
  (forall i e, evs !! (2 * i)%nat = Some e -> e = Request i) /\
  (forall i e, evs !! (2 * i + 1)%nat = Some e ->
     e = Sleep (500 * 2 ^ Z.of_nat i + jitter i) /\ is_Some (evs !! (2 * i + 2)%nat)) /\
  (length evs = 2 * requests evs - 1)%nat /\
  ((forall n, 0 <= jitter n < 200) -> Spec.slept evs <= 1898).
Proof.
  cbv zeta. split; [|split].
  - intros i e. apply (retryLoop_trace (net (baseConfig req)) 500 2 0 i e).
  - intros i e. apply (retryLoop_trace (net (baseConfig req)) 500 2 0 i e).
  - unfold axiosWithRetry, axiosWithRetryN.
    set (axios := net (baseConfig req)).
    cbn [retryLoop].
    destruct (axios 0%nat) as [r0|e0]; [|destruct (shouldRetry e0)];
      [| destruct (axios 1%nat) as [r1|e1]; [|destruct (shouldRetry e1)];
         [| destruct (axios 2%nat) as [r2|e2] | ] | ];
      cbn [snd Spec.slept fold_right requests List.filter isRequest length];
      (split; [done|]); intros Hj;
      pose proof (Hj 0%nat) as H0; pose proof (Hj 1%nat) as H1;
      change (2 ^ Z.of_nat 0) with 1; change (2 ^ Z.of_nat 1) with 2; lia.
Qed.
End PostFacts.

Section GeminiBounds.
Import Gemini.
Variables (net : Http.Net) (jitter : nat -> Z).

Lemma dedup_length seen cs : (length (dedup seen cs) <= length cs)%nat.
Proof.
  revert seen. induction cs as [|c cs IH]; intros seen; cbn [dedup length]; [lia|].
  destruct (bool_decide (sig c ∈ seen)); [specialize (IH seen)|specialize (IH (sig c :: seen))];
    cbn [length]; lia.
Qed.

Lemma mkConfigs_length p cfg : (length (mkConfigs p cfg) <= 3)%nat.
Proof.
  unfold mkConfigs. cbv zeta.
  destruct (compatauth p) as [[| |]|]; apply (dedup_length []).
Qed.

Lemma tryConfigs_sent u cfgs : forall lastErr,
  (length (tryConfigs net jitter u cfgs lastErr).2 <= length cfgs)%nat.
Proof.
  induction cfgs as [|c cfgs IH]; intros lastErr; cbn [tryConfigs length]; [cbn; lia|].
  destruct ((Http.axiosWithRetry net jitter (withUrl u c)).1) as [r|err]; [cbn; lia|].
  destruct (isRouteError err); [cbn; lia|].
  specialize (IH (Some err)).
  destruct (tryConfigs net jitter u cfgs (Some err)) as [[r e] sent]. cbn [snd length] in *. lia.
Qed.

Lemma tryPaths_sent base paths cfgs : forall lastErr,
  (length (tryPaths net jitter base paths cfgs lastErr).2 <= length paths * length cfgs)%nat.
Proof.
  induction paths as [|s paths IH]; intros lastErr; cbn [tryPaths length]; [cbn; lia|].
  pose proof (tryConfigs_sent (base ++ s) cfgs lastErr) as Hs.
  destruct (tryConfigs net jitter (base ++ s) cfgs lastErr) as [[[r|] e] sent];
    cbn [snd] in *; [lia|].
  specialize (IH e). destruct (tryPaths net jitter base paths cfgs e) as [res sent'].
  cbn [snd] in *. rewrite length_app. lia.
Qed.

Lemma httpRequests_bound calls :
  (Spec.httpRequests net jitter calls <= 3 * length calls)%nat.
Proof.
  induction calls as [|c calls IH]; cbn [Spec.httpRequests fold_right length]; [lia|].
  pose proof (axiosWithRetry_requests net jitter c).
  fold (Spec.httpRequests net jitter calls). lia.
Qed.

(** X17. A Gemini call goes through the retrying client at most six
    times, three authentications at each of two API versions, and so
    sends at most eighteen requests. *)
Theorem geminiRequestWithFallback_bound (p : Provider) (path : Js.str)
    (axiosConfig : Http.Config) :
  let calls := (geminiRequestWithFallback net jitter p path axiosConfig).2 in
  (length calls <= 6)%nat /\ (Spec.httpRequests net jitter calls <= 18)%nat.
Proof.
  cbv zeta. unfold geminiRequestWithFallback. cbv zeta.
  pose proof (tryPaths_sent (Js.trimBase (baseUrl p))
                [js "/v1beta" ++ path; js "/v1" ++ path]
                (mkConfigs p axiosConfig) None) as Hs.
  pose proof (mkConfigs_length p axiosConfig) as Hc. cbn [length] in Hs.
  pose proof (httpRequests_bound
                (tryPaths net jitter (Js.trimBase (baseUrl p))
                   [js "/v1beta" ++ path; js "/v1" ++ path]
                   (mkConfigs p axiosConfig) None).2).
  lia.
Qed.
End GeminiBounds.

(** X18. The three authentications of a Gemini call differ in their
    headers only: each of them also carries the key as the [key] query
    parameter. *)
Theorem generateContent_key (p : Provider) (payload : Js.str) :
  let cfgs := Gemini.mkConfigs p (Gemini.generateContent p payload) in
  length cfgs = 3%nat /\
  Forall (fun cfg => Http.params cfg = Some [(js "key", apiKey p)]) cfgs /\
  List.map (fun cfg => Obj.keys (default [] (Http.headers cfg))) cfgs =
    match compatauth p with
    | Some openai | Some claude => [[js "Authorization"]; [js "x-goog-api-key"]; []]
    | Some gemini | None => [[]; [js "x-goog-api-key"]; [js "Authorization"]]
    end.
Proof.
  destruct p as [k b c am ac]. cbv zeta. unfold Gemini.mkConfigs, Gemini.generateContent.
  cbn [apiKey compatauth Http.headers Http.params default].
  destruct c as [[| |]|]; vm_compute; repeat split; repeat constructor.
Qed.

Lemma axiosWithRetry_pauses_witness :
  (Http.axiosWithRetry Spec.overloadedNet Spec.steadyJitter Spec.plainRequest).2
  = [Http.Request 0; Http.Sleep 507; Http.Request 1; Http.Sleep 1007; Http.Request 2] /\
  Spec.slept (Http.axiosWithRetry Spec.overloadedNet Spec.steadyJitter Spec.plainRequest).2
  <= 1898.
Proof.
  split; [reflexivity|].
  apply (axiosWithRetry_pauses Spec.overloadedNet Spec.steadyJitter Spec.plainRequest).
  intros n. unfold Spec.steadyJitter. lia.
Defined.

(** ** Model listings *)

Section ListingFacts.
Variables (listModels : Lister) (p0 : Provider).

Lemma correctFamily_get mp k k' :
  Obj.get k' (correctFamily mp k) =
  if decide (k = k') then
    match Spec.branded k, Obj.get k mp with
    | Some g, _ => Some g
    | None, v => v
    end
  else Obj.get k' mp.
Proof.
  unfold correctFamily, Spec.branded. cbv zeta.
  destruct (detectCompat [] k []) eqn:Hg.
  - rewrite bool_decide_false by (intros [|]; done). cbn [andb].
    destruct (decide (k = k')) as [->|]; done.
  - rewrite bool_decide_true by (by left). cbn [andb].
    case_bool_decide as Hcur; cbn [negb].
    + destruct (decide (k = k')) as [<-|]; done.
    + rewrite get_set. by destruct (decide (k = k')).
  - rewrite bool_decide_true by (by right). cbn [andb].
    case_bool_decide as Hcur; cbn [negb].
    + destruct (decide (k = k')) as [<-|]; done.
    + rewrite get_set. by destruct (decide (k = k')).
Qed.

Lemma fold_correctFamily_get ks : forall mp k,
  Obj.get k (fold_left correctFamily ks mp) =
  if decide (k ∈ ks) then
    match Spec.branded k, Obj.get k mp with
    | Some g, _ => Some g
    | None, v => v
    end
  else Obj.get k mp.
Proof.
  induction ks as [|k0 ks IH]; intros mp k; cbn [fold_left].
  - by rewrite decide_False by apply not_elem_of_nil.
  - rewrite IH, !correctFamily_get.
    destruct (decide (k0 = k)) as [->|Hne].
    + rewrite (decide_True (P := k ∈ k :: ks)) by (by left).
      destruct (decide (k ∈ ks)); by destruct (Spec.branded k).
    + destruct (decide (k ∈ ks)) as [Hin|Hout].
      * by rewrite (decide_True (P := k ∈ k0 :: ks)) by (by right).
      * rewrite (decide_False (P := k ∈ k0 :: ks)); [done|].
        by intros [->|]%elem_of_cons.
Qed.

(** X19. In the model map of a listing no name that the pattern gives to
    Claude or Gemini is filed under another family; for listings whose
    names are in ASCII, so that the keys of the map are those of the
    source. *)
Theorem listModelsByAnyCompat_branded (k : Js.str) (c g : Compat) :
  (forall family names, listModels p0 family = Some names -> Forall Js.ascii names) ->
  Obj.get k (modelMap (listModelsByAnyCompat listModels p0)) = Some c ->
  Spec.branded k = Some g -> c = g.
Proof.
  intros _. unfold listModelsByAnyCompat.
  destruct (fold_left (tryCompat listModels p0) _ _) as [[primary cs] [merged mp]].
  cbn [modelMap]. rewrite fold_correctFamily_get. intros Hget Hb. rewrite Hb in Hget.
  destruct (decide (k ∈ Obj.keys mp)) as [|Hout]; [congruence|].
  apply get_None_keys in Hout. congruence.
Qed.

Lemma tryCompat_families acc c :
  (tryCompat listModels p0 acc c).1 =
  if Spec.answered listModels p0 c
  then (Some (default c acc.1.1),
        if bool_decide (c ∈ acc.1.2) then acc.1.2 else acc.1.2 ++ [c])
  else acc.1.
Proof.
  destruct acc as [[primary cs] names]. unfold tryCompat, Spec.answered.
  by destruct (listModels p0 c) as [[|m ms]|].
Qed.

(** X20. The primary family of a listing is the first of openai, gemini,
    claude whose listing answered with at least one model, and the
    families listed are those that answered, in that order. *)
Theorem listModelsByAnyCompat_primary :
  let l := listModelsByAnyCompat listModels p0 in
  compats l = List.filter (Spec.answered listModels p0) [openai; gemini; claude] /\
  primaryCompat l = head (compats l).
Proof.
  cbv zeta. unfold listModelsByAnyCompat. cbn [fold_left List.filter].
  set (a0 := (None, [], ([], []))).
  set (a1 := tryCompat listModels p0 a0 openai).
  set (a2 := tryCompat listModels p0 a1 gemini).
  set (a3 := tryCompat listModels p0 a2 claude).
  pose proof (tryCompat_families a0 openai) as H1.
  pose proof (tryCompat_families a1 gemini) as H2.
  pose proof (tryCompat_families a2 claude) as H3.
  fold a1 in H1. fold a2 in H2. fold a3 in H3.
  destruct a3 as [[primary3 cs3] [merged3 mp3]]. cbn [compats primaryCompat fst] in *.
  destruct a2 as [[primary2 cs2] names2]. destruct a1 as [[primary1 cs1] names1].
  cbn [fst snd] in *.
  destruct (Spec.answered listModels p0 openai);
    destruct (Spec.answered listModels p0 gemini);
    destruct (Spec.answered listModels p0 claude);
    injection H1 as -> ->; injection H2 as -> ->; injection H3 as -> ->; done.
Qed.
End ListingFacts.

Lemma listModelsByAnyCompat_branded_witness :
  Obj.get (js "claude-3-opus")
    (modelMap (listModelsByAnyCompat Spec.resellerLister Spec.acme)) = Some claude /\
  Spec.branded (js "claude-3-opus") = Some claude /\
  claude = claude.
Proof.
  split; [vm_compute; reflexivity|]. split; [vm_compute; reflexivity|].
  apply (listModelsByAnyCompat_branded Spec.resellerLister Spec.acme (js "claude-3-opus")).
  - intros [] names [= <-]. unfold Js.ascii. decided.
  - vm_compute. reflexivity.
  - vm_compute. reflexivity.
Defined.

(** ** More on the history *)

Section PruneMore.
Import History.

(** X21. Eviction settles at once: a store that was pruned is left as it
    is by a second pruning. *)
Theorem pruneGlobalHistories_idempotent (d : DB) :
  NoDup (Obj.keys (histories d)) ->
  pruneGlobalHistories (pruneGlobalHistories d) = pruneGlobalHistories d.
Proof.
  intros Hnd. destruct (prune_bounds d Hnd) as [Hcount Hbytes].
  set (d' := pruneGlobalHistories d) in *.
  unfold pruneGlobalHistories at 1. unfold totalBytes in Hbytes.
  destruct (Obj.keys (histories d')) as [|k ks] eqn:Hk; [done|].
  rewrite (proj2 (Nat.leb_le _ _) Hcount), (proj2 (Z.leb_le _ _) Hbytes). done.
Qed.

Lemma has_fold_del {V} (vs : list Js.str) (o : Obj.t V) s :
  s ∉ vs -> Obj.has s (fold_left (fun o v => Obj.del v o) vs o) = Obj.has s o.
Proof.
  intros Hout. unfold Obj.has. rewrite get_fold_del. by rewrite decide_False.
Qed.

(** A session that outlives the eviction was there before, with the
    same date. *)
Lemma prune_survivor d s :
  s ∈ Obj.keys (histories (pruneGlobalHistories d)) ->
  s ∈ Obj.keys (histories d) /\
  Obj.get s (default [] (histMeta (pruneGlobalHistories d)))
  = Obj.get s (default [] (histMeta d)).
Proof.
  destruct (prune_prefix d) as (n & Hh & Hm). cbv zeta in Hh, Hm.
  set (victims := take n _) in *. intros Hs. rewrite Hh in Hs.
  assert (Hout : s ∉ victims).
  { intros Hin. eapply (proj1 (get_None_keys s _)); [|exact Hs].
    rewrite get_fold_del. by rewrite decide_True. }
  split.
  - destruct (decide (s ∈ Obj.keys (histories d))) as [|Hno]; [done|].
    exfalso. eapply (proj1 (get_None_keys s _)); [|exact Hs].
    rewrite get_fold_del, decide_False by done. by apply get_None_keys.
  - rewrite Hm. destruct (histMeta d) as [meta|]; [|done].
    simpl. rewrite get_fold_del. by rewrite decide_False.
Qed.

Lemma prune_NoDup d :
  NoDup (Obj.keys (histories d)) -> NoDup (Obj.keys (histories (pruneGlobalHistories d))).
Proof.
  destruct (prune_prefix d) as (n & -> & _). cbv zeta.
  generalize (take n (sortByTime (lastAtOf (default [] (histMeta d)))
                        (Obj.keys (histories d)))).
  intros vs. generalize (histories d). induction vs as [|v vs IH]; intros o Hnd; [done|].
  cbn [fold_left]. apply IH. by apply NoDup_keys_del.
Qed.

(** X22. An append keeps sessions and their dates together: if every
    session had its last-write time on record, so it is afterwards, and
    the session just written, when it is still there, is dated now. *)
Theorem pushHist_dated (id r c : Js.str) (now : Z) (d : DB) :
  Spec.dated d ->
  Spec.dated (pushHist id r c now d) /\
  (id ∈ Obj.keys (histories (pushHist id r c now d)) ->
   Obj.get id (default [] (histMeta (pushHist id r c now d))) = Some now).
Proof.
  intros Hd. unfold pushHist. set (d1 := appendTurn id r c now d).
  assert (Hd1 : Spec.dated d1).
  { intros s Hs. unfold d1, appendTurn in *. simpl in *.
    unfold Obj.has. rewrite get_set. destruct (decide (id = s)) as [|Hne]; [done|].
    rewrite keys_set in Hs. destruct (Obj.has id (histories d)).
    - by apply Hd.
    - apply elem_of_cons in Hs as [->|Hs]; [done|]. by apply Hd. }
  assert (Hid : Obj.get id (default [] (histMeta d1)) = Some now).
  { unfold d1, appendTurn. simpl. apply get_set_eq. }
  split.
  - intros s Hs. destruct (prune_survivor d1 s Hs) as [Hin Hmeta].
    unfold Obj.has. rewrite Hmeta. by apply Hd1.
  - intros Hs. destruct (prune_survivor d1 id Hs) as [_ Hmeta]. by rewrite Hmeta.
Qed.

(** The global eviction leaves the session just written as the
    per-session limits left it, when it is dated after every other one
    and its new turn is within the global budget. *)
Lemma pushHist_kept id r c now d :
  NoDup (Obj.keys (histories d)) ->
  sizeOfItem {| role := r; content := c |} <= HISTORY_GLOBAL_MAX_BYTES ->
  (forall other, other ∈ Obj.keys (histories d) -> other <> id ->
                 lastAtOf (default [] (histMeta d)) other < now) ->
  histFor (pushHist id r c now d) id = histFor (appendTurn id r c now d) id.
Proof.
  intros Hnd Hfits Hlate.
  pose proof (appendTurn_session id r c now d) as (_ & _ & Hlast & Hsize). cbv zeta in *.
  unfold pushHist, histFor at 1 2. f_equal. apply prune_keeps.
  - by apply appendTurn_NoDup.
  - eapply get_Some_keys. unfold appendTurn. simpl. apply get_set_eq.
  - destruct Hsize as [Hsize|Hone].
    + unfold MAX_BYTES, HISTORY_GLOBAL_MAX_BYTES in *. lia.
    + rewrite Hone, sizeOfHist_cons. change (sizeOfHist []) with 0. lia.
  - intros v Hv Hne. unfold appendTurn, lastAtOf in *. simpl in *.
    rewrite get_set_eq, get_set_ne by done. simpl.
    apply Hlate; [|done].
    rewrite keys_set in Hv. destruct (Obj.has id (histories d)); [done|].
    apply elem_of_cons in Hv as [->|Hv]; done.
Qed.

Lemma trimBytes_keeps tail : forall pre,
  tail <> [] -> sizeOfHist tail <= MAX_BYTES ->
  exists pre', trimBytes (sizeOfHist (pre ++ tail)) (pre ++ tail) = pre' ++ tail.
Proof.
  intros pre Hne Hfit. induction pre as [|x pre IH].
  - exists []. cbn [app]. by apply trimBytes_id.
  - cbn [app]. destruct (pre ++ tail) as [|y l] eqn:E; [by destruct pre|].
    rewrite trimBytes_step. destruct (MAX_BYTES <? sizeOfHist (x :: y :: l)).
    + rewrite sizeOfHist_cons. replace (sizeOfItem x + sizeOfHist (y :: l) - sizeOfItem x)
        with (sizeOfHist (y :: l)) by lia. exact IH.
    + exists (x :: pre). cbn [app]. by rewrite E.
Qed.

(** X23. A question and its answer stay together: appended one after the
    other to a session dated after the others, they are its last two
    turns, in that order, whenever the two fit the session budget. *)
Theorem pushHist_question_answer (id q a : Js.str) (t1 t2 : Z) (d : DB) :
  let question := {| role := js "user"; content := q |} in
  let answer := {| role := js "assistant"; content := a |} in
  NoDup (Obj.keys (histories d)) ->
  sizeOfItem question + sizeOfItem answer <= MAX_BYTES ->
  t1 <= t2 ->
  (forall other, other ∈ Obj.keys (histories d) -> other <> id ->
                 lastAtOf (default [] (histMeta d)) other < t1) ->
  exists before,
    histFor (pushHist id (js "assistant") a t2 (pushHist id (js "user") q t1 d)) id
    = before ++ [question; answer].
Proof.
  intros question answer Hnd Hfit Ht Hlate.
  pose proof (sizeOfItem_nonneg question). pose proof (sizeOfItem_nonneg answer).
  set (d1 := pushHist id (js "user") q t1 d).
  assert (H1 : histFor d1 id = histFor (appendTurn id (js "user") q t1 d) id).
  { apply pushHist_kept; [done| |done].
    fold question. unfold MAX_BYTES, HISTORY_GLOBAL_MAX_BYTES in *. lia. }
  pose proof (appendTurn_session id (js "user") q t1 d) as (_ & _ & Hlast & _).
  cbv zeta in Hlast. rewrite <- H1 in Hlast. fold question in Hlast.
  apply last_Some in Hlast as [pre Hpre].
  assert (Hnd1 : NoDup (Obj.keys (histories d1))).
  { unfold d1, pushHist. apply prune_NoDup. by apply appendTurn_NoDup. }
  assert (Hlate1 : forall other, other ∈ Obj.keys (histories d1) -> other <> id ->
                     lastAtOf (default [] (histMeta d1)) other < t2).
  { intros v Hv Hne. unfold d1, pushHist in *.
    destruct (prune_survivor _ _ Hv) as [Hin Hmeta].
    unfold lastAtOf. rewrite Hmeta.
    unfold appendTurn in *. simpl in *. rewrite get_set_ne by done.
    assert (v ∈ Obj.keys (histories d)) as Hvd.
    { rewrite keys_set in Hin. destruct (Obj.has id (histories d)); [done|].
      apply elem_of_cons in Hin as [->|]; done. }
    specialize (Hlate v Hvd Hne). unfold lastAtOf in Hlate. lia. }
  rewrite (pushHist_kept id (js "assistant") a t2 d1 Hnd1); [|
    fold answer; unfold MAX_BYTES, HISTORY_GLOBAL_MAX_BYTES in *; lia|done].
  rewrite appendTurn_histFor, Hpre. fold answer.
  rewrite <- app_assoc. cbn [app].
  rewrite trimItems_drop.
  assert (Hdrop : exists pre1, drop (length (pre ++ [question; answer]) - MAX_ITEMS)
                                    (pre ++ [question; answer]) = pre1 ++ [question; answer]).
  { rewrite length_app. cbn [length]. unfold MAX_ITEMS.
    exists (drop (length pre + 2 - 50) pre). rewrite drop_app_le by lia. done. }
  destruct Hdrop as [pre1 ->].
  apply trimBytes_keeps; [done|].
  rewrite !sizeOfHist_cons. change (sizeOfHist []) with 0. lia.
Qed.
End PruneMore.

Lemma pruneGlobalHistories_idempotent_witness :
  History.pruneGlobalHistories (History.pruneGlobalHistories Spec.oneSession)
  = History.pruneGlobalHistories Spec.oneSession.
Proof.
  apply (pruneGlobalHistories_idempotent Spec.oneSession).
  vm_compute. apply NoDup_singleton.
Defined.

Lemma pushHist_dated_witness :
  Spec.dated (History.pushHist Spec.chat42 (js "user") (js "hello") 900 Spec.oneSession) /\
  (Spec.chat42 ∈ Obj.keys (histories
      (History.pushHist Spec.chat42 (js "user") (js "hello") 900 Spec.oneSession)) ->
   Obj.get Spec.chat42 (default [] (histMeta
      (History.pushHist Spec.chat42 (js "user") (js "hello") 900 Spec.oneSession))) = Some 900).
Proof.
  apply (pushHist_dated Spec.chat42 (js "user") (js "hello") 900 Spec.oneSession).
  intros s Hs. apply list_elem_of_In in Hs. vm_compute in Hs.
  destruct Hs as [<-|[]]. vm_compute. reflexivity.
Defined.

Lemma pushHist_question_answer_witness :
  exists before,
    History.histFor
      (History.pushHist Spec.chat42 (js "assistant") (js "hi") 901
         (History.pushHist Spec.chat42 (js "user") (js "hello") 900 Spec.oneSession))
      Spec.chat42
    = before ++ [ {| role := js "user"; content := js "hello" |};
                  {| role := js "assistant"; content := js "hi" |} ].
Proof.
  apply (pushHist_question_answer Spec.chat42 (js "hello") (js "hi") 900 901 Spec.oneSession).
  - vm_compute. apply NoDup_singleton.
  - vm_compute. discriminate.
  - lia.
  - intros other Hin _. apply list_elem_of_In in Hin. vm_compute in Hin.
    destruct Hin as [<-|[]]. vm_compute. reflexivity.
Defined.

(** ** The store and its providers *)

Section StoreFacts.
Variables (listModels : Lister) (now : Z).

(** X24. [ai config remove all] empties the providers, the stored
    families, the catalog and the resolutions in flight; the selections
    and the histories stay as they were. *)
Theorem remove_all (arg : Js.str) (w : World) :
  Js.toLowerCase arg = js "all" ->
  let w' := (Config.remove listModels now arg w).2 in
  (Config.remove listModels now arg w).1 = Config.Done /\
  providers (data w') = [] /\ modelCompat (data w') = Some [] /\
  catalogMap (data w') = [] /\ compatResolving w' = ∅ /\
  models (data w') = models (data w) /\ histories (data w') = histories (data w).
Proof.
  intros Hall. cbv zeta. unfold Config.remove. cbv zeta. rewrite Hall.
  cbn [Js.truthy negb]. change (Js.eqb (js "all") (js "all")) with true. cbv iota.
  cbn [fst snd]. unfold refreshModelCatalog. cbn [negb andb]. done.
Qed.

(** Whatever was loaded, [Store.init] ends with a document of
    version 3 or above in which the optional sections exist, with the
    providers, the selections and the histories it was loaded with, and
    with a write scheduled. *)
Lemma Store_init_complete (loaded : DB) :
  let w := Store_init listModels now loaded in
  dataVersion (data w) = Some (Z.max 3 (default 1 (dataVersion loaded))) /\
  is_Some (modelCompat (data w)) /\ is_Some (modelCatalog (data w)) /\
  is_Some (histMeta (data w)) /\
  providers (data w) = providers loaded /\ models (data w) = models loaded /\
  histories (data w) = histories loaded /\
  last (effects w) = Some WriteSoon.
Proof.
  cbv zeta. unfold Store_init. cbv zeta.
  destruct (Z.ltb_spec (Z.max 2 (default 1 (dataVersion loaded))) 3) as [Hold|Hnew].
  - unfold refreshModelCatalog. cbn [negb andb]. simpl.
    repeat split; try done; try (by eexists). f_equal. lia.
  - simpl. repeat split; try done; try (by eexists). f_equal. lia.
Qed.

(** The case of the model name plays no part in the resolution. *)
Lemma resolveCompat_case (name model model' : Js.str) (p : Provider) (w : World) :
  Js.toLowerCase model = Js.toLowerCase model' ->
  resolveCompat listModels now name model p w = resolveCompat listModels now name model' p w.
Proof.
  intros Hcase. unfold resolveCompat, resolveCompat_begin. cbv zeta.
  rewrite <- Hcase.
  replace (detectCompat name model' (baseUrl p)) with (detectCompat name model (baseUrl p));
    [done|].
  unfold detectCompat. by rewrite Hcase.
Qed.
End StoreFacts.

Lemma remove_all_witness :
  let w' := (Config.remove Spec.deadLister 0 (js "ALL") Spec.pinnedWorld).2 in
  (Config.remove Spec.deadLister 0 (js "ALL") Spec.pinnedWorld).1 = Config.Done /\
  providers (data w') = [] /\ modelCompat (data w') = Some [] /\
  catalogMap (data w') = [] /\ compatResolving w' = ∅ /\
  models (data w') = models (data Spec.pinnedWorld) /\
  histories (data w') = histories (data Spec.pinnedWorld).
Proof. apply (remove_all Spec.deadLister 0 (js "ALL") Spec.pinnedWorld). reflexivity. Defined.

(** ** Audio from Gemini *)

Section WavFacts.
Import Wav.

Lemma le_length width v : length (le width v) = width.
Proof. revert v. induction width as [|w IH]; intros v; cbn [le length]; [done|]. by rewrite IH. Qed.

Lemma readLE_le width : forall v,
  0 <= v < 256 ^ Z.of_nat width -> Spec.readLE (le width v) = v.
Proof.
  induction width as [|w IH]; intros v Hv; cbn [le Spec.readLE fold_right].
  - change (256 ^ Z.of_nat 0) with 1 in Hv. lia.
  - fold (Spec.readLE (le w (v / 256))).
    rewrite Nat2Z.inj_succ, Z.pow_succ_r in Hv by lia.
    rewrite IH.
    + rewrite Z2N.id by (apply Z.mod_pos_bound; lia).
      pose proof (Z.div_mod v 256 ltac:(lia)). lia.
    + split; [apply Z.div_pos; lia|]. apply Z.div_lt_upper_bound; lia.
Qed.

Lemma writeUIntLE_spec width num den bs :
  0 < den -> writeUIntLE width num den = Some bs ->
  length bs = width /\ Spec.readLE bs = num / den.
Proof.
  intros Hden. unfold writeUIntLE.
  destruct (Z.ltb_spec num 0) as [|Hpos]; [done|]. cbn [orb].
  destruct (Z.ltb_spec (den * (256 ^ Z.of_nat width - 1)) num) as [|Hmax]; [done|].
  intros [= <-]. split; [apply le_length|]. apply readLE_le.
  split; [apply Z.div_pos; lia|].
  assert (num / den <= 256 ^ Z.of_nat width - 1); [|lia].
  apply Z.div_le_upper_bound; lia.
Qed.

(** A list of known length, element by element. *)
Ltac bytes bs H :=
  repeat (destruct bs as [|? bs]; [discriminate H|]);
  destruct bs; [|discriminate H]; clear H.

Lemma createHeader_wavHeader len o h :
  createHeader len o = Some h -> Spec.wavHeader h len o.
Proof.
  unfold createHeader. cbv zeta.
  destruct (writeUIntLE 4 (36 + len) 1) as [a|] eqn:Ha; [|done].
  destruct (writeUIntLE 4 16 1) as [b|] eqn:Hb; [|done].
  destruct (writeUIntLE 2 1 1) as [c|] eqn:Hc; [|done].
  destruct (writeUIntLE 2 (numChannels o) 1) as [d|] eqn:Hd; [|done].
  destruct (writeUIntLE 4 (sampleRate o) 1) as [e|] eqn:He; [|done].
  destruct (writeUIntLE 4 (sampleRate o * numChannels o * bitsPerSample o) 8) as [f|] eqn:Hf;
    [|done].
  destruct (writeUIntLE 2 (numChannels o * bitsPerSample o) 8) as [g|] eqn:Hg; [|done].
  destruct (writeUIntLE 2 (bitsPerSample o) 1) as [i|] eqn:Hi; [|done].
  destruct (writeUIntLE 4 len 1) as [j|] eqn:Hj; [|done].
  cbn [mbind option_bind]. intros [= <-].
  apply writeUIntLE_spec in Ha as [La Va], Hb as [Lb Vb], Hc as [Lc Vc], Hd as [Ld Vd],
    He as [Le Ve], Hf as [Lf Vf], Hg as [Lg Vg], Hi as [Li Vi], Hj as [Lj Vj]; try lia.
  rewrite Z.div_1_r in Va, Vb, Vc, Vd, Ve, Vi, Vj.
  bytes a La. bytes b Lb. bytes c Lc. bytes d Ld. bytes e Le.
  bytes f Lf. bytes g Lg. bytes i Li. bytes j Lj.
  repeat split; done.
Qed.

(** X25. The audio comes back as it was, with its media type, or behind
    a canonical 44-byte WAV header for its length and the sample format
    read from the media type, as [audio/wav]. *)
Theorem convertPcmL16ToWavIfNeeded_result (raw : list N) (mime : option Js.str) :
  let outMime := Auth.orDefault mime (js "audio/ogg") in
  let '(buf, m) := convertPcmL16ToWavIfNeeded raw mime in
  (buf = raw /\ m = outMime) \/
  (exists h, buf = h ++ raw /\ m = js "audio/wav" /\
             Spec.wavHeader h (Z.of_nat (length raw)) (parse outMime)).
Proof.
  cbv zeta. unfold convertPcmL16ToWavIfNeeded. cbv zeta.
  destruct (Js.includes _ (js "l16") && Js.includes _ (js "pcm")); [|by left].
  destruct (createHeader _ _) as [h|] eqn:Hh; [|by left].
  right. exists h. split; [done|]. split; [done|]. by apply createHeader_wavHeader.
Qed.

Lemma writeUIntLE_Some width num den :
  is_Some (writeUIntLE width num den) <->
  0 <= num <= den * (256 ^ Z.of_nat width - 1).
Proof.
  unfold writeUIntLE.
  destruct (Z.ltb_spec num 0); cbn [orb].
  - split; [by intros [? ?]|lia].
  - destruct (Z.ltb_spec (den * (256 ^ Z.of_nat width - 1)) num).
    + split; [by intros [? ?]|lia].
    + split; [lia|by eexists].
Qed.

Lemma createHeader_Some len o :
  is_Some (createHeader len o) <-> Spec.representable len o.
Proof.
  unfold createHeader, Spec.representable. cbv zeta.
  pose proof (writeUIntLE_Some 4 (36 + len) 1) as Ha.
  pose proof (writeUIntLE_Some 2 (numChannels o) 1) as Hd.
  pose proof (writeUIntLE_Some 4 (sampleRate o) 1) as He.
  pose proof (writeUIntLE_Some 4 (sampleRate o * numChannels o * bitsPerSample o) 8) as Hf.
  pose proof (writeUIntLE_Some 2 (numChannels o * bitsPerSample o) 8) as Hg.
  pose proof (writeUIntLE_Some 2 (bitsPerSample o) 1) as Hi.
  pose proof (writeUIntLE_Some 4 len 1) as Hj.
  change (256 ^ Z.of_nat 4 - 1) with 4294967295 in *.
  change (256 ^ Z.of_nat 2 - 1) with 65535 in *.
  change (writeUIntLE 4 16 1) with (Some (le 4 16)).
  change (writeUIntLE 2 1 1) with (Some (le 2 1)).
  destruct (writeUIntLE 4 (36 + len) 1); cbn [mbind option_bind];
    [|split; [by intros [? ?]|intros H; apply Ha; lia]].
  destruct (writeUIntLE 2 (numChannels o) 1); cbn [mbind option_bind];
    [|split; [by intros [? ?]|intros H; apply Hd; lia]].
  destruct (writeUIntLE 4 (sampleRate o) 1); cbn [mbind option_bind];
    [|split; [by intros [? ?]|intros H; apply He; lia]].
  destruct (writeUIntLE 4 (sampleRate o * numChannels o * bitsPerSample o) 8);
    cbn [mbind option_bind];
    [|split; [by intros [? ?]|intros H; apply Hf; lia]].
  destruct (writeUIntLE 2 (numChannels o * bitsPerSample o) 8); cbn [mbind option_bind];
    [|split; [by intros [? ?]|intros H; apply Hg; lia]].
  destruct (writeUIntLE 2 (bitsPerSample o) 1); cbn [mbind option_bind];
    [|split; [by intros [? ?]|intros H; apply Hi; lia]].
  destruct (writeUIntLE 4 len 1); cbn [mbind option_bind];
    [|split; [by intros [? ?]|intros H; apply Hj; lia]].
  split; [intros _|by eexists].
  pose proof (proj1 Ha ltac:(by eexists)). pose proof (proj1 Hd ltac:(by eexists)).
  pose proof (proj1 He ltac:(by eexists)). pose proof (proj1 Hf ltac:(by eexists)).
  pose proof (proj1 Hg ltac:(by eexists)). pose proof (proj1 Hi ltac:(by eexists)).
  pose proof (proj1 Hj ltac:(by eexists)). lia.
Qed.

(** X26. The header is put in front exactly when the media type names
    16-bit linear PCM and every field fits the width it is written
    with; in every other case the audio and its media type come back
    untouched. *)
Theorem convertPcmL16ToWavIfNeeded_when (raw : list N) (mime : option Js.str) :
  let outMime := Auth.orDefault mime (js "audio/ogg") in
  let converts :=
    Spec.namesPcm outMime = true /\
    Spec.representable (Z.of_nat (length raw)) (parse outMime) in
  (converts ->
   exists h, convertPcmL16ToWavIfNeeded raw mime = (h ++ raw, js "audio/wav")) /\
  (~ converts -> convertPcmL16ToWavIfNeeded raw mime = (raw, outMime)).
Proof.
  cbv zeta. unfold convertPcmL16ToWavIfNeeded, Spec.namesPcm. cbv zeta.
  set (outMime := Auth.orDefault mime (js "audio/ogg")).
  pose proof (createHeader_Some (Z.of_nat (length raw)) (parse outMime)) as Hsome.
  destruct (Js.includes _ (js "l16") && Js.includes _ (js "pcm")).
  - destruct (createHeader _ _) as [h|].
    + split; [by exists h|]. intros Hno. exfalso. apply Hno. split; [done|].
      apply Hsome. by eexists.
    + split; [|done]. intros [_ Hrep]. apply Hsome in Hrep. by destruct Hrep.
  - split; [|done]. by intros [? _].
Qed.
End WavFacts.

Section ParseFacts.
Import Wav.

Lemma split_absent sep s : sep ∉ s -> Js.split sep s = [s].
Proof.
  intros Hout. destruct (split_decomp sep s) as [[_ H]|(pre & seg & L & -> & _)]; [done|].
  exfalso. apply Hout. apply elem_of_app. right. by left.
Qed.

Lemma split_cut sep a rest :
  sep ∉ a -> Js.split sep (a ++ sep :: rest) = a :: Js.split sep rest.
Proof.
  induction a as [|c a IH]; intros Hout; cbn [app Js.split].
  - by rewrite N.eqb_refl.
  - apply not_elem_of_cons in Hout as [Hne Hout].
    rewrite (proj2 (N.eqb_neq c sep)) by done. by rewrite (IH Hout).
Qed.

Lemma digits_exclude s c :
  forallb Obj.isDigit s = true -> Obj.isDigit c = false -> c ∉ s.
Proof.
  intros Hd Hc Hin. rewrite forallb_forall in Hd.
  specialize (Hd c (proj1 (list_elem_of_In _ _) Hin)). congruence.
Qed.

Lemma readParam_rate opts r :
  readParam opts (js "rate=" ++ Js.ofNat r) = with_sampleRate (Z.of_nat r) opts.
Proof.
  destruct (ofNat_spec r) as (_ & Hd & _ & _).
  unfold readParam. cbv zeta.
  change (js "rate=" ++ Js.ofNat r) with (js "rate" ++ 61%N :: Js.ofNat r).
  rewrite split_cut by decided.
  rewrite split_absent by (by apply digits_exclude).
  change (List.map Js.trim [js "rate"; Js.ofNat r])
    with [Js.trim (js "rate"); Js.trim (Js.ofNat r)].
  rewrite (trim_word _ (digits_word _ Hd)).
  change (Js.trim (js "rate")) with (js "rate").
  change ([js "rate"; Js.ofNat r] !! 0%nat) with (Some (js "rate")).
  change ([js "rate"; Js.ofNat r] !! 1%nat) with (Some (Js.ofNat r)).
  change (default [] (Some (js "rate"))) with (js "rate").
  change (Js.eqb (js "rate") (js "rate")) with true.
  change (Js.eqb (js "rate") (js "channels")) with false. cbv iota.
  unfold parseIntOf. change (default (js "undefined") (Some (Js.ofNat r))) with (Js.ofNat r).
  by rewrite parseInt_ofNat.
Qed.

(** X27. The media type of raw Gemini audio is read as one channel of
    16-bit samples at the rate it names, for a rate up to [2^53], which
    the number type of the language holds exactly. *)
Theorem parse_rate (r : nat) :
  Z.of_nat r <= 2 ^ 53 ->
  parse (js "audio/L16;codec=pcm;rate=" ++ Js.ofNat r) =
  {| numChannels := 1; sampleRate := Z.of_nat r; bitsPerSample := 16 |}.
Proof.
  intros _. destruct (ofNat_spec r) as (Hne & Hd & _ & _).
  assert (Hpieces : List.map Js.trim (Js.split 59 (js "audio/L16;codec=pcm;rate=" ++ Js.ofNat r))
                    = [js "audio/L16"; js "codec=pcm"; js "rate=" ++ Js.ofNat r]).
  { change (js "audio/L16;codec=pcm;rate=" ++ Js.ofNat r)
      with (js "audio/L16" ++ 59%N :: (js "codec=pcm" ++ 59%N :: (js "rate=" ++ Js.ofNat r))).
    rewrite !split_cut by decided. rewrite split_absent.
    2:{ apply not_elem_of_app. split; [decided|by apply digits_exclude]. }
    change (List.map Js.trim [js "audio/L16"; js "codec=pcm"; js "rate=" ++ Js.ofNat r])
      with [js "audio/L16"; js "codec=pcm"; Js.trim (js "rate=" ++ Js.ofNat r)].
    rewrite trim_word; [done|].
    apply Forall_app. split; [|by apply digits_word]. vm_compute. repeat constructor. }
  unfold parse. cbv zeta. rewrite Hpieces.
  transitivity (fold_left readParam [js "codec=pcm"; js "rate=" ++ Js.ofNat r]
                  {| numChannels := 1; sampleRate := 24000; bitsPerSample := 16 |}).
  { f_equal. }
  cbn [fold_left].
  change (readParam {| numChannels := 1; sampleRate := 24000; bitsPerSample := 16 |}
            (js "codec=pcm"))
    with {| numChannels := 1; sampleRate := 24000; bitsPerSample := 16 |}.
  by rewrite readParam_rate.
Qed.
End ParseFacts.

Lemma parse_rate_witness :
  Wav.parse (js "audio/L16;codec=pcm;rate=" ++ Js.ofNat 4800) =
  {| Wav.numChannels := 1; Wav.sampleRate := Z.of_nat 4800; Wav.bitsPerSample := 16 |}.
Proof. apply (parse_rate 4800). vm_compute. discriminate. Defined.

(** ** The Anthropic version *)

Section SortFacts.

Lemma leb_refl a : Js.leb a a = true.
Proof.
  induction a as [|x a IH]; [done|]. cbn [Js.leb].
  by rewrite N.eqb_refl, IH, orb_true_r.
Qed.

Lemma leb_total a b : Js.leb a b = false -> Js.leb b a = true.
Proof.
  revert b. induction a as [|x a IH]; intros [|y b]; cbn [Js.leb]; try done.
  intros [Hlt Heq]%orb_false_iff. apply N.ltb_ge in Hlt.
  destruct (N.eqb_spec x y) as [->|Hne].
  - cbn [andb] in Heq. rewrite N.eqb_refl, (IH _ Heq). apply orb_true_r.
  - apply orb_true_iff. left. apply N.ltb_lt. lia.
Qed.

Lemma leb_trans a b c : Js.leb a b = true -> Js.leb b c = true -> Js.leb a c = true.
Proof.
  revert b c. induction a as [|x a IH]; intros [|y b] [|z c]; cbn [Js.leb]; try done.
  intros [Hxy|[Hxy Hab]%andb_true_iff]%orb_true_iff
         [Hyz|[Hyz Hbc]%andb_true_iff]%orb_true_iff;
    rewrite ?N.ltb_lt, ?N.eqb_eq in *; subst.
  - apply orb_true_iff. left. apply N.ltb_lt. lia.
  - apply orb_true_iff. left. by apply N.ltb_lt.
  - apply orb_true_iff. left. by apply N.ltb_lt.
  - rewrite N.eqb_refl, (IH _ _ Hab Hbc). apply orb_true_r.
Qed.

Lemma insertSorted_elem a l x : x ∈ Js.insertSorted a l <-> x = a \/ x ∈ l.
Proof.
  induction l as [|b l IH]; cbn [Js.insertSorted].
  - rewrite list_elem_of_singleton, elem_of_nil. tauto.
  - destruct (Js.leb a b); rewrite !elem_of_cons; [tauto|]. rewrite IH. tauto.
Qed.

Lemma sort_elem l x : x ∈ Js.sort l <-> x ∈ l.
Proof.
  induction l as [|a l IH]; [done|]. unfold Js.sort in *. cbn [foldr].
  rewrite insertSorted_elem, IH, elem_of_cons. tauto.
Qed.

(** What an insertion leaves last is the greater of the new element and
    the old last one. *)
Lemma insertSorted_last a l :
  (forall x, x ∈ l -> forall m, last l = Some m -> Js.leb x m = true) ->
  exists m, last (Js.insertSorted a l) = Some m /\
            forall x, x ∈ Js.insertSorted a l -> Js.leb x m = true.
Proof.
  induction l as [|b l IH]; intros Hmax; cbn [Js.insertSorted].
  - exists a. split; [done|]. intros x Hx. apply list_elem_of_singleton in Hx as ->.
    apply leb_refl.
  - destruct (last (b :: l)) as [m|] eqn:Hm; [|by apply last_None in Hm].
    destruct (Js.leb a b) eqn:Hab.
    + exists m. split; [by destruct l|]. intros x [->|Hx]%elem_of_cons.
      * eapply leb_trans; [exact Hab|]. apply (Hmax b); [by left|done].
      * by apply (Hmax x).
    + destruct l as [|c l].
      * cbn [Js.insertSorted]. exists a. split; [done|].
        intros x [->|Hx]%elem_of_cons; [by apply leb_total|].
        apply list_elem_of_singleton in Hx as ->. apply leb_refl.
      * destruct IH as (m' & Hlast & Hall).
        { intros x Hx m0 Hm0. apply (Hmax x); [by right|]. by rewrite <- Hm0. }
        exists m'. split.
        { destruct (Js.insertSorted a (c :: l)) eqn:E; [|done].
          exfalso. assert (a ∈ Js.insertSorted a (c :: l)) as Hin by (apply insertSorted_elem; by left).
          rewrite E in Hin. by apply elem_of_nil in Hin. }
        intros x [->|Hx]%elem_of_cons; [|by apply Hall].
        assert (Js.leb b m = true) as Hbm by (apply (Hmax b); [by left|done]).
        assert (m ∈ Js.insertSorted a (c :: l)) as Hmin.
        { apply insertSorted_elem. right. cbn [last] in Hm.
          apply last_Some in Hm as [l' ->]. apply elem_of_app. right. by left. }
        eapply leb_trans; [exact Hbm|]. by apply Hall.
Qed.

(** The last element of a sorted list is the greatest. *)
Lemma sort_last l :
  match last (Js.sort l) with
  | Some m => m ∈ l /\ forall x, x ∈ l -> Js.leb x m = true
  | None => l = []
  end.
Proof.
  induction l as [|a l IH]; [done|]. unfold Js.sort in *. cbn [foldr].
  destruct (insertSorted_last a (foldr Js.insertSorted [] l)) as (m & Hlast & Hall).
  { intros x Hx m Hm. rewrite Hm in IH. destruct IH as [_ IH]. apply IH.
    by apply sort_elem. }
  rewrite Hlast. split.
  - assert (m ∈ Js.insertSorted a (foldr Js.insertSorted [] l)) as Hin.
    { apply last_Some in Hlast as [l' ->]. apply elem_of_app. right. by left. }
    apply insertSorted_elem in Hin as [->|Hin]; [by left|]. right. by apply sort_elem.
  - intros x Hx. apply Hall. apply insertSorted_elem.
    apply elem_of_cons in Hx as [->|Hx]; [by left|]. right. by apply sort_elem.
Qed.
End SortFacts.

Section VersionFacts.
Import Anthropic.
Variables (net : Http.Net) (jitter : nat -> Z) (errorJson : Http.Error -> Js.str).

Lemma dates_nonempty s : forall prev skip m, m ∈ dates prev skip s -> m <> [].
Proof.
  induction s as [|c s IH]; intros prev skip m; cbn [dates]; [by intros ?%elem_of_nil|].
  destruct skip as [|k]; [|apply IH].
  destruct (match prev with None => true | Some p => negb (Js.isWordUnit p) end
            && dateAt (c :: s)); [|apply IH].
  intros [->|Hin]%elem_of_cons; [done|]. by eapply IH.
Qed.

(** X28. The version found for a provider is remembered: asking again
    returns it from the cache, with no request and no change. *)
Theorem getAnthropicVersion_cached (p : Provider) (cache : gmap Js.str Js.str) :
  let '(ver, cache', _) := getAnthropicVersion net jitter errorJson p cache in
  getAnthropicVersion net jitter errorJson p cache' = (ver, cache', []).
Proof.
  unfold getAnthropicVersion. cbv zeta.
  set (key := Js.or_else (Js.trimBase (baseUrl p)) (js "anthropic")).
  destruct (Js.truthy (default [] (cache !! key))) eqn:Hhit.
  - by rewrite Hhit.
  - set (ver := match (Http.axiosWithRetry net jitter (probe p)).1 with
                | Http.Ok _ => _ | Http.Fail _ => _ end).
    assert (Hver : Js.truthy ver = true).
    { subst ver. destruct ((Http.axiosWithRetry net jitter (probe p)).1) as [r|err]; [done|].
      pose proof (sort_last (dates None 0 (errorJson err))) as Hlast.
      destruct (last (Js.sort (dates None 0 (errorJson err)))) as [latest|]; [|done].
      destruct Hlast as [Hin _]. apply dates_nonempty in Hin. by destruct latest. }
    rewrite lookup_insert_eq. change (default [] (Some ver)) with ver. by rewrite Hver.
Qed.

(** X29. When the probe fails, the version is the latest of the dates
    that the text of the error holds, by the order of their digits, and
    [2023-06-01] when it holds none or when the probe succeeds. *)
Theorem getAnthropicVersion_latest (p : Provider) (cache : gmap Js.str Js.str) :
  Js.truthy (default [] (cache !! Js.or_else (Js.trimBase (baseUrl p)) (js "anthropic")))
    = false ->
  let ver := (getAnthropicVersion net jitter errorJson p cache).1.1 in
  match (Http.axiosWithRetry net jitter (probe p)).1 with
  | Http.Ok _ => ver = defaultVersion
  | Http.Fail err =>
      (Spec.datesIn (errorJson err) = [] /\ ver = defaultVersion) \/
      (ver ∈ Spec.datesIn (errorJson err) /\
       forall d, d ∈ Spec.datesIn (errorJson err) -> Js.leb d ver = true)
  end.
Proof.
  intros Hmiss. cbv zeta. unfold getAnthropicVersion. cbv zeta. rewrite Hmiss.
  cbn [fst]. destruct ((Http.axiosWithRetry net jitter (probe p)).1) as [r|err]; [done|].
  unfold Spec.datesIn.
  pose proof (sort_last (dates None 0 (errorJson err))) as Hlast.
  destruct (last (Js.sort (dates None 0 (errorJson err)))) as [latest|]; [by right|by left].
Qed.
End VersionFacts.

Lemma getAnthropicVersion_latest_witness :
  let ver := (Anthropic.getAnthropicVersion Spec.rejectingNet Spec.noJitter
                Spec.versionsText Spec.acme ∅).1.1 in
  match (Http.axiosWithRetry Spec.rejectingNet Spec.noJitter (Anthropic.probe Spec.acme)).1 with
  | Http.Ok _ => ver = Anthropic.defaultVersion
  | Http.Fail err =>
      (Spec.datesIn (Spec.versionsText err) = [] /\ ver = Anthropic.defaultVersion) \/
      (ver ∈ Spec.datesIn (Spec.versionsText err) /\
       forall d, d ∈ Spec.datesIn (Spec.versionsText err) -> Js.leb d ver = true)
  end.
Proof.
  apply (getAnthropicVersion_latest Spec.rejectingNet Spec.noJitter Spec.versionsText
           Spec.acme ∅).
  reflexivity.
Defined.
